(** * Quantum_QKD_failure_inj: telemetry harness and dataset consolidator

    A shallow embedding of the four Python sources

    - [generate_dataset.py]       (module [Consolidator]),
    - [run_dataset_one_link.py]   (module [OneLink]),
    - [tokyo_qkd_simulation.py]   (module [Tokyo]),

    followed by the properties of the specification that are settled
    against them.

    Conventions.  Python floats are exact rationals ([Q]); a pandas cell
    that may be undefined or infinite is an [fval].  Dictionaries keyed by
    strings whose order is irrelevant are [gmap string _]; the
    insertion-ordered [FAULT_LABELS] dictionary, which the code iterates,
    is an association list.  Code that can raise returns a sum whose left
    side is the exception. *)

From Stdlib Require Import ZArith QArith Qround Qminmax String Ascii List Lia Bool.
From Stdlib Require Import Permutation Sorted OrderedTypeEx.
From stdpp Require Import base gmap strings list.
Import ListNotations.

Local Open Scope string_scope.
Local Open Scope Z_scope.

(** ** Pieces shared by the three programs *)

(** A stable insertion sort: Python's [sorted] and the multi-key
    [DataFrame.sort_values] are both stable. *)
Section Sorting.
Context {A : Type} (leb : A -> A -> bool).

Fixpoint insert_sorted (x : A) (l : list A) : list A :=
  match l with
  | [] => [x]
  | y :: l' => if leb x y then x :: l else y :: insert_sorted x l'
  end.

Fixpoint isort (l : list A) : list A :=
  match l with
  | [] => []
  | x :: l' => insert_sorted x (isort l')
  end.
End Sorting.

(** [round(x)] of Python 3: to the nearest integer, ties to the even one. *)
Definition py_round (x : Q) : Z :=
  let fl := Qfloor x in
  let frac := (x - inject_Z fl)%Q in
  match Qcompare frac (1 # 2) with
  | Lt => fl
  | Gt => fl + 1
  | Eq => if Z.even fl then fl else fl + 1
  end.

(** [round(x, n)]: [n] decimal places. *)
Definition py_round_nd (n : nat) (x : Q) : Q :=
  let scale := inject_Z (10 ^ Z.of_nat n) in
  Qred (inject_Z (py_round (x * scale)) / scale)%Q.

(** ** Exceptions

    The Python exceptions the harness code can run into, and the error
    monad that threads them. *)
Inductive Exn : Type :=
| KeyError
| AttributeError
| IndexError.

Definition result (A : Type) : Type := (Exn + A)%type.

Definition raise {A : Type} (e : Exn) : result A := inl e.

#[global] Instance result_ret : MRet result := fun A x => inr x.

#[global] Instance result_bind : MBind result := fun A B f m =>
  match m with
  | inl e => inl e
  | inr x => f x
  end.

Definition ret {A : Type} (x : A) : result A := mret x.

(** [d[k]] on a dictionary. *)
Definition getitem {V : Type} (d : gmap string V) (k : string) : result V :=
  match d !! k with
  | Some v => ret v
  | None => raise KeyError
  end.

(** A [for] loop whose body may raise. *)
Fixpoint for_each {A St : Type} (body : A -> St -> result St) (l : list A) (s : St) : result St :=
  match l with
  | [] => ret s
  | x :: l' => s' ← body x s; for_each body l' s'
  end.

(** ** generate_dataset.py *)
Module Consolidator.

Definition FAULT_LABELS : list (string * Z) :=
  [ ("normal", 0); ("qber", 1); ("degrade", 2);
    ("node_fail", 3); ("blinding", 4); ("trojan", 5) ].

(** [f"dataset_{name}.csv"] *)
Definition dataset_file (name : string) : string :=
  "dataset_" +:+ name +:+ ".csv".

Definition EXPECTED_FILES : gset string :=
  list_to_set (List.map (fun p => dataset_file (fst p)) FAULT_LABELS).

(** *** pathlib and glob on file names

    A path [f"{data_dir}/<name>"] is represented by its final component,
    the only part [main] and [load_and_label] look at ([Path(c).name],
    [Path(c).stem]). *)

(** [name.rfind('.')], counted from the left; [None] for -1. *)
Fixpoint rfind_dot (s : string) : option nat :=
  match s with
  | EmptyString => None
  | String c s' =>
      match rfind_dot s' with
      | Some i => Some (S i)
      | None => if Ascii.eqb c "."%char then Some O else None
      end
  end.

(** [PurePath.stem]: the name without its last suffix; a leading or a
    trailing dot does not start a suffix. *)
Definition stem (name : string) : string :=
  match rfind_dot name with
  | Some i =>
      if (0 <? i)%nat && (i <? String.length name - 1)%nat
      then String.substring 0 i name
      else name
  | None => name
  end.

Definition ends_with (suffix s : string) : bool :=
  String.prefix (String.rev suffix) (String.rev s).

(** [fnmatch(name, "dataset_*.csv")]: the prefix, anything, the suffix. *)
Definition glob_match (name : string) : bool :=
  String.prefix "dataset_" name
  && ends_with ".csv" (String.substring 8 (String.length name - 8) name).

(** *** Tables *)

(** A cell of a derived float column. *)
Inductive fval : Type :=
| NaN
| NegInf
| PosInf
| Fin (q : Q).

(** One row of a raw telemetry CSV, in the recorder's column order. *)
Record Sample : Type := mkSample {
  timestamp_ps : Z;
  link : string;
  node : string;
  qber : Q;
  key_rate_sifted : Q;
  key_rate_final : Q;
  detection_count : Z;
  error_count : Z;
  dark_count_rate : Q;
  detector_efficiency : Q;
  back_reflection_power : Q;
  phase_error_rate : Q;
  label : string;
  fault_id : Z
}.

(** A row after [load_and_label]: [fault_id] overwritten, [fault_name]
    added. *)
Record Labelled : Type := mkLabelled {
  sample : Sample;
  fault_name : string
}.

(** A row of the consolidated dataset. *)
Record Feature : Type := mkFeature {
  base : Labelled;
  qber_delta : fval;
  qber_ma5 : fval;
  qber_var5 : fval;
  key_rate_drop : fval;
  dark_count_delta : fval;
  back_reflection_alert : Z;
  qber_alert : Z
}.

Definition set_fault_id (i : Z) (s : Sample) : Sample :=
  mkSample (timestamp_ps s) (link s) (node s) (qber s) (key_rate_sifted s)
    (key_rate_final s) (detection_count s) (error_count s)
    (dark_count_rate s) (detector_efficiency s) (back_reflection_power s)
    (phase_error_rate s) (label s) i.

(** [df["fault_id"] = i; df["fault_name"] = n] *)
Definition assign_label (i : Z) (n : string) (df : list Sample) : list Labelled :=
  List.map (fun s => mkLabelled (set_fault_id i s) n) df.

(** The [for fault_name, fault_id in FAULT_LABELS.items()] loop: the first
    entry whose name makes the stem, by string equality. *)
Fixpoint match_stem (st : string) (labels : list (string * Z)) : option (string * Z) :=
  match labels with
  | [] => None
  | (fname, fid) :: rest =>
      if String.eqb st ("dataset_" +:+ fname) then Some (fname, fid)
      else match_stem st rest
  end.

Definition load_and_label (csv_path : string) (df : list Sample) : list Labelled :=
  match match_stem (stem csv_path) FAULT_LABELS with
  | Some (fname, fid) => assign_label fid fname df
  | None => assign_label 0 "normal" df
  end.

(** *** engineer_features *)

(** The sort key [["fault_name", "link", "timestamp_ps"]], compared
    column by column; strings by code point. *)
Definition row_leb (a b : Labelled) : bool :=
  match String.compare (fault_name a) (fault_name b) with
  | Lt => true
  | Gt => false
  | Eq =>
      match String.compare (link (sample a)) (link (sample b)) with
      | Lt => true
      | Gt => false
      | Eq => timestamp_ps (sample a) <=? timestamp_ps (sample b)
      end
  end.

(** [df.sort_values([...]).reset_index(drop=True)] *)
Definition sort_values (df : list Labelled) : list Labelled :=
  isort row_leb df.

(** Two rows fall in the same group of [df.groupby(["fault_name", "link"])]. *)
Definition same_group (a b : Labelled) : bool :=
  String.eqb (fault_name a) (fault_name b)
  && String.eqb (link (sample a)) (link (sample b)).

Definition fillna0 (v : fval) : fval :=
  match v with
  | NaN => Fin 0
  | _ => v
  end.

(** [Series.clip(-1, 1)]: [minimum(maximum(x, -1), 1)]; an undefined cell
    stays undefined. *)
Definition clip11 (v : fval) : fval :=
  match v with
  | NaN => NaN
  | NegInf => Fin (-1)
  | PosInf => Fin 1
  | Fin q => Fin (Qmin (Qmax q (-1)) 1)
  end.

(** [x.diff()] at a row whose group predecessor holds [prev]. *)
Definition diff (prev : option Q) (x : Q) : fval :=
  match prev with
  | None => NaN
  | Some p => Fin (x - p)
  end.

(** [x.pct_change()] at one row: [x / prev - 1] with IEEE division by
    zero. *)
Definition pct_change (prev : option Q) (x : Q) : fval :=
  match prev with
  | None => NaN
  | Some p =>
      if Qeq_bool p 0 then
        match Qcompare x 0 with
        | Eq => NaN
        | Gt => PosInf
        | Lt => NegInf
        end
      else Fin (x / p - 1)
  end.

Definition Qsum (l : list Q) : Q := fold_right Qplus 0%Q l.

Definition Qlen (l : list Q) : Q := inject_Z (Z.of_nat (List.length l)).

(** [rolling(5, min_periods=1).mean()] on one window. *)
Definition rolling_mean (w : list Q) : fval :=
  match w with
  | [] => NaN
  | _ => Fin (Qsum w / Qlen w)
  end.

(** [rolling(5, min_periods=1).var()] on one window: the sample variance
    ([ddof=1]), undefined below two observations. *)
Definition rolling_var (w : list Q) : fval :=
  if (List.length w <=? 1)%nat then NaN
  else
    let m := (Qsum w / Qlen w)%Q in
    Fin (Qsum (List.map (fun x => (x - m) * (x - m)) w)
         / (Qlen w - 1))%Q.

(** The rows of the group of [r] among the rows above it; [before] lists
    those rows nearest first. *)
Definition group_history (before : list Labelled) (r : Labelled) : list Labelled :=
  List.filter (same_group r) before.

(** The trailing window of size 5 that ends at [r], nearest first. *)
Definition window5 (col : Labelled -> Q) (hist : list Labelled) (r : Labelled) : list Q :=
  col r :: List.map col (firstn 4 hist).

Definition prev_value (col : Labelled -> Q) (hist : list Labelled) : option Q :=
  option_map col (List.hd_error hist).

Definition flag (b : bool) : Z := if b then 1 else 0.

(** The derived columns of one row, from the earlier rows of its group. *)
Definition derive (hist : list Labelled) (r : Labelled) : Feature :=
  let q := fun x => qber (sample x) in
  let k := fun x => key_rate_sifted (sample x) in
  let d := fun x => dark_count_rate (sample x) in
  {| base := r;
     qber_delta := fillna0 (diff (prev_value q hist) (q r));
     qber_ma5 := rolling_mean (window5 q hist r);
     qber_var5 := fillna0 (rolling_var (window5 q hist r));
     key_rate_drop := clip11 (fillna0 (pct_change (prev_value k hist) (k r)));
     dark_count_delta := fillna0 (diff (prev_value d hist) (d r));
     back_reflection_alert :=
       flag (negb (Qle_bool (back_reflection_power (sample r)) (1 # 1000000)));
     qber_alert := flag (negb (Qle_bool (q r) (5 # 100))) |}.

(** The group-wise transforms, row by row down the sorted frame; [above]
    holds the rows already passed, nearest first. *)
Fixpoint derive_all (above : list Labelled) (rows : list Labelled) : list Feature :=
  match rows with
  | [] => []
  | r :: rest => derive (group_history above r) r :: derive_all (r :: above) rest
  end.

Definition engineer_features (df : list Labelled) : list Feature :=
  derive_all [] (sort_values df).

(** *** main *)

(** What [main] prints, one constructor per [print]. *)
Inductive Msg : Type :=
| MsgSkipped (names : list string)
| MsgNoValid
| MsgExpected (names : list string)
| MsgLoading (n : nat)
| MsgFile (name : string) (rows : nat) (lbl : string)
| MsgFeatureEngineering
| MsgDistribution (counts : list (string * nat))
| MsgTotal (n : nat)
| MsgColumns
| MsgMissing (names : list string)
| MsgMissingHint
| MsgSaved.

(** The observable outcome of one call of [main]: the lines printed, the
    table handed to [to_csv] if that line was reached, and the exception
    if one escaped. *)
Record Run : Type := mkRun {
  stdout : list Msg;
  written : option (list Feature);
  raised : option Exn
}.

(** A data directory: file names with their parsed contents (header and
    data rows), in the order [glob] lists them. *)
Definition Dir : Type := list (string * list Sample).

Definition glob (data_dir : Dir) : Dir :=
  List.filter (fun c => glob_match (fst c)) data_dir.

Definition expected (name : string) : bool :=
  bool_decide (name ∈ EXPECTED_FILES).

(** [df['fault_name'].iloc[0]]: out of bounds on a frame without rows. *)
Definition iloc0 (df : list Labelled) : Exn + string :=
  match df with
  | [] => inl IndexError
  | r :: _ => inr (fault_name r)
  end.

(** The loading loop; [out] are the lines printed so far, latest first. *)
Fixpoint load_frames (cs : Dir) (out : list Msg) (frames : list (list Labelled))
  : (Exn * list Msg) + (list Msg * list (list Labelled)) :=
  match cs with
  | [] => inr (out, frames)
  | (c, content) :: rest =>
      let df := load_and_label c content in
      match iloc0 df with
      | inl e => inl (e, out)
      | inr lbl =>
          load_frames rest (MsgFile c (List.length df) lbl :: out) (frames ++ [df])%list
      end
  end.

(** [df["fault_name"].value_counts()] read at one label. *)
Definition count_label (n : string) (df : list Feature) : nat :=
  List.length (List.filter (fun r => String.eqb (fault_name (base r)) n) df).

(** The labels of a frame in order of first appearance. *)
Fixpoint distinct_labels (seen : list string) (df : list Feature) : list string :=
  match df with
  | [] => []
  | r :: rest =>
      let n := fault_name (base r) in
      if existsb (String.eqb n) seen then distinct_labels seen rest
      else n :: distinct_labels (n :: seen) rest
  end.

(** [value_counts()]: one line per label, most frequent first. *)
Definition value_counts (df : list Feature) : list (string * nat) :=
  isort (fun a b => (snd b <=? snd a)%nat)
    (List.map (fun n => (n, count_label n df)) (distinct_labels [] df)).

Definition sorted_names (names : list string) : list string :=
  isort String.leb names.

Definition main (data_dir : Dir) : Run :=
  let all_csvs := glob data_dir in
  let valid_csvs := List.filter (fun c => expected (fst c)) all_csvs in
  let skipped :=
    List.map fst (List.filter (fun c => negb (expected (fst c))) all_csvs) in
  let out0 := match skipped with [] => [] | _ => [MsgSkipped skipped] end in
  match valid_csvs with
  | [] =>
      mkRun (out0 ++ [MsgNoValid; MsgExpected (sorted_names (elements EXPECTED_FILES))])%list
        None None
  | _ =>
      let out1 := MsgLoading (List.length valid_csvs) :: rev out0 in
      match load_frames (isort (fun a b => String.leb (fst a) (fst b)) valid_csvs) out1 [] with
      | inl (e, out) => mkRun (rev out) None (Some e)
      | inr (out2, frames) =>
          let df := engineer_features (List.concat frames) in
          let missing :=
            EXPECTED_FILES ∖ list_to_set (List.map fst valid_csvs) in
          let out3 :=
            (rev out2
             ++ [MsgFeatureEngineering; MsgDistribution (value_counts df);
                 MsgTotal (List.length df); MsgColumns]
             ++ (if bool_decide (missing = ∅) then []
                 else [MsgMissing (sorted_names (elements missing)); MsgMissingHint]))%list in
          mkRun (out3 ++ [MsgSaved])%list (Some df) None
      end
  end.

End Consolidator.

(** ** run_dataset_one_link.py *)
Module OneLink.

Definition PS : Z := 1.
Definition MS : Z := 1000000000 * PS.
Definition S : Z := 1000000000000 * PS.

Definition STOP_TIME : Z := 2 * S.
Definition SAMPLE_EVERY : Z := 20 * MS.

Definition KEYLEN : Z := 128.
Definition FRAMES_PER_REQUEST : Z := 5.
Definition REQUEST_EVERY : Z := 100 * MS.
Definition CONSUME_EVERY : Z := 80 * MS.
Definition CONSUME_KEYS : nat := 2.

Record ScenarioState : Type := mkScenarioState {
  label : string;
  starvation : Z
}.

Definition set_label (l : string) (st : ScenarioState) : ScenarioState :=
  mkScenarioState l (starvation st).

(** The attributes of the reconciliation protocol that the harness reads;
    [valid_keys] is [None] when the object has no such attribute. *)
Record Cascade : Type := mkCascade {
  valid_keys : option (list Z)
}.

(** One detector of the array behind [qsdA], as [set_detector] sets it. *)
Record Detector : Type := mkDetector {
  efficiency : Q;
  dark_count : Q
}.

(** The objects the scheduled callbacks share. *)
Record World : Type := mkWorld {
  state : ScenarioState;
  cascade : option Cascade;
  attenuation : Q;
  qsdA : list Detector;
  phase_error : Q
}.

(** [vk.pop(0)] *)
Definition pop0 (vk : list Z) : result (list Z) :=
  match vk with
  | [] => raise IndexError
  | _ :: rest => ret rest
  end.

(** [for _ in range(n): vk.pop(0)] *)
Fixpoint pop_front (n : nat) (vk : list Z) : result (list Z) :=
  match n with
  | O => ret vk
  | Datatypes.S n' => vk' ← pop0 vk; pop_front n' vk'
  end.

(** [Traffic.consume] *)
Definition consume (w : World) : result World :=
  match cascade w with
  | None => ret w
  | Some c =>
      let vk := default [] (valid_keys c) in
      if (List.length vk <? CONSUME_KEYS)%nat then
        ret (mkWorld (mkScenarioState (label (state w)) (starvation (state w) + 1))
               (cascade w) (attenuation w) (qsdA w) (phase_error w))
      else
        vk' ← pop_front CONSUME_KEYS vk;
        ret (mkWorld (state w) (Some (mkCascade (Some vk')))
               (attenuation w) (qsdA w) (phase_error w))
  end.

(** [qsd.set_detector(i, efficiency=e, dark_count=d)] of the engine. *)
Definition set_detector (i : nat) (e d : Q) (qsd : list Detector) : list Detector :=
  <[i := mkDetector e d]> qsd.

Definition fault_attenuation_jump (w : World) : World :=
  mkWorld (set_label "attenuation_jump" (state w)) (cascade w)
    (attenuation w * 3)%Q (qsdA w) (phase_error w).

Definition fault_darkcount_spike (w : World) : World :=
  mkWorld (set_label "darkcount_spike" (state w)) (cascade w) (attenuation w)
    (fold_left (fun qsd i => set_detector i (15 # 100) 50000 qsd) [0%nat; 1%nat] (qsdA w))
    (phase_error w).

Definition fault_phase_noise (w : World) : World :=
  mkWorld (set_label "phase_noise" (state w)) (cascade w) (attenuation w)
    (qsdA w) (8 # 100).

(** [schedule_at]: one more event on the timeline, to call [method_name]
    at [time_ps]. *)
Definition schedule_at (time_ps : Z) (method_name : string)
    (events : list (Z * string)) : list (Z * string) :=
  (events ++ [(time_ps, method_name)])%list.

(** [schedule_every]: the [while t <= end_ps] loop, with fuel for its
    iterations; [None] when the fuel runs out before the loop ends. *)
Fixpoint schedule_every (fuel : nat) (start_ps interval_ps end_ps : Z)
    (method_name : string) (events : list (Z * string)) : option (list (Z * string)) :=
  if start_ps <=? end_ps then
    match fuel with
    | O => None
    | Datatypes.S fuel' =>
        schedule_every fuel' (start_ps + interval_ps) interval_ps end_ps method_name
          (schedule_at start_ps method_name events)
    end
  else Some events.

(** [k] consume events in a row, with no key delivered in between. *)
Fixpoint consume_times (k : nat) (w : World) : result World :=
  match k with
  | O => ret w
  | Datatypes.S k' => w' ← consume w; consume_times k' w'
  end.

End OneLink.

(** ** tokyo_qkd_simulation.py *)
Module Tokyo.

Definition DETECTOR_EFFICIENCY : Q := 8 # 10.
Definition DARK_COUNT_RATE : Q := 100.
Definition TIME_RESOLUTION : Q := 100.
Definition MEAN_PHOTON_NUM : Q := 1 # 10.
Definition ATTENUATION : Q := 2 # 10000.
Definition LIGHT_SPEED : Q := 200000000.

Definition LINKS : list (string * string * Z) :=
  [ ("Koganei_A", "Koganei_B", 7000);
    ("Koganei_B", "Otemachi", 13000);
    ("Otemachi", "Hakusan", 6000);
    ("Hakusan", "Hongo", 4200) ].

Definition ALL_FAULT_TYPES : list string :=
  ["normal"; "qber"; "degrade"; "node_fail"; "blinding"; "trojan"].

Definition FAULT_LABELS : gmap string Z :=
  list_to_map
    [ ("normal", 0); ("qber", 1); ("degrade", 2);
      ("node_fail", 3); ("blinding", 4); ("trojan", 5) ].

(** [int(x)]: truncation towards zero. *)
Definition py_int (x : Q) : Z :=
  if Qle_bool 0 x then Qfloor x else Qceiling x.

Definition classical_delay (distance_m : Z) : Z :=
  let prop_ps := py_int ((inject_Z distance_m / LIGHT_SPEED) * 1000000000000)%Q in
  prop_ps + 8000.

(** *** The engine's objects, as far as the harness touches them

    Objects are held in stores keyed by their names; a reference to a
    node or to a protocol is its name.  Channels are immutable once built
    and are stored by value. *)

Module Detector.
Record t : Type := mk {
  efficiency : Q;
  dark_count_rate : Q;
  time_resolution : option Q
}.
End Detector.

Inductive Component : Type :=
| LightSource (mean_photon_num : Q)
| QSDetector (detectors : list Detector.t).

Module QuantumChannel.
Record t : Type := mk {
  name : string;
  attenuation : Q;
  distance : Z;
  sender : option string;
  receiver : option string
}.
End QuantumChannel.

Module ClassicalChannel.
Record t : Type := mk {
  name : string;
  distance : Z;
  delay : Z;
  sender : option string;
  receiver : option string
}.
End ClassicalChannel.

(** A key-exchange protocol object; [phase_error_rate] and [has_stop]
    stand for the attributes the fault callbacks probe with [hasattr]. *)
Module BB84.
Record t : Type := mk {
  name : string;
  owner : string;
  lightsource : string;
  qsdetector : string;
  error_rates : list Q;
  throughputs : list Q;
  key_bits : option (list Z);
  another : option string;
  phase_error_rate : option Q;
  has_stop : bool
}.
End BB84.

(** A node; the last four fields are the attributes the fault callbacks
    add, [None] while the attribute does not exist. *)
Module Node.
Record t : Type := mk {
  name : string;
  components : gmap string Component;
  cchannels : gmap string ClassicalChannel.t;
  qchannels : gmap string QuantumChannel.t;
  protocol_stack : list (option string);
  protocols : list string;
  is_offline : option bool;
  _dark_count_rate : option Q;
  _detector_efficiency : option Q;
  _back_reflection_power : option Q
}.
End Node.

Definition set_components (c : gmap string Component) (n : Node.t) : Node.t :=
  Node.mk (Node.name n) c (Node.cchannels n) (Node.qchannels n)
    (Node.protocol_stack n) (Node.protocols n) (Node.is_offline n)
    (Node._dark_count_rate n) (Node._detector_efficiency n)
    (Node._back_reflection_power n).

Definition set_cchannel (peer : string) (cc : ClassicalChannel.t) (n : Node.t) : Node.t :=
  Node.mk (Node.name n) (Node.components n) (<[peer := cc]> (Node.cchannels n))
    (Node.qchannels n) (Node.protocol_stack n) (Node.protocols n)
    (Node.is_offline n) (Node._dark_count_rate n) (Node._detector_efficiency n)
    (Node._back_reflection_power n).

Definition set_qchannel (peer : string) (qc : QuantumChannel.t) (n : Node.t) : Node.t :=
  Node.mk (Node.name n) (Node.components n) (Node.cchannels n)
    (<[peer := qc]> (Node.qchannels n)) (Node.protocol_stack n) (Node.protocols n)
    (Node.is_offline n) (Node._dark_count_rate n) (Node._detector_efficiency n)
    (Node._back_reflection_power n).

Definition set_protocol_stack (ps : list (option string)) (n : Node.t) : Node.t :=
  Node.mk (Node.name n) (Node.components n) (Node.cchannels n) (Node.qchannels n)
    ps (Node.protocols n) (Node.is_offline n) (Node._dark_count_rate n)
    (Node._detector_efficiency n) (Node._back_reflection_power n).

Definition set_is_offline (b : bool) (n : Node.t) : Node.t :=
  Node.mk (Node.name n) (Node.components n) (Node.cchannels n) (Node.qchannels n)
    (Node.protocol_stack n) (Node.protocols n) (Some b) (Node._dark_count_rate n)
    (Node._detector_efficiency n) (Node._back_reflection_power n).

Definition set_blinding_cache (dcr eff : Q) (n : Node.t) : Node.t :=
  Node.mk (Node.name n) (Node.components n) (Node.cchannels n) (Node.qchannels n)
    (Node.protocol_stack n) (Node.protocols n) (Node.is_offline n) (Some dcr)
    (Some eff) (Node._back_reflection_power n).

Definition set_back_reflection_power (p : Q) (n : Node.t) : Node.t :=
  Node.mk (Node.name n) (Node.components n) (Node.cchannels n) (Node.qchannels n)
    (Node.protocol_stack n) (Node.protocols n) (Node.is_offline n)
    (Node._dark_count_rate n) (Node._detector_efficiency n) (Some p).

(** The engine's [QKDNode(name, tl)]: a light source and a two-detector
    polarization array under the keys ["<name>.lightsource"] and
    ["<name>.qsdetector"], empty channel registries, a protocol stack of
    fixed slots, and none of the attributes the fault callbacks add.  The
    component parameters are the engine's defaults; [build_network]
    overwrites the ones it cares about. *)
Definition QKDNode (name : string) : Node.t :=
  Node.mk name
    (<[name +:+ ".lightsource" := LightSource (1 # 10)]>
       (<[name +:+ ".qsdetector" :=
            QSDetector [Detector.mk (9 # 10) 0 (Some 150%Q); Detector.mk (9 # 10) 0 (Some 150%Q)]]> ∅))
    ∅ ∅ [None; None; None; None; None] [] None None None None.

(** [qc.set_ends(sender, receiver_name)].  The engine also files the
    channel in the sender's registry; every call in this program is
    followed by an explicit assignment of the same channel under the
    receiver's name, which is what the model keeps. *)
Definition qc_set_ends (s r : string) (qc : QuantumChannel.t) : QuantumChannel.t :=
  QuantumChannel.mk (QuantumChannel.name qc) (QuantumChannel.attenuation qc)
    (QuantumChannel.distance qc) (Some s) (Some r).

Definition cc_set_ends (s r : string) (cc : ClassicalChannel.t) : ClassicalChannel.t :=
  ClassicalChannel.mk (ClassicalChannel.name cc) (ClassicalChannel.distance cc)
    (ClassicalChannel.delay cc) (Some s) (Some r).

(** *** build_network *)

(** The detector loop of lines 169-173. *)
Definition init_detector (det : Detector.t) : Detector.t :=
  Detector.mk DETECTOR_EFFICIENCY DARK_COUNT_RATE
    (match Detector.time_resolution det with
     | Some _ => Some TIME_RESOLUTION
     | None => None
     end).

(** The body of the node loop: one initialised node. *)
Definition make_node (name : string) : result Node.t :=
  let node := QKDNode name in
  ls ← getitem (Node.components node) (name +:+ ".lightsource");
  let comps1 :=
    <[name +:+ ".lightsource" :=
        match ls with
        | LightSource _ => LightSource MEAN_PHOTON_NUM
        | c => c
        end]> (Node.components node) in
  qsd ← getitem comps1 (name +:+ ".qsdetector");
  match qsd with
  | QSDetector dets =>
      ret (set_components
             (<[name +:+ ".qsdetector" := QSDetector (List.map init_detector dets)]> comps1)
             node)
  | LightSource _ => raise AttributeError
  end.

Definition NODE_NAMES : list string :=
  ["Koganei_A"; "Koganei_B"; "Otemachi"; "Hakusan"; "Hongo"].

(** An entry of [link_pairs]: [(n1, n2, link_name, qc)]. *)
Record LinkPair : Type := mkLinkPair {
  n1 : string;
  n2 : string;
  link_name : string;
  qc : QuantumChannel.t
}.

(** [nodes[k]] updated in place through the reference [nodes[k]]. *)
Definition update_node (k : string) (f : Node.t -> Node.t)
    (nodes : gmap string Node.t) : result (gmap string Node.t) :=
  n ← getitem nodes k;
  ret (<[k := f n]> nodes).

(** The body of the link loop (lines 178-210). *)
Definition add_link (fault_type : string) (l : string * string * Z)
    (st : gmap string Node.t * list LinkPair) : result (gmap string Node.t * list LinkPair) :=
  let '(n1_name, n2_name, dist) := l in
  let '(nodes, link_pairs) := st in
  _ ← getitem nodes n1_name;
  _ ← getitem nodes n2_name;
  let lname := n1_name +:+ "_" +:+ n2_name in
  let attn :=
    if String.eqb fault_type "degrade" && String.eqb n1_name "Koganei_A"
    then (ATTENUATION * 3)%Q else ATTENUATION in
  let qc := qc_set_ends n1_name n2_name
              (QuantumChannel.mk ("qc_" +:+ lname) attn dist None None) in
  let delay := classical_delay dist in
  let cc_fwd := cc_set_ends n1_name n2_name
                  (ClassicalChannel.mk ("cc_" +:+ lname +:+ "_fwd") dist delay None None) in
  let cc_bwd := cc_set_ends n2_name n1_name
                  (ClassicalChannel.mk ("cc_" +:+ lname +:+ "_bwd") dist delay None None) in
  nodes ← update_node n1_name (set_cchannel n2_name cc_fwd) nodes;
  nodes ← update_node n2_name (set_cchannel n1_name cc_bwd) nodes;
  nodes ← update_node n1_name (set_qchannel n2_name qc) nodes;
  ret (nodes, (link_pairs ++ [mkLinkPair n1_name n2_name lname qc])%list).

(** The alternative classical route Koganei_A <-> Otemachi (lines 212-219). *)
Definition add_alternative_route (nodes : gmap string Node.t) : result (gmap string Node.t) :=
  let d := 20000 in
  let cc_ka_ote := cc_set_ends "Koganei_A" "Otemachi"
                     (ClassicalChannel.mk "cc_KogA_Ote_fwd" d (classical_delay d) None None) in
  let cc_ote_ka := cc_set_ends "Otemachi" "Koganei_A"
                     (ClassicalChannel.mk "cc_KogA_Ote_bwd" d (classical_delay d) None None) in
  nodes ← update_node "Koganei_A" (set_cchannel "Otemachi" cc_ka_ote) nodes;
  update_node "Otemachi" (set_cchannel "Koganei_A" cc_ote_ka) nodes.

Definition build_network (fault_type : string)
  : result (gmap string Node.t * list LinkPair) :=
  nodes ← for_each (fun name nodes => node ← make_node name; ret (<[name := node]> nodes))
             NODE_NAMES (∅ : gmap string Node.t);
  st ← for_each (add_link fault_type) LINKS (nodes, []);
  nodes ← add_alternative_route (fst st);
  ret (nodes, snd st).

(** *** The running simulation: nodes and protocol objects *)

Record World : Type := mkWorld {
  nodes : gmap string Node.t;
  protos : gmap string BB84.t
}.

Definition set_error_rates (l : list Q) (p : BB84.t) : BB84.t :=
  BB84.mk (BB84.name p) (BB84.owner p) (BB84.lightsource p) (BB84.qsdetector p)
    l (BB84.throughputs p) (BB84.key_bits p) (BB84.another p)
    (BB84.phase_error_rate p) (BB84.has_stop p).

Definition set_phase_error_rate (q : Q) (p : BB84.t) : BB84.t :=
  BB84.mk (BB84.name p) (BB84.owner p) (BB84.lightsource p) (BB84.qsdetector p)
    (BB84.error_rates p) (BB84.throughputs p) (BB84.key_bits p) (BB84.another p)
    (Some q) (BB84.has_stop p).

(** [p.error_rates.append(q)] through the reference [ref]. *)
Definition append_error_rate (ref : string) (q : Q)
    (ps : gmap string BB84.t) : result (gmap string BB84.t) :=
  p ← getitem ps ref;
  ret (<[ref := set_error_rates (BB84.error_rates p ++ [q])%list p]> ps).

(** *** inject_fault: the four callbacks *)

(** [_attack], closed over [target]. *)
Definition _attack (target : string) (w : World) : result World :=
  n ← getitem (nodes w) target;
  match Node.protocol_stack n with
  | [] => raise IndexError
  | None :: _ => ret w
  | Some bb84_otemachi :: _ =>
      p ← getitem (protos w) bb84_otemachi;
      ps ← append_error_rate bb84_otemachi (25 # 100) (protos w);
      match BB84.another p with
      | None => ret (mkWorld (nodes w) ps)
      | Some other =>
          ps' ← append_error_rate other (25 # 100) ps;
          ret (mkWorld (nodes w) ps')
      end
  end.

Definition saturate (det : Detector.t) : Detector.t :=
  Detector.mk 1 5000000 (Detector.time_resolution det).

(** [_blind] on the node object it closes over. *)
Definition blind_node (target : Node.t) : result Node.t :=
  let qsdet_key := Node.name target +:+ ".qsdetector" in
  comps ←
    match Node.components target !! qsdet_key with
    | Some (QSDetector dets) =>
        ret (<[qsdet_key := QSDetector (List.map saturate dets)]> (Node.components target))
    | Some (LightSource _) => raise AttributeError
    | None => ret (Node.components target)
    end;
  ret (set_blinding_cache 5000000 1 (set_components comps target)).

Definition _blind (target : string) (w : World) : result World :=
  n ← getitem (nodes w) target;
  n' ← blind_node n;
  ret (mkWorld (<[target := n']> (nodes w)) (protos w)).

(** The loop [for p in target.protocols] of [_trojan] and [_fail]. *)
Definition for_protocols (f : BB84.t -> BB84.t) (refs : list string)
    (ps : gmap string BB84.t) : result (gmap string BB84.t) :=
  for_each (fun ref ps => p ← getitem ps ref; ret (<[ref := f p]> ps)) refs ps.

Definition _trojan (target : string) (w : World) : result World :=
  n ← getitem (nodes w) target;
  let n' := set_back_reflection_power (1 # 1000) n in
  ps ← for_protocols
         (fun p => match BB84.phase_error_rate p with
                   | Some _ => set_phase_error_rate (2 # 100) p
                   | None => p
                   end)
         (Node.protocols n') (protos w);
  ret (mkWorld (<[target := n']> (nodes w)) ps).

Section Fail.
(** The engine's [p.stop()], for the protocols that have one. *)
Variable stop : BB84.t -> BB84.t.

Definition _fail (target : string) (w : World) : result World :=
  n ← getitem (nodes w) target;
  let n' := set_is_offline true n in
  ps ← for_protocols (fun p => if BB84.has_stop p then stop p else p)
         (Node.protocols n') (protos w);
  ret (mkWorld (<[target := n']> (nodes w)) ps).
End Fail.

(** What [schedule_event] registers: the callback [fn], installed on
    [node] as attribute [fn_name], to run at [time_ps]. *)
Inductive Callback : Type :=
| CbAttack
| CbBlind
| CbTrojan
| CbFail.

Record Event : Type := mkEvent {
  time_ps : Z;
  target : string;
  fn_name : string;
  fn : Callback
}.

(** [inject_fault]: the events it schedules.  [nodes[...]] is evaluated
    when the fault is scheduled. *)
Definition inject_fault (nodes : gmap string Node.t) (fault_type : string)
    (start_ps : Z) : result (list Event) :=
  if String.eqb fault_type "qber" then
    _ ← getitem nodes "Otemachi";
    ret [mkEvent start_ps "Otemachi" "_fault_qber" CbAttack]
  else if String.eqb fault_type "blinding" then
    _ ← getitem nodes "Otemachi";
    ret [mkEvent start_ps "Otemachi" "_fault_blind" CbBlind]
  else if String.eqb fault_type "trojan" then
    _ ← getitem nodes "Koganei_B";
    ret [mkEvent start_ps "Koganei_B" "_fault_trojan" CbTrojan]
  else if String.eqb fault_type "node_fail" then
    _ ← getitem nodes "Hakusan";
    ret [mkEvent start_ps "Hakusan" "_fault_node" CbFail]
  else ret [].

(** *** extract_metrics *)

Module Metrics.
Record t : Type := mk {
  qber : Q;
  key_rate_sifted : Q;
  key_rate_final : Q;
  detection_count : Z;
  error_count : Z;
  dark_count_rate : Q;
  detector_efficiency : Q;
  back_reflection_power : Q;
  phase_error_rate : Q
}.
End Metrics.

(** [min(a, b)] and [max(a, b)] of Python: the first argument unless the
    second is strictly better. *)
Definition py_min (a b : Q) : Q := if Qle_bool a b then a else b.
Definition py_max (a b : Q) : Q := if Qle_bool b a then a else b.

(** [float(l[-1]) if l else 0.0] *)
Definition last_or_zero (l : list Q) : Q := List.last l 0%Q.

(** [len(p.key_bits) if p and p.key_bits else 0] *)
Definition key_bits_len (p : option BB84.t) : Z :=
  match p with
  | Some b =>
      match BB84.key_bits b with
      | Some kb => Z.of_nat (List.length kb)
      | None => 0
      end
  | None => 0
  end.

Definition KEY_LENGTH : Z := 256.

Definition extract_metrics (node : Node.t) (link_name : string)
    (qc : QuantumChannel.t) (bb84_alice bb84_bob : option BB84.t)
  : result Metrics.t :=
  let bb84 := bb84_alice in
  let error_rates := match bb84 with Some b => BB84.error_rates b | None => [] end in
  let throughputs := match bb84 with Some b => BB84.throughputs b | None => [] end in
  let qber := last_or_zero error_rates in
  let key_rate_final := last_or_zero throughputs in
  let sifted_count := key_bits_len bb84 in
  let sifted_count_b := key_bits_len bb84_bob in
  let key_rate_sifted := inject_Z (Z.max sifted_count sifted_count_b) in
  let detection_count :=
    if Qle_bool key_rate_sifted 0 then KEY_LENGTH else py_int key_rate_sifted in
  let error_count := py_round (qber * inject_Z detection_count)%Q in
  let phase_error_rate := 0%Q in
  let qsdet_key := Node.name node +:+ ".qsdetector" in
  det ←
    match Node.components node !! qsdet_key with
    | Some (QSDetector (d :: _)) =>
        ret (Detector.dark_count_rate d, Detector.efficiency d)
    | Some (QSDetector []) => ret (DARK_COUNT_RATE, DETECTOR_EFFICIENCY)
    | Some (LightSource _) => raise AttributeError
    | None => ret (DARK_COUNT_RATE, DETECTOR_EFFICIENCY)
    end;
  let dark_count_rate := default (fst det) (Node._dark_count_rate node) in
  let detector_efficiency := default (snd det) (Node._detector_efficiency node) in
  let back_reflection_power := default 0%Q (Node._back_reflection_power node) in
  ret (Metrics.mk (py_max 0 (py_min 1 qber)) key_rate_sifted key_rate_final
         detection_count error_count dark_count_rate detector_efficiency
         back_reflection_power phase_error_rate).

(** *** QKDMetricsCollector *)

Module Row.
Record t : Type := mk {
  timestamp_ps : Z;
  link : string;
  node : string;
  qber : Q;
  key_rate_sifted : Q;
  key_rate_final : Q;
  detection_count : Z;
  error_count : Z;
  dark_count_rate : Q;
  detector_efficiency : Q;
  back_reflection_power : Q;
  phase_error_rate : Q;
  label : string;
  fault_id : Z
}.
End Row.

(** [collector.record(...)]: one more row at the end of [records]. *)
Definition record (timestamp_ps : Z) (link node : string) (m : Metrics.t)
    (label : string) (records : list Row.t) : list Row.t :=
  (records ++
   [Row.mk timestamp_ps link node
      (py_round_nd 6 (Metrics.qber m))
      (py_round_nd 2 (Metrics.key_rate_sifted m))
      (py_round_nd 2 (Metrics.key_rate_final m))
      (Metrics.detection_count m)
      (Metrics.error_count m)
      (py_round_nd 2 (Metrics.dark_count_rate m))
      (py_round_nd 4 (Metrics.detector_efficiency m))
      (py_round_nd 9 (Metrics.back_reflection_power m))
      (py_round_nd 6 (Metrics.phase_error_rate m))
      label
      (default 0 (FAULT_LABELS !! label))])%list.

(** *** run_simulation: labels, sampler, output path *)

Definition DURATION_PS : Z := 1000000000000.
Definition FAULT_START_PS : Z := 500000000000.
Definition SAMPLE_INTERVAL : Z := 10000000000.

Definition label_fn (fault_type : string) (t_ps : Z) : string :=
  if FAULT_START_PS <=? t_ps then fault_type else "normal".

Record MetricsSampler : Type := mkMetricsSampler {
  interval : Z;
  duration : Z;
  link_pairs : list LinkPair;
  bb84_map : gmap string (string * string);
  sampler_label_fn : Z -> string
}.

(** [_schedule_next(t)]: the event it hands to the timeline, if any. *)
Definition _schedule_next (s : MetricsSampler) (t : Z) : option Z :=
  if t <=? duration s then Some t else None.

(** [sampler.init()] *)
Definition init (s : MetricsSampler) : option Z :=
  _schedule_next s (interval s).

(** The body of the loop of [sample]: one link, one row. *)
Definition sample_link (s : MetricsSampler) (w : World) (t : Z) (lp : LinkPair)
    (records : list Row.t) : result (list Row.t) :=
  '(alice, bob) ← getitem (bb84_map s) (link_name lp);
  node ← getitem (nodes w) (n1 lp);
  bb84_alice ← getitem (protos w) alice;
  bb84_bob ← getitem (protos w) bob;
  m ← extract_metrics node (link_name lp) (qc lp) (Some bb84_alice) (Some bb84_bob);
  ret (record t (link_name lp) (Node.name node) m (sampler_label_fn s t) records).

(** [sample(t)] in the world [w] it finds: the rows recorded and the
    next event scheduled. *)
Definition sample (s : MetricsSampler) (w : World) (t : Z) (records : list Row.t)
  : result (list Row.t * option Z) :=
  records' ← for_each (sample_link s w t) (link_pairs s) records;
  ret (records', _schedule_next s (t + interval s)).

Section Timeline.
(** The state of the simulated network when the timeline dispatches the
    sampler's event scheduled at a given time; the engine, the protocols
    and the fault callback decide it. *)
Variable env : Z -> World.
Variable s : MetricsSampler.

(** The chain of sampler events: [n] dispatches by the timeline, starting
    with the pending event [next]. *)
Fixpoint dispatch (n : nat) (next : option Z) (records : list Row.t)
  : result (list Row.t) :=
  match n, next with
  | Datatypes.S n', Some t =>
      '(records', next') ← sample s (env t) t records;
      dispatch n' next' records'
  | _, _ => ret records
  end.

End Timeline.

(** The sampler [run_simulation] creates. *)
Definition make_sampler (fault_type : string) (lps : list LinkPair)
    (bmap : gmap string (string * string)) : MetricsSampler :=
  mkMetricsSampler SAMPLE_INTERVAL DURATION_PS lps bmap (label_fn fault_type).

(** The path the raw CSV is saved to (lines 524-526). *)
Definition output_path (fault_type : string) (output_csv : option string) : string :=
  match output_csv with
  | None => "dataset_tokyo_qkd_" +:+ fault_type +:+ ".csv"
  | Some path => path
  end.

(** *** run_simulation: wiring the protocols (lines 428-454) *)

(** The engine's [BB84(owner, name, lightsource, qsdetector)]: empty
    histories, no key in progress, no peer yet. *)
Definition new_BB84 (owner name ls qsd : string) : BB84.t :=
  BB84.mk name owner ls qsd [] [] None None None false.

Definition set_another (peer : string) (p : BB84.t) : BB84.t :=
  BB84.mk (BB84.name p) (BB84.owner p) (BB84.lightsource p) (BB84.qsdetector p)
    (BB84.error_rates p) (BB84.throughputs p) (BB84.key_bits p) (Some peer)
    (BB84.phase_error_rate p) (BB84.has_stop p).

(** [n.protocol_stack[0] = ref] *)
Definition set_slot0 (ref : string) (n : Node.t) : result Node.t :=
  match Node.protocol_stack n with
  | [] => raise IndexError
  | _ :: rest => ret (set_protocol_stack (Some ref :: rest) n)
  end.

(** The body of the loop over [link_pairs]: two protocol objects, slot 0
    of both nodes, the pairing, the entry of [bb84_map]. *)
Definition attach_protocols (lp : LinkPair)
    (st : World * gmap string (string * string))
  : result (World * gmap string (string * string)) :=
  let '(w, bmap) := st in
  let a := "bb84_" +:+ link_name lp +:+ "_alice" in
  let b := "bb84_" +:+ link_name lp +:+ "_bob" in
  let bb84_alice :=
    new_BB84 (n1 lp) a (n1 lp +:+ ".lightsource") (n1 lp +:+ ".qsdetector") in
  let bb84_bob :=
    new_BB84 (n2 lp) b (n2 lp +:+ ".lightsource") (n2 lp +:+ ".qsdetector") in
  node1 ← getitem (nodes w) (n1 lp);
  node1 ← set_slot0 a node1;
  let ns := <[n1 lp := node1]> (nodes w) in
  node2 ← getitem ns (n2 lp);
  node2 ← set_slot0 b node2;
  let ns := <[n2 lp := node2]> ns in
  let ps := <[b := set_another a bb84_bob]> (<[a := set_another b bb84_alice]> (protos w)) in
  ret (mkWorld ns ps, <[link_name lp := (a, b)]> bmap).

(** Everything [run_simulation] builds before [tl.run()]: the world, the
    sampler and the fault events. *)
Definition setup (fault_type : string) : result (World * MetricsSampler * list Event) :=
  '(nodes, link_pairs) ← build_network fault_type;
  '(w, bmap) ← for_each attach_protocols link_pairs (mkWorld nodes ∅, ∅);
  events ←
    (if String.eqb fault_type "normal" then ret []
     else inject_fault (Tokyo.nodes w) fault_type FAULT_START_PS);
  ret (w, make_sampler fault_type link_pairs bmap, events).

(** *** States of a node after the blinding callback

    [blinded n']: the cache written by [_blind] is in place on [n'], and
    the entry under the node's detector key, if any, is still a detector
    array.  No line of the program deletes or reassigns the two cache
    attributes, so every state of the target after [_blind] is of this
    kind, whatever the engine does to the rest of the node. *)
Definition blinded (n' : Node.t) : Prop :=
  Node._dark_count_rate n' = Some 5000000%Q
  ∧ Node._detector_efficiency n' = Some 1%Q
  ∧ ∀ m, Node.components n' !! (Node.name n' +:+ ".qsdetector") ≠ Some (LightSource m).

End Tokyo.

(** ** Notions the statements below use *)

Import Consolidator.

(** A row carries the label [n]. *)
Definition has_label (n : string) (r : Labelled) : bool :=
  String.eqb (fault_name r) n.

(** [load_and_label] on a directory entry. *)
Definition load (c : string * list Sample) : list Labelled :=
  load_and_label (fst c) (snd c).

(** The data rows of all files of a directory. *)
Fixpoint total_rows (d : Dir) : nat :=
  match d with
  | [] => O
  | c :: d' => (List.length (snd c) + total_rows d')%nat
  end.

(** The rows that [load] labels [n], per file. *)
Fixpoint labelled_rows (n : string) (d : Dir) : nat :=
  match d with
  | [] => O
  | c :: d' => (List.length (List.filter (has_label n) (load c)) + labelled_rows n d')%nat
  end.

(** The error-rate history of a protocol object, by reference. *)
Definition history_length (ref : string) (ps : gmap string Tokyo.BB84.t) : nat :=
  match ps !! ref with
  | Some p => List.length (Tokyo.BB84.error_rates p)
  | None => O
  end.

(** The rows one call of [sample] adds: all at time [t], all labelled
    by the labelling function at [t]. *)
Definition batch_of (s : Tokyo.MetricsSampler) (t : Z) (rs rs' : list Tokyo.Row.t) : Prop :=
  exists new,
    rs' = (rs ++ new)%list
    /\ Forall (fun r => Tokyo.Row.timestamp_ps r = t
                        /\ Tokyo.Row.label r = Tokyo.sampler_label_fn s t) new.

#[global] Instance Q_eq_dec : EqDecision Q.
Proof. solve_decision. Defined.

#[global] Instance QuantumChannel_eq_dec : EqDecision Tokyo.QuantumChannel.t.
Proof. solve_decision. Defined.

(** The registrations of one link, as a check that evaluates. *)
Definition link_registered (nodes : gmap string Tokyo.Node.t) (lp : Tokyo.LinkPair) : bool :=
  match nodes !! Tokyo.n1 lp, nodes !! Tokyo.n2 lp with
  | Some node1, Some node2 =>
      bool_decide (Tokyo.Node.qchannels node1 !! Tokyo.n2 lp = Some (Tokyo.qc lp))
      && bool_decide (Tokyo.QuantumChannel.sender (Tokyo.qc lp) = Some (Tokyo.n1 lp))
      && bool_decide (Tokyo.QuantumChannel.receiver (Tokyo.qc lp) = Some (Tokyo.n2 lp))
      && match Tokyo.Node.cchannels node1 !! Tokyo.n2 lp with
         | Some cc_fwd =>
             bool_decide (Tokyo.ClassicalChannel.sender cc_fwd = Some (Tokyo.n1 lp))
             && bool_decide (Tokyo.ClassicalChannel.receiver cc_fwd = Some (Tokyo.n2 lp))
         | None => false
         end
      && match Tokyo.Node.cchannels node2 !! Tokyo.n1 lp with
         | Some cc_bwd =>
             bool_decide (Tokyo.ClassicalChannel.sender cc_bwd = Some (Tokyo.n2 lp))
             && bool_decide (Tokyo.ClassicalChannel.receiver cc_bwd = Some (Tokyo.n1 lp))
         | None => false
         end
      && bool_decide (Tokyo.Node.qchannels node2 !! Tokyo.n1 lp = None)
  | _, _ => false
  end.

(** What [build_network] returns, checked by evaluation for the two
    values its argument can take in effect. *)
Definition network_checked (fault_type : string) : bool :=
  match Tokyo.build_network fault_type with
  | inr (nodes, lps) =>
      bool_decide (List.map (fun lp => (Tokyo.n1 lp, Tokyo.n2 lp,
                                        Tokyo.QuantumChannel.distance (Tokyo.qc lp))) lps
                   = Tokyo.LINKS)
      && bool_decide (map_fold (fun _ n acc => (size (Tokyo.Node.qchannels n) + acc)%nat) O nodes
                      = List.length Tokyo.LINKS)
      && forallb (link_registered nodes) lps
  | inl _ => false
  end.

#[global] Instance Detector_eq_dec : EqDecision Tokyo.Detector.t.
Proof. solve_decision. Defined.

#[global] Instance Component_eq_dec : EqDecision Tokyo.Component.
Proof. solve_decision. Defined.

(** A node in its baseline state: named as filed, first detector at the
    baseline parameters, no fault attribute. *)
Definition node_baseline (kv : string * Tokyo.Node.t) : bool :=
  let '(k, node) := kv in
  bool_decide (Tokyo.Node.name node = k)
  && match Tokyo.Node.components node !! (Tokyo.Node.name node +:+ ".qsdetector") with
     | Some (Tokyo.QSDetector dets) =>
         negb (Nat.eqb (List.length dets) 0)
         && forallb (fun d =>
              bool_decide (Tokyo.Detector.dark_count_rate d = Tokyo.DARK_COUNT_RATE)
              && bool_decide (Tokyo.Detector.efficiency d = Tokyo.DETECTOR_EFFICIENCY)) dets
     | _ => false
     end
  && bool_decide (Tokyo.Node.components node !! (Tokyo.Node.name node +:+ ".lightsource")
                  = Some (Tokyo.LightSource Tokyo.MEAN_PHOTON_NUM))
  && bool_decide (Tokyo.Node._dark_count_rate node = None)
  && bool_decide (Tokyo.Node._detector_efficiency node = None)
  && bool_decide (Tokyo.Node._back_reflection_power node = None)
  && bool_decide (Tokyo.Node.is_offline node = None).

Definition link_attenuation (degrade : bool) (lp : Tokyo.LinkPair) : bool :=
  bool_decide (Tokyo.QuantumChannel.attenuation (Tokyo.qc lp)
               = if degrade && String.eqb (Tokyo.n1 lp) "Koganei_A"
                 then (Tokyo.ATTENUATION * 3)%Q else Tokyo.ATTENUATION).

Definition baseline_checked (degrade : bool) : bool :=
  match Tokyo.build_network (if degrade then "degrade" else "normal") with
  | inr (nodes, lps) =>
      forallb node_baseline (map_to_list nodes)
      && bool_decide (dom nodes = list_to_set Tokyo.NODE_NAMES)
      && forallb (link_attenuation degrade) lps
  | inl _ => false
  end.

(** The metrics that no detector parameter enters. *)
Definition key_metrics (m : Tokyo.Metrics.t) : Q * Q * Q * Z * Z * Q :=
  (Tokyo.Metrics.qber m, Tokyo.Metrics.key_rate_sifted m, Tokyo.Metrics.key_rate_final m,
   Tokyo.Metrics.detection_count m, Tokyo.Metrics.error_count m,
   Tokyo.Metrics.phase_error_rate m).

(** Two states of a protocol object with the same histories and key in
    progress: all the extractor reads of it. *)
Definition same_history (p p1 : Tokyo.BB84.t) : Prop :=
  Tokyo.BB84.error_rates p1 = Tokyo.BB84.error_rates p
  /\ Tokyo.BB84.throughputs p1 = Tokyo.BB84.throughputs p
  /\ Tokyo.BB84.key_bits p1 = Tokyo.BB84.key_bits p
  /\ Tokyo.BB84.another p1 = Tokyo.BB84.another p.


(** The number of iterations of the loop of [schedule_every]. *)
Definition periods (start_ps interval_ps end_ps : Z) : nat :=
  if start_ps <=? end_ps then Z.to_nat ((end_ps - start_ps) / interval_ps + 1) else O.

(** The completed-key buffer the harness sees ([len(valid_keys)] with the
    empty list for a missing attribute). *)
Definition buffer (w : OneLink.World) : list Z :=
  match OneLink.cascade w with
  | Some c => default [] (OneLink.valid_keys c)
  | None => []
  end.

(** What the wiring of a run must satisfy, as a check that evaluates:
    four sampled links; every scheduled fault fires at the trigger time
    on a node that exists and is the transmitting end of a sampled link;
    the protocol in slot 0 of every transmitting node is the Alice the
    sampler reads for a link of that node. *)
Definition wiring_ok (w : Tokyo.World) (s : Tokyo.MetricsSampler) (ev : list Tokyo.Event) : bool :=
  Nat.eqb (List.length (Tokyo.link_pairs s)) 4
  && Nat.leb (List.length ev) 1
  && forallb (fun e =>
       Z.eqb (Tokyo.time_ps e) Tokyo.FAULT_START_PS
       && bool_decide (is_Some (Tokyo.nodes w !! Tokyo.target e))
       && existsb (fun lp => String.eqb (Tokyo.n1 lp) (Tokyo.target e)) (Tokyo.link_pairs s)) ev
  && forallb (fun lp =>
       match Tokyo.bb84_map s !! Tokyo.link_name lp, Tokyo.nodes w !! Tokyo.n1 lp with
       | Some (alice, bob), Some node =>
           bool_decide (is_Some (Tokyo.protos w !! alice))
           && bool_decide (is_Some (Tokyo.protos w !! bob))
           && bool_decide (Tokyo.BB84.another <$> Tokyo.protos w !! alice = Some (Some bob))
           && bool_decide (hd_error (Tokyo.Node.protocol_stack node) = Some (Some alice))
       | _, _ => false
       end) (Tokyo.link_pairs s).

Definition setup_checked (fault_type : string) (scheduled : bool) : bool :=
  match Tokyo.setup fault_type with
  | inr (w, s, ev) =>
      wiring_ok w s ev && Bool.eqb (negb (Nat.eqb (List.length ev) 0)) scheduled
  | inl _ => false
  end.

(** * Properties *)

(** ** Lists, sorting, the error monad *)

Lemma insert_sorted_Permutation {A : Type} (leb : A -> A -> bool) (x : A) (l : list A) :
  Permutation (insert_sorted leb x l) (x :: l).
Proof.
  induction l as [|y l IH]; simpl; [reflexivity|].
  destruct (leb x y); [reflexivity|].
  rewrite IH. apply perm_swap.
Qed.

Lemma isort_Permutation {A : Type} (leb : A -> A -> bool) (l : list A) :
  Permutation (isort leb l) l.
Proof.
  induction l as [|x l IH]; simpl; [reflexivity|].
  rewrite insert_sorted_Permutation. by constructor.
Qed.

Lemma isort_length {A : Type} (leb : A -> A -> bool) (l : list A) :
  List.length (isort leb l) = List.length l.
Proof. apply Permutation_length, isort_Permutation. Qed.

Lemma filter_all_false {A : Type} (f : A -> bool) (l : list A) :
  (forall x, In x l -> f x = false) -> List.filter f l = [].
Proof.
  induction l as [|x l IH]; simpl; intros H; [reflexivity|].
  rewrite (H x) by auto. apply IH. intros y Hy. apply H. auto.
Qed.

Lemma filter_all_true {A : Type} (f : A -> bool) (l : list A) :
  (forall x, In x l -> f x = true) -> List.filter f l = l.
Proof.
  induction l as [|x l IH]; simpl; intros H; [reflexivity|].
  rewrite (H x) by auto. f_equal. apply IH. intros y Hy. apply H. auto.
Qed.

Lemma filter_filter_comm {A : Type} (f g : A -> bool) (l : list A) :
  List.filter f (List.filter g l) = List.filter g (List.filter f l).
Proof.
  induction l as [|x l IH]; simpl; [reflexivity|].
  destruct (f x) eqn:Hf, (g x) eqn:Hg; simpl; rewrite ?Hf, ?Hg, IH; reflexivity.
Qed.

(** ** The consolidator: which files are read *)

(** The names of the expected set, spelled out. *)
Lemma expected_names (name : string) :
  name ∈ EXPECTED_FILES <->
  In name ["dataset_normal.csv"; "dataset_qber.csv"; "dataset_degrade.csv";
           "dataset_node_fail.csv"; "dataset_blinding.csv"; "dataset_trojan.csv"].
Proof.
  unfold EXPECTED_FILES. rewrite elem_of_list_to_set, list_elem_of_In. reflexivity.
Qed.

Lemma expected_true (name : string) :
  expected name = true <-> name ∈ EXPECTED_FILES.
Proof. unfold expected. apply bool_decide_eq_true. Qed.

Lemma expected_false (name : string) :
  expected name = false <-> name ∉ EXPECTED_FILES.
Proof. unfold expected. apply bool_decide_eq_false. Qed.

(** Every expected name fits the pattern ["dataset_*.csv"]. *)
Lemma expected_glob_match (name : string) :
  expected name = true -> glob_match name = true.
Proof.
  rewrite expected_true, expected_names. simpl.
  intros H. repeat destruct H as [<-|H]; try reflexivity. destruct H.
Qed.

(** Keeping the expected files commutes with globbing, and the expected
    files are all the pass of the two filters keeps. *)
Lemma valid_csvs_filter (data_dir : Dir) :
  List.filter (fun c => expected (fst c)) (glob data_dir)
  = List.filter (fun c => expected (fst c)) data_dir.
Proof.
  unfold glob. induction data_dir as [|c l IH]; simpl; [reflexivity|].
  destruct (expected (fst c)) eqn:He.
  - rewrite (expected_glob_match _ He). simpl. rewrite He, IH. reflexivity.
  - destruct (glob_match (fst c)); simpl; rewrite ?He; apply IH.
Qed.

Lemma filter_idem {A : Type} (f : A -> bool) (l : list A) :
  List.filter f (List.filter f l) = List.filter f l.
Proof.
  apply filter_all_true. intros x Hx. by apply filter_In in Hx as [_ ?].
Qed.

(** The lines printed so far do not steer the loading loop. *)
Lemma load_frames_out (cs : Dir) (out : list Msg) (frames : list (list Labelled)) :
  load_frames cs out frames =
  match load_frames cs [] frames with
  | inl (e, o) => inl (e, o ++ out)%list
  | inr (o, fr) => inr ((o ++ out)%list, fr)
  end.
Proof.
  revert out frames. induction cs as [|[c content] cs IH]; intros out frames; simpl.
  - reflexivity.
  - destruct (iloc0 (load_and_label c content)) as [e|lbl]; [reflexivity|].
    rewrite IH. rewrite (IH [_]).
    destruct (load_frames cs [] _) as [[e o]|[o fr]]; rewrite <- app_assoc; reflexivity.
Qed.

(** What [main] writes and raises is decided by the valid files alone. *)
Lemma main_written_raised (d1 d2 : Dir) :
  List.filter (fun c => expected (fst c)) (glob d1)
  = List.filter (fun c => expected (fst c)) (glob d2) ->
  written (main d1) = written (main d2) /\ raised (main d1) = raised (main d2).
Proof.
  intros Hv. unfold main. rewrite <- Hv.
  destruct (List.filter (fun c => expected (fst c)) (glob d1)) as [|c cs]; [auto|].
  set (sorted := isort _ _).
  rewrite (load_frames_out sorted (_ :: rev _)).
  rewrite (load_frames_out sorted (_ :: rev match List.map fst (List.filter _ (glob d2)) with [] => [] | _ => _ end)).
  destruct (load_frames sorted [] []) as [[e o]|[o fr]]; simpl; auto.
Qed.

Lemma match_stem_Some (st : string) (labels : list (string * Z)) (fname : string) (fid : Z) :
  match_stem st labels = Some (fname, fid) ->
  In (fname, fid) labels /\ st = "dataset_" +:+ fname.
Proof.
  induction labels as [|[n i] rest IH]; simpl; [discriminate|].
  destruct (String.eqb st ("dataset_" +:+ n)) eqn:E.
  - intros [= <- <-]. apply String.eqb_eq in E. auto.
  - intros H. destruct (IH H). auto.
Qed.

Lemma load_and_label_rows (path : string) (df : list Sample) (r : Labelled) :
  In r (load_and_label path df) ->
  (In (fault_name r, fault_id (sample r)) FAULT_LABELS
   /\ stem path = "dataset_" +:+ fault_name r)
  \/ (match_stem (stem path) FAULT_LABELS = None
      /\ fault_name r = "normal" /\ fault_id (sample r) = 0).
Proof.
  unfold load_and_label, assign_label.
  destruct (match_stem (stem path) FAULT_LABELS) as [[fname fid]|] eqn:E;
    rewrite in_map_iff; intros (s & <- & _);
    cbn [fault_name sample fault_id set_fault_id].
  - left. by apply match_stem_Some.
  - right. auto.
Qed.

Lemma in_skipped (data_dir : Dir) (c : string * list Sample) :
  In c (glob data_dir) -> expected (fst c) = false ->
  exists names, In (MsgSkipped names) (stdout (main data_dir)) /\ In (fst c) names.
Proof.
  intros Hc He.
  set (skipped := List.map fst (List.filter (fun c => negb (expected (fst c))) (glob data_dir))).
  assert (Hin : In (fst c) skipped).
  { apply in_map, filter_In. split; [done|]. by rewrite He. }
  exists skipped. split; [|done].
  unfold main. fold skipped.
  destruct skipped as [|n ns]; [destruct Hin|].
  destruct (List.filter (fun c => expected (fst c)) (glob data_dir)) as [|v vs].
  - simpl. auto.
  - rewrite load_frames_out.
    destruct (load_frames _ [] []) as [[e o]|[o fr]]; simpl.
    + rewrite rev_app_distr. simpl. auto.
    + rewrite rev_app_distr. simpl. auto.
Qed.

(** The loading loop prints file lines only. *)
Lemma load_frames_lines (cs : Dir) (frames : list (list Labelled)) :
  match load_frames cs [] frames with
  | inl (_, o) | inr (o, _) => forall m, In m o -> exists c n l, m = MsgFile c n l
  end.
Proof.
  revert frames. induction cs as [|[c content] cs IH]; intros frames; simpl.
  - intros m [].
  - destruct (iloc0 (load_and_label c content)) as [e|lbl]; [intros m []|].
    rewrite load_frames_out. specialize (IH (frames ++ [load_and_label c content])%list).
    destruct (load_frames cs [] _) as [[e o]|[o fr]]; intros m Hm;
      apply in_app_or in Hm as [Hm|[<-|[]]]; eauto.
Qed.

(** The "ignored" line, when printed, lists the files that match the
    pattern without bearing an expected name, and nothing else. *)
Lemma skipped_line (data_dir : Dir) (names : list string) :
  In (MsgSkipped names) (stdout (main data_dir)) ->
  names = List.map fst (List.filter (fun c => negb (expected (fst c))) (glob data_dir))
  /\ names <> [].
Proof.
  unfold main.
  set (skipped := List.map fst (List.filter (fun c => negb (expected (fst c))) (glob data_dir))).
  assert (H0 : In (MsgSkipped names) match skipped with [] => [] | _ => [MsgSkipped skipped] end ->
               names = skipped /\ names <> []).
  { destruct skipped; [intros []|]. intros [[= <-]|[]]. split; [reflexivity|discriminate]. }
  destruct (List.filter (fun c => expected (fst c)) (glob data_dir)) as [|v vs].
  - cbn [stdout]. intros H. apply in_app_or in H as [H|H]; [by apply H0|].
    destruct H as [H|[H|[]]]; discriminate H.
  - rewrite load_frames_out.
    pose proof (load_frames_lines (isort (fun a b => String.leb (fst a) (fst b)) (v :: vs)) [])
      as Hl.
    destruct (load_frames _ [] []) as [[e o]|[o fr]]; cbn [stdout]; intros H.
    + rewrite <- in_rev in H. apply in_app_or in H as [H|[H|H]].
      * destruct (Hl _ H) as (c & n & l & Hm). discriminate Hm.
      * discriminate H.
      * rewrite <- in_rev in H. by apply H0.
    + apply in_app_or in H as [H|[H|[]]]; [|discriminate H].
      apply in_app_or in H as [H|H].
      * rewrite <- in_rev in H. apply in_app_or in H as [H|[H|H]].
        -- destruct (Hl _ H) as (c & n & l & Hm). discriminate Hm.
        -- discriminate H.
        -- rewrite <- in_rev in H. by apply H0.
      * apply in_app_or in H as [H|H].
        -- repeat destruct H as [H|H]; try discriminate H. destruct H.
        -- destruct (bool_decide _); [destruct H|].
           repeat destruct H as [H|H]; try discriminate H. destruct H.
Qed.

(** C2 as stated ("any such unexpected file is reported") fails for a
    file outside the pattern ["dataset_*.csv"]: [qber.csv] and
    [xdataset_qber.csv] are none of the six expected names, and a run on
    a directory that holds them, whatever their contents and next to a
    file that is expected, prints no "ignored" line. *)
Lemma unmatched_file_not_reported :
  ("qber.csv" ∉ EXPECTED_FILES)
  /\ ("xdataset_qber.csv" ∉ EXPECTED_FILES)
  /\ forall (valid rows1 rows2 : list Sample) (names : list string),
       ~ In (MsgSkipped names)
           (stdout (main [("dataset_normal.csv", valid); ("qber.csv", rows1);
                          ("xdataset_qber.csv", rows2)])).
Proof.
  split; [|split].
  - rewrite expected_names. simpl. intros H.
    repeat destruct H as [H|H]; try discriminate H. destruct H.
  - rewrite expected_names. simpl. intros H.
    repeat destruct H as [H|H]; try discriminate H. destruct H.
  - intros valid rows1 rows2 names H. apply skipped_line in H as [Hn Hne].
    apply Hne. exact Hn.
Qed.

(** C2, amended.  The consolidator labels an input CSV by equality of its
    stem with ["dataset_<name>"] for a canonical name, never by a
    substring: every labelled row carries either the canonical name that
    makes the stem of its file, or the fallback [normal] when no name
    does.  A file whose name is not one of the six expected names is
    dropped by the expected-files filter: what [main] writes and raises
    is what it would with the unexpected files removed from the
    directory.  Such a file is listed in the "ignored" line when its name
    matches the pattern ["dataset_*.csv"], and only then: the line lists
    the unexpected files the pattern matches and no other, and a file
    outside the pattern is neither loaded nor reported.
    ["dataset_qbert.csv"] is unexpected and is never labelled [qber]. *)
Theorem exact_stem_labelling (data_dir : Dir) :
  let kept := List.filter (fun c => expected (fst c)) data_dir in
  (written (main data_dir) = written (main kept)
   /\ raised (main data_dir) = raised (main kept))
  /\ (forall c, In c (glob data_dir) -> fst c ∉ EXPECTED_FILES ->
        ~ In c (List.filter (fun c => expected (fst c)) (glob data_dir))
        /\ exists names,
             In (MsgSkipped names) (stdout (main data_dir)) /\ In (fst c) names)
  /\ (forall names, In (MsgSkipped names) (stdout (main data_dir)) ->
        names = List.map fst
                  (List.filter (fun c => negb (expected (fst c))) (glob data_dir)))
  /\ (forall c, In c data_dir -> glob_match (fst c) = false ->
        (fst c ∉ EXPECTED_FILES)
        /\ ~ In c (glob data_dir)
        /\ forall names, In (MsgSkipped names) (stdout (main data_dir)) ->
             ~ In (fst c) names)
  /\ (forall path df r, In r (load_and_label path df) ->
        (In (fault_name r, fault_id (sample r)) FAULT_LABELS
         /\ stem path = "dataset_" +:+ fault_name r)
        \/ (match_stem (stem path) FAULT_LABELS = None
            /\ fault_name r = "normal" /\ fault_id (sample r) = 0))
  /\ (forall df r, In r (load_and_label "dataset_qber.csv" df) -> fault_name r = "qber")
  /\ ("dataset_qbert.csv" ∉ EXPECTED_FILES)
  /\ (forall df r, In r (load_and_label "dataset_qbert.csv" df) -> fault_name r <> "qber").
Proof.
  intros kept. split; [|split; [|split; [|split; [|split; [|split; [|split]]]]]].
  - apply main_written_raised. rewrite !valid_csvs_filter. subst kept.
    symmetry. apply filter_idem.
  - intros c Hc He. apply expected_false in He. split.
    + rewrite filter_In, He. intros [_ ?]. discriminate.
    + by apply in_skipped.
  - intros names H. by apply skipped_line in H as [-> _].
  - intros c Hc Hg. split; [|split].
    + intros He. apply expected_true, expected_glob_match in He. congruence.
    + unfold glob. rewrite filter_In, Hg. intros [_ ?]. discriminate.
    + intros names H Hin. apply skipped_line in H as [-> _].
      apply in_map_iff in Hin as (c' & Hfst & Hc').
      apply filter_In in Hc' as [Hc' _]. unfold glob in Hc'.
      apply filter_In in Hc' as [_ Hc']. congruence.
  - apply load_and_label_rows.
  - intros df r. unfold load_and_label. vm_compute match_stem.
    unfold assign_label. rewrite in_map_iff. by intros (s & <- & _).
  - rewrite expected_names. simpl. intros H.
    repeat destruct H as [H|H]; try discriminate H. destruct H.
  - intros df r. unfold load_and_label. vm_compute match_stem.
    unfold assign_label. rewrite in_map_iff. by intros (s & <- & _).
Qed.

(** ** The consolidator: no valid input *)

(** C6. When no file of the directory bears an expected name, [main]
    prints its diagnostic and returns: nothing is raised, and [to_csv] is
    not reached, so no consolidated dataset is written. *)
Theorem main_no_valid_input (data_dir : Dir) :
  (forall c, In c data_dir -> fst c ∉ EXPECTED_FILES) ->
  written (main data_dir) = None
  /\ raised (main data_dir) = None
  /\ In MsgNoValid (stdout (main data_dir))
  /\ ~ In MsgSaved (stdout (main data_dir)).
Proof.
  intros H. unfold main. rewrite valid_csvs_filter.
  rewrite filter_all_false.
  2:{ intros c Hc. apply expected_false. auto. }
  simpl. repeat split.
  - apply in_or_app. right. simpl. auto.
  - intros Hin. apply in_app_or in Hin as [Hin|Hin].
    + destruct (List.map fst _); simpl in Hin; [done|].
      destruct Hin as [Hin|[]]. discriminate.
    + simpl in Hin. destruct Hin as [Hin|[Hin|[]]]; discriminate.
Qed.

Lemma main_no_valid_input_witness :
  (forall c, In c [("dataset_qbert.csv", @nil Sample); ("dataset_full.csv", [])] ->
     fst c ∉ EXPECTED_FILES)
  /\ written (main [("dataset_qbert.csv", []); ("dataset_full.csv", [])]) = None
  /\ raised (main [("dataset_qbert.csv", []); ("dataset_full.csv", [])]) = None
  /\ In MsgNoValid (stdout (main [("dataset_qbert.csv", []); ("dataset_full.csv", [])]))
  /\ ~ In MsgSaved (stdout (main [("dataset_qbert.csv", []); ("dataset_full.csv", [])])).
Proof.
  assert (H : forall c, In c [("dataset_qbert.csv", @nil Sample); ("dataset_full.csv", [])] ->
     fst c ∉ EXPECTED_FILES).
  { intros c [<-|[<-|[]]]; rewrite expected_names; simpl; intros H;
      repeat destruct H as [H|H]; try discriminate H; destruct H. }
  split; [exact H|]. exact (main_no_valid_input _ H).
Defined.

(** ** The runner's default file names against the consolidator *)

Lemma default_output_names (f : string) :
  In f Tokyo.ALL_FAULT_TYPES ->
  Tokyo.output_path f None = "dataset_tokyo_qkd_" +:+ f +:+ ".csv"
  /\ (Tokyo.output_path f None ∉ EXPECTED_FILES)
  /\ glob_match (Tokyo.output_path f None) = true.
Proof.
  intros H. split; [reflexivity|]. rewrite expected_names.
  simpl in H. repeat destruct H as [<-|H]; try destruct H;
    (split; [|reflexivity]); simpl; intros H;
    repeat destruct H as [H|H]; try discriminate H; destruct H.
Qed.

(** C10. For each canonical fault type the runner's default output name is
    ["dataset_tokyo_qkd_<f>.csv"], which is not an expected file of the
    consolidator.  A consolidation over a directory that holds only
    default-named runner outputs therefore finds every file through the
    glob, lists every one as ignored, prints the no-valid-input
    diagnostic, and returns without writing a dataset. *)
Theorem default_outputs_not_consolidated (data_dir : Dir) :
  (forall c, In c data_dir ->
     exists f, In f Tokyo.ALL_FAULT_TYPES /\ fst c = Tokyo.output_path f None) ->
  (forall f, In f Tokyo.ALL_FAULT_TYPES ->
     Tokyo.output_path f None = "dataset_tokyo_qkd_" +:+ f +:+ ".csv"
     /\ (Tokyo.output_path f None ∉ EXPECTED_FILES))
  /\ glob data_dir = data_dir
  /\ main data_dir =
       mkRun
         (match data_dir with
          | [] => []
          | _ => [MsgSkipped (List.map fst data_dir)]
          end
          ++ [MsgNoValid; MsgExpected (sorted_names (elements EXPECTED_FILES))])%list
         None None.
Proof.
  intros H.
  assert (Hg : glob data_dir = data_dir).
  { apply filter_all_true. intros c Hc. destruct (H c Hc) as (f & Hf & ->).
    by apply default_output_names. }
  assert (He : forall c, In c data_dir -> expected (fst c) = false).
  { intros c Hc. destruct (H c Hc) as (f & Hf & ->).
    apply expected_false. by apply default_output_names. }
  split; [|split; [done|]].
  - intros f Hf. destruct (default_output_names f Hf) as (? & ? & _). auto.
  - unfold main. rewrite Hg.
    rewrite (filter_all_false (fun c => expected (fst c))) by done.
    rewrite (filter_all_true (fun c => negb (expected (fst c)))).
    2:{ intros c Hc. by rewrite He. }
    destruct data_dir; reflexivity.
Qed.

Lemma default_outputs_not_consolidated_witness :
  let d : Dir :=
    List.map (fun f => (Tokyo.output_path f None, @nil Sample)) Tokyo.ALL_FAULT_TYPES in
  (forall c, In c d ->
     exists f, In f Tokyo.ALL_FAULT_TYPES /\ fst c = Tokyo.output_path f None)
  /\ written (main d) = None
  /\ stdout (main d) =
       [MsgSkipped ["dataset_tokyo_qkd_normal.csv"; "dataset_tokyo_qkd_qber.csv";
                    "dataset_tokyo_qkd_degrade.csv"; "dataset_tokyo_qkd_node_fail.csv";
                    "dataset_tokyo_qkd_blinding.csv"; "dataset_tokyo_qkd_trojan.csv"];
        MsgNoValid;
        MsgExpected ["dataset_blinding.csv"; "dataset_degrade.csv";
                     "dataset_node_fail.csv"; "dataset_normal.csv";
                     "dataset_qber.csv"; "dataset_trojan.csv"]].
Proof.
  intros d.
  assert (H : forall c, In c d ->
     exists f, In f Tokyo.ALL_FAULT_TYPES /\ fst c = Tokyo.output_path f None).
  { intros c Hc. apply in_map_iff in Hc as (f & <- & Hf). by exists f. }
  split; [exact H|].
  destruct (default_outputs_not_consolidated d H) as (_ & _ & ->).
  split; [reflexivity|]. vm_compute. reflexivity.
Defined.

(** ** The consolidator: row counts *)

Lemma derive_all_base (above rows : list Labelled) :
  List.map base (derive_all above rows) = rows.
Proof.
  revert above. induction rows as [|r rows IH]; intros above; simpl; [reflexivity|].
  by rewrite IH.
Qed.

Lemma engineer_features_base (df : list Labelled) :
  List.map base (engineer_features df) = sort_values df.
Proof. apply derive_all_base. Qed.

(** Feature engineering adds columns and neither adds nor drops rows. *)
Lemma engineer_features_length (df : list Labelled) :
  List.length (engineer_features df) = List.length df.
Proof.
  rewrite <- (length_map base), engineer_features_base.
  apply isort_length.
Qed.

Lemma filter_length_Permutation {A : Type} (f : A -> bool) (l1 l2 : list A) :
  Permutation l1 l2 ->
  List.length (List.filter f l1) = List.length (List.filter f l2).
Proof.
  induction 1 as [|x l1 l2 _ IH|x y l|l1 l2 l3 _ IH1 _ IH2]; simpl.
  - reflexivity.
  - destruct (f x); simpl; congruence.
  - destruct (f x), (f y); reflexivity.
  - congruence.
Qed.

Lemma count_label_engineer (n : string) (df : list Labelled) :
  count_label n (engineer_features df)
  = List.length (List.filter (has_label n) df).
Proof.
  unfold count_label.
  rewrite <- (filter_length_Permutation (has_label n) _ _ (isort_Permutation row_leb df)).
  fold (sort_values df). rewrite <- engineer_features_base.
  induction (engineer_features df) as [|r l IH]; simpl; [reflexivity|].
  unfold has_label at 1. destruct (String.eqb (fault_name (base r)) n); simpl; congruence.
Qed.

Lemma load_length (c : string * list Sample) :
  List.length (load c) = List.length (snd c).
Proof.
  unfold load, load_and_label, assign_label.
  destruct (match_stem _ _) as [[? ?]|]; apply length_map.
Qed.

(** With every frame non-empty the loading loop reaches its end. *)
Lemma load_frames_ok (cs : Dir) (out : list Msg) (frames : list (list Labelled)) :
  (forall c, In c cs -> snd c <> []) ->
  exists out',
    load_frames cs out frames = inr (out', (frames ++ List.map load cs)%list).
Proof.
  revert out frames. induction cs as [|[c content] cs IH]; intros out frames H; simpl.
  - exists out. by rewrite app_nil_r.
  - assert (Hne : content <> []) by exact (H (c, content) (or_introl eq_refl)).
    destruct (iloc0 (load_and_label c content)) as [e|lbl] eqn:E.
    + exfalso. unfold iloc0 in E.
      destruct (load_and_label c content) eqn:El; [|discriminate].
      apply (f_equal (@List.length _)) in El.
      change (load_and_label c content) with (load (c, content)) in El.
      rewrite load_length in El. simpl in El. by destruct content.
    + destruct (IH (MsgFile c (List.length (load_and_label c content)) lbl :: out)
                  (frames ++ [load_and_label c content])%list) as [out' ->].
      { intros c' Hc'. apply H. by right. }
      exists out'. by rewrite <- app_assoc.
Qed.

(** A frame without rows stops the loading loop at its progress line. *)
Lemma load_frames_empty (cs : Dir) (out : list Msg) (frames : list (list Labelled)) :
  (exists c, In c cs /\ snd c = []) ->
  exists out', load_frames cs out frames = inl (IndexError, out').
Proof.
  revert out frames. induction cs as [|[c content] cs IH]; intros out frames (c0 & Hin & He).
  - destruct Hin.
  - simpl. destruct (iloc0 (load_and_label c content)) as [e|lbl] eqn:E.
    { exists out. f_equal. f_equal. unfold iloc0 in E.
      destruct (load_and_label c content); congruence. }
    apply IH. destruct Hin as [<-|Hin]; [|by eauto].
    simpl in He. subst content. unfold iloc0, load_and_label, assign_label in E.
    destruct (match_stem _ _) as [[? ?]|]; discriminate.
Qed.

Lemma total_rows_Permutation (d1 d2 : Dir) :
  Permutation d1 d2 -> total_rows d1 = total_rows d2.
Proof. induction 1; simpl; lia. Qed.

Lemma concat_load_length (d : Dir) :
  List.length (List.concat (List.map load d)) = total_rows d.
Proof.
  induction d as [|c d IH]; simpl; [reflexivity|].
  by rewrite length_app, load_length, IH.
Qed.

Lemma labelled_rows_Permutation (n : string) (d1 d2 : Dir) :
  Permutation d1 d2 -> labelled_rows n d1 = labelled_rows n d2.
Proof. induction 1; simpl; lia. Qed.

Lemma concat_load_label (n : string) (d : Dir) :
  List.length (List.filter (has_label n) (List.concat (List.map load d)))
  = labelled_rows n d.
Proof.
  induction d as [|c d IH]; simpl; [reflexivity|].
  by rewrite List.filter_app, length_app, IH.
Qed.

Lemma filter_map_const {A B : Type} (f : B -> bool) (g : A -> B) (b : bool) (l : list A) :
  (forall x, f (g x) = b) ->
  List.length (List.filter f (List.map g l)) = if b then List.length l else O.
Proof.
  intros H. induction l as [|x l IH]; simpl; [by destruct b|].
  rewrite H. destruct b; simpl; congruence.
Qed.

(** An expected file contributes its rows to the label of its own name
    and to no other canonical label. *)
Lemma expected_file_label (n : string) (c : string * list Sample) :
  In n (List.map fst FAULT_LABELS) -> fst c ∈ EXPECTED_FILES ->
  List.length (List.filter (has_label n) (load c))
  = if String.eqb (fst c) (dataset_file n) then List.length (snd c) else O.
Proof.
  destruct c as [name content]. simpl fst. simpl snd.
  rewrite expected_names. intros Hn Hc.
  simpl in Hn, Hc.
  repeat destruct Hn as [<-|Hn]; try destruct Hn;
    repeat destruct Hc as [<-|Hc]; try destruct Hc;
    unfold load, load_and_label; simpl fst; simpl snd;
    vm_compute match_stem; vm_compute String.eqb;
    unfold assign_label;
    first [ apply (filter_map_const (has_label _) _ true content)
          | apply (filter_map_const (has_label _) _ false content) ];
    intros x; reflexivity.
Qed.

Lemma labelled_rows_none (n : string) (d : Dir) :
  In n (List.map fst FAULT_LABELS) ->
  (forall c, In c d -> fst c ∈ EXPECTED_FILES) ->
  ~ In (dataset_file n) (List.map fst d) ->
  labelled_rows n d = O.
Proof.
  intros Hn. induction d as [|c d IH]; intros He Hnot; [reflexivity|].
  simpl. rewrite expected_file_label by auto using in_eq.
  destruct (String.eqb (fst c) (dataset_file n)) eqn:E.
  - apply String.eqb_eq in E. exfalso. apply Hnot. simpl. auto.
  - apply IH.
    + intros c' Hc'. apply He. by right.
    + intros H. apply Hnot. simpl. auto.
Qed.

Lemma labelled_rows_one (n : string) (content : list Sample) (d : Dir) :
  In n (List.map fst FAULT_LABELS) ->
  (forall c, In c d -> fst c ∈ EXPECTED_FILES) ->
  List.NoDup (List.map fst d) ->
  In (dataset_file n, content) d ->
  labelled_rows n d = List.length content.
Proof.
  intros Hn. induction d as [|c d IH]; intros He Hnd Hin; [destruct Hin|].
  simpl. rewrite expected_file_label by auto using in_eq.
  simpl in Hnd. apply NoDup_cons_iff in Hnd as [Hnot Hnd].
  assert (He' : forall c', In c' d -> fst c' ∈ EXPECTED_FILES).
  { intros c' Hc'. apply He. by right. }
  destruct Hin as [->|Hin].
  - simpl fst. rewrite String.eqb_refl. simpl snd.
    rewrite labelled_rows_none by done. lia.
  - destruct (String.eqb (fst c) (dataset_file n)) eqn:E.
    + apply String.eqb_eq in E. exfalso. apply Hnot. rewrite E.
      by apply (in_map fst) in Hin.
    + by apply IH.
Qed.

Lemma main_loaded (data_dir v : Dir) (o : list Msg) (fr : list (list Labelled)) :
  List.filter (fun c => expected (fst c)) (glob data_dir) = v -> v <> [] ->
  load_frames (isort (fun a b => String.leb (fst a) (fst b)) v) [] [] = inr (o, fr) ->
  written (main data_dir) = Some (engineer_features (List.concat fr))
  /\ raised (main data_dir) = None.
Proof.
  intros Hv Hne Hl. unfold main. rewrite Hv.
  destruct v as [|c v']; [done|].
  rewrite load_frames_out, Hl. simpl. auto.
Qed.

Lemma main_load_raises (data_dir v : Dir) (e : Exn) (o : list Msg) :
  List.filter (fun c => expected (fst c)) (glob data_dir) = v -> v <> [] ->
  load_frames (isort (fun a b => String.leb (fst a) (fst b)) v) [] [] = inl (e, o) ->
  written (main data_dir) = None /\ raised (main data_dir) = Some e.
Proof.
  intros Hv Hne Hl. unfold main. rewrite Hv.
  destruct v as [|c v']; [done|].
  rewrite load_frames_out, Hl. simpl. auto.
Qed.

(** X1. Given expected files only, each once and each with at least one data
    row, [main] writes a table with the rows of all of them, and the rows
    under each label are as many as the rows of the file of that name. *)
Lemma main_row_counts (data_dir : Dir) :
  data_dir <> [] ->
  (forall c, In c data_dir -> fst c ∈ EXPECTED_FILES /\ snd c <> []) ->
  List.NoDup (List.map fst data_dir) ->
  exists out,
    written (main data_dir) = Some out
    /\ raised (main data_dir) = None
    /\ List.length out = total_rows data_dir
    /\ forall n content,
         In n (List.map fst FAULT_LABELS) -> In (dataset_file n, content) data_dir ->
         count_label n out = List.length content.
Proof.
  intros Hne H Hnd.
  assert (He : forall c, In c data_dir -> expected (fst c) = true).
  { intros c Hc. apply expected_true. by apply H. }
  assert (Hv : List.filter (fun c => expected (fst c)) (glob data_dir) = data_dir).
  { rewrite valid_csvs_filter. by apply filter_all_true. }
  set (sorted := isort (fun a b => String.leb (fst a) (fst b)) data_dir).
  assert (Hp : Permutation sorted data_dir) by apply isort_Permutation.
  destruct (load_frames_ok sorted [] []) as [out' Hl].
  { intros c Hc. apply H. by rewrite <- Hp. }
  destruct (main_loaded data_dir data_dir _ _ Hv Hne Hl) as [Hw Hr].
  exists (engineer_features (List.concat (List.map load sorted))).
  simpl in Hw. repeat split; [done|done| |].
  - rewrite engineer_features_length, concat_load_length.
    by apply total_rows_Permutation.
  - intros n content Hn Hin.
    rewrite count_label_engineer, concat_load_label.
    rewrite (labelled_rows_Permutation n _ _ Hp).
    apply labelled_rows_one; auto. intros c Hc. by apply H.
Qed.

(** With a header-only file among the expected files [main] raises
    instead. *)
Lemma main_empty_frame (data_dir : Dir) :
  (forall c, In c data_dir -> fst c ∈ EXPECTED_FILES) ->
  (exists c, In c data_dir /\ snd c = []) ->
  written (main data_dir) = None /\ raised (main data_dir) = Some IndexError.
Proof.
  intros H (c & Hc & Hemp).
  assert (Hv : List.filter (fun c => expected (fst c)) (glob data_dir) = data_dir).
  { rewrite valid_csvs_filter. apply filter_all_true.
    intros c' Hc'. apply expected_true. by apply H. }
  set (sorted := isort (fun a b => String.leb (fst a) (fst b)) data_dir).
  destruct (load_frames_empty sorted [] []) as [out' Hl].
  { exists c. split; [|done]. unfold sorted. by rewrite isort_Permutation. }
  apply (main_load_raises data_dir data_dir IndexError out' Hv); [|done].
  intros ->. destruct Hc.
Qed.

(** C3. The six expected files, one of them with a header and no data
    row: the progress line of the loading loop reads the first label of
    the empty frame, [main] stops there with [IndexError], and nothing is
    written; every other file of the directory has a row to merge. *)
Theorem main_header_only_file_raises :
  let row := mkSample 10000000000 "Koganei_A_Koganei_B" "Koganei_A"
               0 0 0 256 0 100 (8 # 10) 0 0 "normal" 0 in
  let data_dir : Dir :=
    [ ("dataset_blinding.csv", [row]); ("dataset_degrade.csv", [row]);
      ("dataset_node_fail.csv", [row]); ("dataset_normal.csv", []);
      ("dataset_qber.csv", [row]); ("dataset_trojan.csv", [row]) ] in
  List.map fst (List.filter (fun c => expected (fst c)) (glob data_dir))
  = List.map fst data_dir
  /\ total_rows data_dir = 5%nat
  /\ raised (main data_dir) = Some IndexError
  /\ written (main data_dir) = None.
Proof. vm_compute. auto. Qed.

(** ** The consolidator: derived columns *)

Lemma compare_refl (s : string) : String.compare s s = Eq.
Proof. by apply String_as_OT.cmp_eq. Qed.

Lemma compare_Gt_Lt (a b : string) : String.compare a b = Gt -> String.compare b a = Lt.
Proof. intros H. rewrite String.compare_antisym, H. reflexivity. Qed.

Lemma compare_Lt_trans (a b c : string) :
  String.compare a b = Lt -> String.compare b c = Lt -> String.compare a c = Lt.
Proof.
  intros H1 H2. apply String_as_OT.cmp_lt.
  eapply String_as_OT.lt_trans; apply String_as_OT.cmp_lt; eassumption.
Qed.

Lemma row_leb_total (a b : Labelled) : row_leb a b = false -> row_leb b a = true.
Proof.
  unfold row_leb.
  destruct (String.compare (fault_name a) (fault_name b)) eqn:E1.
  - apply String.compare_eq_iff in E1. rewrite E1, compare_refl.
    destruct (String.compare (link (sample a)) (link (sample b))) eqn:E2.
    + apply String.compare_eq_iff in E2. rewrite E2, compare_refl. lia.
    + discriminate.
    + by rewrite (compare_Gt_Lt _ _ E2).
  - discriminate.
  - by rewrite (compare_Gt_Lt _ _ E1).
Qed.

Lemma row_leb_trans (a b c : Labelled) :
  row_leb a b = true -> row_leb b c = true -> row_leb a c = true.
Proof.
  unfold row_leb.
  destruct (String.compare (fault_name a) (fault_name b)) eqn:E1; [|intros _|discriminate].
  - apply String.compare_eq_iff in E1. rewrite E1.
    destruct (String.compare (fault_name b) (fault_name c)); [|done|done].
    destruct (String.compare (link (sample a)) (link (sample b))) eqn:E2; [|intros _|discriminate].
    + apply String.compare_eq_iff in E2. rewrite E2.
      destruct (String.compare (link (sample b)) (link (sample c))); [lia|done|done].
    + destruct (String.compare (link (sample b)) (link (sample c))) eqn:E3; [|intros _|discriminate].
      * apply String.compare_eq_iff in E3. by rewrite <- E3, E2.
      * by rewrite (compare_Lt_trans _ _ _ E2 E3).
  - destruct (String.compare (fault_name b) (fault_name c)) eqn:E3; [|intros _|discriminate].
    + apply String.compare_eq_iff in E3. by rewrite <- E3, E1.
    + by rewrite (compare_Lt_trans _ _ _ E1 E3).
Qed.

Section SortedInsertion.
Context {A : Type} (leb : A -> A -> bool).
Hypothesis leb_total : forall a b, leb a b = false -> leb b a = true.
Hypothesis leb_trans : forall a b c, leb a b = true -> leb b c = true -> leb a c = true.

Lemma insert_sorted_StronglySorted (x : A) (l : list A) :
  StronglySorted (fun a b => leb a b = true) l ->
  StronglySorted (fun a b => leb a b = true) (insert_sorted leb x l).
Proof.
  induction 1 as [|y l Hs IH Hall]; simpl.
  - repeat constructor.
  - destruct (leb x y) eqn:E.
    + constructor; [by constructor|]. constructor; [done|].
      eapply Forall_impl; [exact Hall|]. intros z Hz. by eapply leb_trans.
    + constructor; [done|].
      rewrite (insert_sorted_Permutation leb x l).
      constructor; [by apply leb_total|done].
Qed.

Lemma isort_StronglySorted (l : list A) :
  StronglySorted (fun a b => leb a b = true) (isort leb l).
Proof.
  induction l as [|x l IH]; simpl; [constructor|].
  by apply insert_sorted_StronglySorted.
Qed.
End SortedInsertion.

Lemma StronglySorted_lookup {A : Type} (R : A -> A -> Prop) (l : list A) (i j : nat) (a b : A) :
  StronglySorted R l -> (i < j)%nat -> l !! i = Some a -> l !! j = Some b -> R a b.
Proof.
  intros Hs. revert i j. induction Hs as [|x l Hs IH Hall]; intros i j Hij Hi Hj.
  - by rewrite lookup_nil in Hi.
  - destruct j as [|j]; [lia|]. destruct i as [|i]; simpl in *.
    + injection Hi as <-. rewrite Forall_forall in Hall. apply Hall.
      by eapply list_elem_of_lookup_2.
    + eapply (IH i j); [lia|done|done].
Qed.

Lemma same_group_compare (a b : Labelled) :
  same_group a b = true ->
  String.compare (fault_name a) (fault_name b) = Eq
  /\ String.compare (link (sample a)) (link (sample b)) = Eq.
Proof.
  unfold same_group. rewrite andb_true_iff, !String.eqb_eq.
  intros [-> ->]. by rewrite !compare_refl.
Qed.

(** In the sorted frame the rows of a group stand in timestamp order. *)
Lemma sort_values_group_order (df : list Labelled) (i j : nat) (a b : Labelled) :
  (i < j)%nat -> sort_values df !! i = Some a -> sort_values df !! j = Some b ->
  same_group a b = true ->
  timestamp_ps (sample a) <= timestamp_ps (sample b).
Proof.
  intros Hij Hi Hj Hg.
  pose proof (StronglySorted_lookup _ _ i j a b
                (isort_StronglySorted row_leb row_leb_total row_leb_trans df) Hij Hi Hj) as H.
  cbv beta in H. unfold row_leb in H.
  destruct (same_group_compare a b Hg) as [E1 E2]. rewrite E1, E2 in H.
  lia.
Qed.

Lemma derive_all_lookup (rows above : list Labelled) (i : nat) (r : Feature) :
  derive_all above rows !! i = Some r ->
  exists b, rows !! i = Some b
    /\ r = derive (group_history (rev (take i rows) ++ above)%list b) b.
Proof.
  revert above i. induction rows as [|a rows IH]; intros above i H; simpl in H.
  - by rewrite lookup_nil in H.
  - destruct i as [|i]; simpl in *.
    + injection H as <-. by exists a.
    + destruct (IH _ _ H) as (b & Hb & ->). exists b. split; [done|].
      by rewrite <- app_assoc.
Qed.

Lemma fillna0_defined (v : fval) : fillna0 v <> NaN.
Proof. by destruct v. Qed.

Lemma rolling_var_single (w : list Q) :
  List.length w = 1%nat -> fillna0 (rolling_var w) = Fin 0.
Proof. intros H. unfold rolling_var. by rewrite H. Qed.

Lemma clip11_range (v : fval) :
  v <> NaN -> exists q, clip11 v = Fin q /\ (-1 <= q)%Q /\ (q <= 1)%Q.
Proof.
  destruct v as [| | |q]; intros H; simpl.
  - done.
  - exists (-1)%Q. by repeat split.
  - exists 1%Q. by repeat split.
  - exists (Qmin (Qmax q (-1)) 1). repeat split.
    + apply Q.min_glb; [apply Q.le_max_r|done].
    + apply Q.le_min_r.
Qed.

Lemma derive_first_row (r : Labelled) :
  qber_delta (derive [] r) = Fin 0
  /\ key_rate_drop (derive [] r) = Fin 0
  /\ dark_count_delta (derive [] r) = Fin 0
  /\ qber_var5 (derive [] r) = Fin 0.
Proof. repeat split. Qed.

Lemma group_history_nil (before : list Labelled) (r : Labelled) :
  (forall x, In x before -> same_group r x = false) -> group_history before r = [].
Proof. apply filter_all_false. Qed.

(** C4. In the consolidated dataset the rows of a (fault label, link)
    group stand in timestamp order.  The first row of its group has
    [qber_delta], [key_rate_drop] and [dark_count_delta] exactly 0, and
    its rolling window holds one element.  The window-5 variance of QBER
    is the filled sample variance of the window: 0 whenever the window
    holds a single element, and never undefined.  [key_rate_drop] is
    always a number within [-1, 1]. *)
Theorem group_first_row_features (df : list Labelled) (i : nat) (r : Feature) :
  engineer_features df !! i = Some r ->
  let window :=
    window5 (fun x => qber (sample x))
      (group_history (rev (take i (sort_values df))) (base r)) (base r) in
  (forall j r', (i < j)%nat -> engineer_features df !! j = Some r' ->
     same_group (base r) (base r') = true ->
     timestamp_ps (sample (base r)) <= timestamp_ps (sample (base r')))
  /\ ((forall j r', (j < i)%nat -> engineer_features df !! j = Some r' ->
         same_group (base r) (base r') = false) ->
      qber_delta r = Fin 0 /\ key_rate_drop r = Fin 0
      /\ dark_count_delta r = Fin 0 /\ List.length window = 1%nat)
  /\ qber_var5 r = fillna0 (rolling_var window)
  /\ (List.length window = 1%nat -> qber_var5 r = Fin 0)
  /\ qber_var5 r <> NaN
  /\ exists q, key_rate_drop r = Fin q /\ (-1 <= q)%Q /\ (q <= 1)%Q.
Proof.
  intros Hi window.
  assert (Hbase : forall j r', engineer_features df !! j = Some r' ->
                    sort_values df !! j = Some (base r')).
  { intros j r' Hj. rewrite <- engineer_features_base, list_lookup_fmap, Hj. done. }
  destruct (derive_all_lookup _ _ _ _ Hi) as (b & Hb & Hr).
  rewrite app_nil_r in Hr.
  assert (Eb : base r = b) by (by rewrite Hr).
  assert (Hnil : (forall j r', (j < i)%nat -> engineer_features df !! j = Some r' ->
                    same_group (base r) (base r') = false) ->
                 group_history (rev (take i (sort_values df))) b = []).
  { intros Hfirst. apply group_history_nil.
    intros x Hx. apply in_rev in Hx. apply list_elem_of_In in Hx.
    apply list_elem_of_lookup in Hx as [j Hj].
    pose proof (lookup_lt_Some _ _ _ Hj) as Hlen.
    rewrite length_take in Hlen.
    rewrite lookup_take_lt in Hj by lia.
    assert (is_Some (engineer_features df !! j)) as [r' Hr'].
    { apply lookup_lt_is_Some. rewrite engineer_features_length.
      rewrite <- (isort_length row_leb). by eapply lookup_lt_Some. }
    specialize (Hfirst j r' ltac:(lia) Hr').
    apply Hbase in Hr'. rewrite Hj in Hr'. injection Hr' as ->.
    by rewrite Eb in Hfirst. }
  subst window.
  split; [|split; [|split; [|split; [|split]]]].
  - intros j r' Hij Hj Hg.
    eapply (sort_values_group_order df i j); eauto.
  - intros Hfirst. rewrite Eb. rewrite Hr at 1 2 3. rewrite (Hnil Hfirst).
    by repeat split.
  - by rewrite Eb, Hr.
  - intros Hw. rewrite Eb in Hw. rewrite Hr. simpl. by apply rolling_var_single.
  - rewrite Hr. apply fillna0_defined.
  - rewrite Hr. apply clip11_range, fillna0_defined.
Qed.

Lemma group_first_row_features_witness :
  let row := fun t l q k =>
    mkLabelled (mkSample t l "Koganei_A" q k 0 256 0 100 (8 # 10) 0 0 "normal" 1) "qber" in
  let df := [row 20 "L1" (3 # 100) 40%Q; row 10 "L1" (1 # 100) 0%Q; row 10 "L2" (2 # 100) 7%Q] in
  exists r,
    engineer_features df !! 1%nat = Some r
    /\ timestamp_ps (sample (base r)) = 20
    /\ qber_delta r = Fin ((3 # 100) - (1 # 100))%Q
    /\ qber_var5 r <> NaN
    /\ exists q, key_rate_drop r = Fin q /\ (-1 <= q)%Q /\ (q <= 1)%Q.
Proof.
  intros row df.
  eexists. split; [vm_compute; reflexivity|].
  match goal with |- context [base ?r] =>
    destruct (group_first_row_features df 1%nat r eq_refl) as (_ & _ & _ & _ & Hv & Hk)
  end.
  split; [reflexivity|]. split; [reflexivity|]. split; [exact Hv|exact Hk].
Defined.

(** ** The one-link harness: consumption *)

Lemma pop_front_drop (n : nat) (vk : list Z) :
  (n <= List.length vk)%nat -> OneLink.pop_front n vk = inr (drop n vk).
Proof.
  revert vk. induction n as [|n IH]; intros vk H; [reflexivity|].
  destruct vk as [|k vk]; simpl in H; [lia|].
  simpl. apply IH. lia.
Qed.

(** C7 as stated ("for every buffer state ... otherwise it increments the
    starvation counter") fails when no reconciliation layer is attached:
    the buffer the probe reads then holds 0 keys, fewer than
    [CONSUME_KEYS], and [consume] returns with the starvation counter as
    it was. *)
Lemma consume_without_cascade :
  let w := OneLink.mkWorld (OneLink.mkScenarioState "normal" 0) None
             Tokyo.ATTENUATION [] 0 in
  (List.length (buffer w) < OneLink.CONSUME_KEYS)%nat
  /\ OneLink.consume w = inr w
  /\ ~ (exists w',
          OneLink.consume w = inr w'
          /\ OneLink.starvation (OneLink.state w')
             = OneLink.starvation (OneLink.state w) + 1).
Proof.
  intros w. split; [unfold OneLink.CONSUME_KEYS; simpl; lia|]. split; [reflexivity|].
  intros (w' & Hc & Hs). unfold OneLink.consume in Hc. simpl in Hc.
  injection Hc as <-. simpl in Hs. lia.
Qed.

(** C7, amended.  [consume] returns normally in every state.  With a
    reconciliation layer attached whose buffer holds at least
    [CONSUME_KEYS] = 2 keys it removes exactly the first two and touches
    nothing else; with a shorter buffer (an absent [valid_keys] attribute
    counts as empty) it adds exactly 1 to the starvation counter and
    leaves the buffer as it is.  Without a reconciliation layer the
    buffer reads as empty, and [consume] changes nothing: no starvation
    is counted. *)
Theorem consume_counts_starvation (w : OneLink.World) :
  OneLink.CONSUME_KEYS = 2%nat
  /\ (exists w', OneLink.consume w = inr w')
  /\ (forall c vk, OneLink.cascade w = Some c ->
        default [] (OneLink.valid_keys c) = vk ->
        (OneLink.CONSUME_KEYS <= List.length vk)%nat ->
        vk = (take OneLink.CONSUME_KEYS vk ++ drop OneLink.CONSUME_KEYS vk)%list
        /\ List.length (take OneLink.CONSUME_KEYS vk) = OneLink.CONSUME_KEYS
        /\ OneLink.consume w =
             inr (OneLink.mkWorld (OneLink.state w)
                    (Some (OneLink.mkCascade (Some (drop OneLink.CONSUME_KEYS vk))))
                    (OneLink.attenuation w) (OneLink.qsdA w) (OneLink.phase_error w)))
  /\ (forall c vk, OneLink.cascade w = Some c ->
        default [] (OneLink.valid_keys c) = vk ->
        (List.length vk < OneLink.CONSUME_KEYS)%nat ->
        OneLink.consume w =
          inr (OneLink.mkWorld
                 (OneLink.mkScenarioState (OneLink.label (OneLink.state w))
                    (OneLink.starvation (OneLink.state w) + 1))
                 (OneLink.cascade w)
                 (OneLink.attenuation w) (OneLink.qsdA w) (OneLink.phase_error w)))
  /\ (OneLink.cascade w = None -> buffer w = [] /\ OneLink.consume w = inr w).
Proof.
  split; [reflexivity|]. split; [|split; [|split]].
  - unfold OneLink.consume. destruct (OneLink.cascade w) as [c|]; [|by eexists].
    destruct (_ <? _)%nat eqn:E; [by eexists|].
    apply Nat.ltb_ge in E. rewrite (pop_front_drop _ _ E). by eexists.
  - intros c vk Hc Hvk Hlen. split; [by rewrite take_drop|]. split.
    + rewrite length_take. lia.
    + unfold OneLink.consume. rewrite Hc, Hvk.
      apply Nat.ltb_ge in Hlen as E. rewrite E.
      by rewrite (pop_front_drop _ _ Hlen).
  - intros c vk Hc Hvk Hlen. unfold OneLink.consume. rewrite Hc, Hvk.
    apply Nat.ltb_lt in Hlen. by rewrite Hlen.
  - intros Hc. unfold buffer, OneLink.consume. by rewrite Hc.
Qed.

(** ** Fault callbacks applied twice *)

Lemma set_detector_twice (i : nat) (e d : Q) (qsd : list OneLink.Detector) :
  OneLink.set_detector i e d (OneLink.set_detector i e d qsd) = OneLink.set_detector i e d qsd.
Proof. unfold OneLink.set_detector. apply list_insert_insert_eq. Qed.

Lemma fault_darkcount_spike_twice (w : OneLink.World) :
  OneLink.fault_darkcount_spike (OneLink.fault_darkcount_spike w)
  = OneLink.fault_darkcount_spike w.
Proof.
  unfold OneLink.fault_darkcount_spike. simpl. f_equal.
  unfold OneLink.set_detector.
  rewrite (list_insert_insert_ne _ 0 1) by done.
  by rewrite !list_insert_insert_eq.
Qed.

Lemma fault_phase_noise_twice (w : OneLink.World) :
  OneLink.fault_phase_noise (OneLink.fault_phase_noise w) = OneLink.fault_phase_noise w.
Proof. reflexivity. Qed.

(** The attenuation jump multiplies again: 9 times the original. *)
Lemma fault_attenuation_jump_twice (w : OneLink.World) :
  (OneLink.attenuation (OneLink.fault_attenuation_jump (OneLink.fault_attenuation_jump w))
   == 9 * OneLink.attenuation w)%Q
  /\ (~ (OneLink.attenuation w == 0)%Q ->
      ~ (OneLink.attenuation (OneLink.fault_attenuation_jump (OneLink.fault_attenuation_jump w))
         == OneLink.attenuation (OneLink.fault_attenuation_jump w))%Q).
Proof.
  simpl. split; [ring|]. intros Hnz H. apply Hnz.
  assert (E : (6 * OneLink.attenuation w == 0)%Q).
  { transitivity (OneLink.attenuation w * 3 * 3 - OneLink.attenuation w * 3)%Q; [ring|].
    rewrite H. ring. }
  apply Qmult_integral in E as [E|E]; [discriminate E|exact E].
Qed.

Lemma bind_inr {A B : Type} (m : result A) (f : A -> result B) (y : B) :
  m ≫= f = inr y -> exists x, m = inr x /\ f x = inr y.
Proof. destruct m as [e|x]; [discriminate|]. intros H. by exists x. Qed.

Lemma getitem_inr {V : Type} (d : gmap string V) (k : string) (v : V) :
  getitem d k = inr v <-> d !! k = Some v.
Proof.
  unfold getitem. destruct (d !! k); split; intros H; try discriminate;
    by injection H as ->.
Qed.

Lemma saturate_twice (d : Tokyo.Detector.t) :
  Tokyo.saturate (Tokyo.saturate d) = Tokyo.saturate d.
Proof. reflexivity. Qed.

Lemma blind_node_inr (n n1 : Tokyo.Node.t) :
  Tokyo.blind_node n = inr n1 ->
  Tokyo.Node.name n1 = Tokyo.Node.name n
  /\ Tokyo.Node._dark_count_rate n1 = Some 5000000%Q
  /\ Tokyo.Node._detector_efficiency n1 = Some 1%Q
  /\ ((exists dets,
         Tokyo.Node.components n !! (Tokyo.Node.name n +:+ ".qsdetector")
         = Some (Tokyo.QSDetector dets)
         /\ Tokyo.Node.components n1
            = <[Tokyo.Node.name n +:+ ".qsdetector" :=
                  Tokyo.QSDetector (List.map Tokyo.saturate dets)]> (Tokyo.Node.components n))
      \/ (Tokyo.Node.components n !! (Tokyo.Node.name n +:+ ".qsdetector") = None
          /\ Tokyo.Node.components n1 = Tokyo.Node.components n))
  /\ n1 = Tokyo.set_blinding_cache 5000000 1
            (Tokyo.set_components (Tokyo.Node.components n1) n).
Proof.
  unfold Tokyo.blind_node. intros H.
  apply bind_inr in H as (comps & Hc & H). injection H as <-.
  unfold raise, ret in Hc.
  unfold mret, result_ret in Hc.
  destruct (Tokyo.Node.components n !! _) as [[m|dets]|] eqn:E;
    try discriminate Hc; injection Hc as <-; simpl; repeat split; eauto.
Qed.

(** The blinding callback, run again, changes nothing. *)
Lemma blind_node_twice (n n1 : Tokyo.Node.t) :
  Tokyo.blind_node n = inr n1 -> Tokyo.blind_node n1 = inr n1.
Proof.
  intros H. destruct (blind_node_inr _ _ H) as (Hname & _ & _ & Hcomp & Hn1).
  unfold Tokyo.blind_node. rewrite Hname.
  destruct Hcomp as [(dets & Hl & Hc)|[Hl Hc]]; rewrite Hc.
  - rewrite lookup_insert_eq. simpl. rewrite insert_insert_eq.
    rewrite List.map_map. rewrite (List.map_ext _ _ saturate_twice).
    rewrite Hn1 at 2. rewrite Hc. rewrite Hn1. reflexivity.
  - rewrite Hl. simpl. rewrite Hn1 at 2. rewrite Hc. rewrite Hn1. reflexivity.
Qed.

Lemma _blind_twice (t : string) (w w1 : Tokyo.World) :
  Tokyo._blind t w = inr w1 -> Tokyo._blind t w1 = inr w1.
Proof.
  unfold Tokyo._blind. intros H.
  apply bind_inr in H as (n & Hn & H). apply bind_inr in H as (n1 & Hn1 & H).
  injection H as <-. simpl.
  rewrite (proj2 (getitem_inr _ _ n1)) by apply lookup_insert_eq. simpl.
  rewrite (blind_node_twice _ _ Hn1). simpl. by rewrite insert_insert_eq.
Qed.

(** A loop over protocol references with an idempotent body. *)
Section ForProtocols.
Variable f : Tokyo.BB84.t -> Tokyo.BB84.t.
Hypothesis f_idem : forall p, f (f p) = f p.

Lemma for_protocols_fixed (refs : list string) (ps ps1 : gmap string Tokyo.BB84.t) :
  Tokyo.for_protocols f refs ps = inr ps1 ->
  (forall k p, ps1 !! k = Some p -> In k refs \/ ps !! k = Some p)
  /\ (forall k p, ps !! k = Some p -> f p = p -> exists q, ps1 !! k = Some q /\ f q = q)
  /\ (forall k, In k refs -> exists q, ps1 !! k = Some q /\ f q = q).
Proof.
  revert ps. induction refs as [|ref refs IH]; intros ps H; simpl in H.
  - injection H as <-. repeat split; eauto. intros k [].
  - unfold Tokyo.for_protocols in H. simpl in H.
    apply bind_inr in H as (ps' & Hstep & H).
    apply bind_inr in Hstep as (p0 & Hp0 & Hstep). injection Hstep as <-.
    apply getitem_inr in Hp0.
    destruct (IH _ H) as (H1 & H2 & H3). repeat split.
    + intros k p Hk. destruct (H1 k p Hk) as [Hin|Hl]; [left; by right|].
      destruct (decide (ref = k)) as [->|Hne]; [left; by left|].
      right. by rewrite lookup_insert_ne in Hl.
    + intros k p Hk Hfix. destruct (decide (ref = k)) as [->|Hne].
      * apply (H2 k (f p0)); [apply lookup_insert_eq|apply f_idem].
      * apply (H2 k p); [by rewrite lookup_insert_ne|done].
    + intros k [->|Hin]; [|by apply H3].
      apply (H2 k (f p0)); [apply lookup_insert_eq|apply f_idem].
Qed.

Lemma for_protocols_again (refs : list string) (ps : gmap string Tokyo.BB84.t) :
  (forall k, In k refs -> exists q, ps !! k = Some q /\ f q = q) ->
  Tokyo.for_protocols f refs ps = inr ps.
Proof.
  induction refs as [|ref refs IH]; intros H; [reflexivity|].
  unfold Tokyo.for_protocols. simpl.
  destruct (H ref (or_introl eq_refl)) as (q & Hq & Hfix).
  rewrite (proj2 (getitem_inr _ _ q) Hq). simpl. rewrite Hfix, (insert_id _ _ _ Hq).
  apply IH. intros k Hk. apply H. by right.
Qed.

Lemma for_protocols_twice (refs : list string) (ps ps1 : gmap string Tokyo.BB84.t) :
  Tokyo.for_protocols f refs ps = inr ps1 -> Tokyo.for_protocols f refs ps1 = inr ps1.
Proof.
  intros H. apply for_protocols_again. by apply (for_protocols_fixed refs ps ps1 H).
Qed.
End ForProtocols.

Lemma _trojan_twice (t : string) (w w1 : Tokyo.World) :
  Tokyo._trojan t w = inr w1 -> Tokyo._trojan t w1 = inr w1.
Proof.
  unfold Tokyo._trojan. intros H.
  apply bind_inr in H as (n & Hn & H). apply bind_inr in H as (ps & Hps & H).
  injection H as <-. simpl in *.
  rewrite (proj2 (getitem_inr _ _ (Tokyo.set_back_reflection_power (1 # 1000) n)))
    by apply lookup_insert_eq.
  simpl. erewrite for_protocols_twice; [| |exact Hps].
  - simpl. by rewrite insert_insert_eq.
  - intros p. destruct (Tokyo.BB84.phase_error_rate p) eqn:E; [|by rewrite E].
    reflexivity.
Qed.

Lemma _fail_twice (stop : Tokyo.BB84.t -> Tokyo.BB84.t) (t : string) (w w1 : Tokyo.World) :
  (forall p, stop (stop p) = stop p) ->
  Tokyo._fail stop t w = inr w1 -> Tokyo._fail stop t w1 = inr w1.
Proof.
  intros Hstop. unfold Tokyo._fail. intros H.
  apply bind_inr in H as (n & Hn & H). apply bind_inr in H as (ps & Hps & H).
  injection H as <-. simpl in *.
  rewrite (proj2 (getitem_inr _ _ (Tokyo.set_is_offline true n)))
    by apply lookup_insert_eq.
  simpl. erewrite for_protocols_twice; [| |exact Hps].
  - simpl. by rewrite insert_insert_eq.
  - intros p. destruct (Tokyo.BB84.has_stop p) eqn:E; [|by rewrite E].
    destruct (Tokyo.BB84.has_stop (stop p)); [apply Hstop|done].
Qed.

Lemma append_error_rate_length (ref k : string) (q : Q) (ps ps1 : gmap string Tokyo.BB84.t) :
  Tokyo.append_error_rate ref q ps = inr ps1 ->
  history_length k ps1
  = if decide (ref = k) then Datatypes.S (history_length k ps) else history_length k ps.
Proof.
  unfold Tokyo.append_error_rate. intros H.
  apply bind_inr in H as (p & Hp & H). injection H as <-.
  apply getitem_inr in Hp. unfold history_length.
  destruct (decide (ref = k)) as [->|Hne].
  - rewrite lookup_insert_eq, Hp. simpl. rewrite length_app. simpl. lia.
  - by rewrite lookup_insert_ne.
Qed.

(** Each run of the intercept-resend callback makes the history of the
    protocol in slot 0 of the target longer. *)
Lemma _attack_appends (t : string) (w w1 : Tokyo.World) (n : Tokyo.Node.t)
    (ref : string) (rest : list (option string)) :
  Tokyo._attack t w = inr w1 ->
  Tokyo.nodes w !! t = Some n ->
  Tokyo.Node.protocol_stack n = Some ref :: rest ->
  Tokyo.nodes w1 = Tokyo.nodes w
  /\ (history_length ref (Tokyo.protos w) < history_length ref (Tokyo.protos w1))%nat.
Proof.
  unfold Tokyo._attack. intros H Hn Hs.
  rewrite (proj2 (getitem_inr _ _ n) Hn) in H. simpl in H. rewrite Hs in H.
  apply bind_inr in H as (p & Hp & H). apply bind_inr in H as (ps & Hps & H).
  pose proof (append_error_rate_length _ ref _ _ _ Hps) as L1.
  rewrite decide_True in L1 by done.
  destruct (Tokyo.BB84.another p) as [other|].
  - apply bind_inr in H as (ps' & Hps' & H). injection H as <-. simpl.
    pose proof (append_error_rate_length _ ref _ _ _ Hps') as L2.
    split; [done|]. destruct (decide (other = ref)); lia.
  - injection H as <-. simpl. split; [done|lia].
Qed.

Lemma _attack_twice_differs (t : string) (w w1 w2 : Tokyo.World) (n : Tokyo.Node.t)
    (ref : string) (rest : list (option string)) :
  Tokyo.nodes w !! t = Some n ->
  Tokyo.Node.protocol_stack n = Some ref :: rest ->
  Tokyo._attack t w = inr w1 -> Tokyo._attack t w1 = inr w2 ->
  w2 <> w1.
Proof.
  intros Hn Hs H1 H2.
  destruct (_attack_appends _ _ _ _ _ _ H1 Hn Hs) as [E1 _].
  rewrite <- E1 in Hn.
  destruct (_attack_appends _ _ _ _ _ _ H2 Hn Hs) as [_ L].
  intros ->. lia.
Qed.

(** C8 as stated (every perturbation idempotent) fails for the two it
    singles out.  After the wiring of a [qber] run, the intercept-resend
    callback run twice leaves a world other than the one a single run
    leaves; and the attenuation jump of the one-link harness, run twice
    from the baseline attenuation, leaves another attenuation than a
    single run. *)
Lemma reapplied_perturbation_differs :
  (exists w s ev w1 w2,
     Tokyo.setup "qber" = inr (w, s, ev)
     /\ ev = [Tokyo.mkEvent Tokyo.FAULT_START_PS "Otemachi" "_fault_qber" Tokyo.CbAttack]
     /\ Tokyo._attack "Otemachi" w = inr w1
     /\ Tokyo._attack "Otemachi" w1 = inr w2
     /\ w2 <> w1)
  /\ (let ow := OneLink.mkWorld (OneLink.mkScenarioState "normal" 0) None
                  Tokyo.ATTENUATION [] 0 in
      OneLink.fault_attenuation_jump (OneLink.fault_attenuation_jump ow)
      <> OneLink.fault_attenuation_jump ow).
Proof.
  split.
  - assert (H : match Tokyo.setup "qber" with
                | inr (w, _, ev) =>
                    match Tokyo._attack "Otemachi" w with
                    | inr w1 =>
                        match Tokyo._attack "Otemachi" w1 with
                        | inr _ =>
                            ev = [Tokyo.mkEvent Tokyo.FAULT_START_PS "Otemachi"
                                    "_fault_qber" Tokyo.CbAttack]
                            /\ match Tokyo.nodes w !! "Otemachi" with
                               | Some n =>
                                   exists rest,
                                     Tokyo.Node.protocol_stack n
                                     = Some "bb84_Otemachi_Hakusan_alice" :: rest
                               | None => False
                               end
                        | inl _ => False
                        end
                    | inl _ => False
                    end
                | inl _ => False
                end).
    { vm_compute. split; [reflexivity|]. eexists. reflexivity. }
    destruct (Tokyo.setup "qber") as [e|[[w s] ev]] eqn:Es; [destruct H|].
    destruct (Tokyo._attack "Otemachi" w) as [e|w1] eqn:E1; [destruct H|].
    destruct (Tokyo._attack "Otemachi" w1) as [e|w2] eqn:E2; [destruct H|].
    destruct H as [Hev Hn].
    destruct (Tokyo.nodes w !! "Otemachi") as [n|] eqn:En; [|destruct Hn].
    destruct Hn as [rest Hs].
    exists w, s, ev, w1, w2.
    split; [reflexivity|]. split; [exact Hev|]. split; [exact E1|]. split; [exact E2|].
    exact (_attack_twice_differs _ _ _ _ _ _ _ En Hs E1 E2).
  - vm_compute. discriminate.
Qed.

(** C8, amended.  Re-applied to the state they leave, the blinding and
    trojan callbacks change nothing, nor does the node-failure callback
    as long as stopping a stopped protocol changes nothing, nor do the
    dark-count spike and the phase noise of the one-link harness.  The
    intercept-resend callback is not idempotent: with a protocol in slot
    0 of its target every run makes that protocol's error-rate history
    longer.  The attenuation jump is not idempotent either: two runs
    multiply the attenuation by 9, which differs from one run's 3 unless
    the attenuation is 0. *)
Theorem perturbations_reapplied (stop : Tokyo.BB84.t -> Tokyo.BB84.t) (t : string)
    (w w1 : Tokyo.World) (ow : OneLink.World) :
  (forall p, stop (stop p) = stop p) ->
  (Tokyo._blind t w = inr w1 -> Tokyo._blind t w1 = inr w1)
  /\ (Tokyo._trojan t w = inr w1 -> Tokyo._trojan t w1 = inr w1)
  /\ (Tokyo._fail stop t w = inr w1 -> Tokyo._fail stop t w1 = inr w1)
  /\ OneLink.fault_darkcount_spike (OneLink.fault_darkcount_spike ow)
     = OneLink.fault_darkcount_spike ow
  /\ OneLink.fault_phase_noise (OneLink.fault_phase_noise ow)
     = OneLink.fault_phase_noise ow
  /\ (forall n ref rest w2,
        Tokyo.nodes w !! t = Some n ->
        Tokyo.Node.protocol_stack n = Some ref :: rest ->
        Tokyo._attack t w = inr w1 -> Tokyo._attack t w1 = inr w2 ->
        w2 <> w1
        /\ (history_length ref (Tokyo.protos w) < history_length ref (Tokyo.protos w1))%nat
        /\ (history_length ref (Tokyo.protos w1) < history_length ref (Tokyo.protos w2))%nat)
  /\ (OneLink.attenuation (OneLink.fault_attenuation_jump (OneLink.fault_attenuation_jump ow))
      == 9 * OneLink.attenuation ow)%Q
  /\ (~ (OneLink.attenuation ow == 0)%Q ->
      ~ (OneLink.attenuation (OneLink.fault_attenuation_jump (OneLink.fault_attenuation_jump ow))
         == OneLink.attenuation (OneLink.fault_attenuation_jump ow))%Q).
Proof.
  intros Hstop.
  split; [apply _blind_twice|]. split; [apply _trojan_twice|].
  split; [by apply _fail_twice|]. split; [apply fault_darkcount_spike_twice|].
  split; [apply fault_phase_noise_twice|]. split.
  - intros n ref rest w2 Hn Hs H1 H2. split; [by eapply _attack_twice_differs|].
    destruct (_attack_appends _ _ _ _ _ _ H1 Hn Hs) as [E1 L1].
    rewrite <- E1 in Hn.
    destruct (_attack_appends _ _ _ _ _ _ H2 Hn Hs) as [_ L2]. done.
  - apply fault_attenuation_jump_twice.
Qed.

Lemma perturbations_reapplied_witness :
  (forall p : Tokyo.BB84.t, id (id p) = id p)
  /\ exists w s ev w1,
       Tokyo.setup "blinding" = inr (w, s, ev)
       /\ Tokyo._blind "Otemachi" w = inr w1
       /\ Tokyo._blind "Otemachi" w1 = inr w1.
Proof.
  split; [reflexivity|].
  assert (H : match Tokyo.setup "blinding" with
              | inr (w, _, _) =>
                  match Tokyo._blind "Otemachi" w with
                  | inr _ => True
                  | inl _ => False
                  end
              | inl _ => False
              end) by (vm_compute; exact I).
  destruct (Tokyo.setup "blinding") as [e|[[w s] ev]] eqn:Es; [destruct H|].
  destruct (Tokyo._blind "Otemachi" w) as [e|w1] eqn:E1; [destruct H|].
  exists w, s, ev, w1. split; [reflexivity|]. split; [exact E1|].
  exact (proj1 (perturbations_reapplied id "Otemachi" w w1
                  (OneLink.mkWorld (OneLink.mkScenarioState "normal" 0) None 0 [] 0)
                  (fun p => eq_refl)) E1).
Defined.

(** ** Blinding: what the extractor reads *)

Lemma blind_node_blinded (n n1 : Tokyo.Node.t) :
  Tokyo.blind_node n = inr n1 ->
  Tokyo.blinded n1
  /\ forall dets,
       Tokyo.Node.components n1 !! (Tokyo.Node.name n1 +:+ ".qsdetector")
       = Some (Tokyo.QSDetector dets) ->
       Forall (fun d => Tokyo.Detector.efficiency d = 1%Q
                        /\ Tokyo.Detector.dark_count_rate d = 5000000%Q) dets.
Proof.
  intros H. destruct (blind_node_inr _ _ H) as (Hname & Hd & He & Hcomp & _).
  rewrite Hname. split.
  - split; [done|]. split; [done|]. rewrite Hname. intros m.
    destruct Hcomp as [(dets & _ & ->)|[Hl ->]].
    + by rewrite lookup_insert_eq.
    + by rewrite Hl.
  - intros dets. destruct Hcomp as [(dets0 & _ & ->)|[Hl ->]].
    + rewrite lookup_insert_eq. intros [= <-].
      apply Forall_forall. intros d Hd'. apply list_elem_of_In in Hd'.
      apply in_map_iff in Hd' as (d0 & <- & _). done.
    + by rewrite Hl.
Qed.

Lemma extract_metrics_blinded (n' : Tokyo.Node.t) (link_name : string)
    (qc : Tokyo.QuantumChannel.t) (a b : option Tokyo.BB84.t) :
  Tokyo.blinded n' ->
  exists m,
    Tokyo.extract_metrics n' link_name qc a b = inr m
    /\ Tokyo.Metrics.detector_efficiency m = 1%Q
    /\ Tokyo.Metrics.dark_count_rate m = 5000000%Q.
Proof.
  intros (Hd & He & Hk). unfold Tokyo.extract_metrics.
  destruct (Tokyo.Node.components n' !! _) as [[m|[|d dets]]|] eqn:E;
    [by destruct (Hk m)| | |]; simpl; rewrite Hd, He; eexists; repeat split.
Qed.

(** C5. Once [_blind] has run on its target, every detector of the
    target's array has efficiency 1.0 and dark-count rate 5,000,000, and
    the same two values are cached on the node.  In every later state of
    the node in which that cache stands -- the program never deletes or
    reassigns it -- [extract_metrics] returns [detector_efficiency] 1.0
    and [dark_count_rate] 5,000,000 (of order 10^6), whatever the raw
    detectors, the protocols and the channel hold by then: the cached
    override is read in preference to the detector state. *)
Theorem blinding_override_read (t : string) (w w1 : Tokyo.World) (n' : Tokyo.Node.t)
    (link_name : string) (qc : Tokyo.QuantumChannel.t) (a b : option Tokyo.BB84.t) :
  Tokyo._blind t w = inr w1 ->
  Tokyo.blinded n' ->
  (exists n1,
     Tokyo.nodes w1 !! t = Some n1
     /\ Tokyo.blinded n1
     /\ forall dets,
          Tokyo.Node.components n1 !! (Tokyo.Node.name n1 +:+ ".qsdetector")
          = Some (Tokyo.QSDetector dets) ->
          Forall (fun d => Tokyo.Detector.efficiency d = 1%Q
                           /\ Tokyo.Detector.dark_count_rate d = 5000000%Q) dets)
  /\ (exists m,
        Tokyo.extract_metrics n' link_name qc a b = inr m
        /\ Tokyo.Metrics.detector_efficiency m = 1%Q
        /\ Tokyo.Metrics.dark_count_rate m = 5000000%Q)
  /\ (10 ^ 6 <= 5000000 < 10 ^ 7).
Proof.
  intros H Hb. split; [|split; [by apply extract_metrics_blinded|lia]].
  unfold Tokyo._blind in H.
  apply bind_inr in H as (n & Hn & H). apply bind_inr in H as (n1 & Hn1 & H).
  injection H as <-. exists n1. simpl. rewrite lookup_insert_eq.
  split; [done|]. by apply (blind_node_blinded n).
Qed.

Lemma blinding_override_read_witness :
  exists w s ev w1 n1 alice m,
    Tokyo.setup "blinding" = inr (w, s, ev)
    /\ ev = [Tokyo.mkEvent Tokyo.FAULT_START_PS "Otemachi" "_fault_blind" Tokyo.CbBlind]
    /\ Tokyo._blind "Otemachi" w = inr w1
    /\ Tokyo.nodes w1 !! "Otemachi" = Some n1
    /\ Tokyo.blinded n1
    /\ Tokyo.protos w1 !! "bb84_Otemachi_Hakusan_alice" = Some alice
    /\ Tokyo.extract_metrics n1 "Otemachi_Hakusan"
         (Tokyo.QuantumChannel.mk "qc_Otemachi_Hakusan" Tokyo.ATTENUATION 6000
            (Some "Otemachi") (Some "Hakusan"))
         (Some alice) None = inr m
    /\ Tokyo.Metrics.detector_efficiency m = 1%Q
    /\ Tokyo.Metrics.dark_count_rate m = 5000000%Q.
Proof.
  assert (H : match Tokyo.setup "blinding" with
              | inr (w, _, ev) =>
                  match Tokyo._blind "Otemachi" w with
                  | inr w1 =>
                      ev = [Tokyo.mkEvent Tokyo.FAULT_START_PS "Otemachi"
                              "_fault_blind" Tokyo.CbBlind]
                      /\ exists alice,
                           Tokyo.protos w1 !! "bb84_Otemachi_Hakusan_alice" = Some alice
                  | inl _ => False
                  end
              | inl _ => False
              end).
  { vm_compute. split; [reflexivity|]. eexists. reflexivity. }
  destruct (Tokyo.setup "blinding") as [e|[[w s] ev]] eqn:Es; [destruct H|].
  destruct (Tokyo._blind "Otemachi" w) as [e|w1] eqn:E1; [destruct H|].
  destruct H as [Hev [alice Ha]].
  assert (Hn1 : exists n1, Tokyo.nodes w1 !! "Otemachi" = Some n1 /\ Tokyo.blinded n1).
  { pose proof E1 as H. unfold Tokyo._blind in H.
    apply bind_inr in H as (n & Hn & H). apply bind_inr in H as (n1 & Hn1 & H).
    injection H as <-. exists n1. simpl. rewrite lookup_insert_eq.
    split; [done|]. by apply (blind_node_blinded n). }
  destruct Hn1 as (n1 & Hn1 & Hb).
  destruct (blinding_override_read "Otemachi" w w1 n1 "Otemachi_Hakusan"
              (Tokyo.QuantumChannel.mk "qc_Otemachi_Hakusan" Tokyo.ATTENUATION 6000
                 (Some "Otemachi") (Some "Hakusan"))
              (Some alice) None E1 Hb) as (_ & (m & Hm & Hme & Hmd) & _).
  exists w, s, ev, w1, n1, alice, m.
  split; [reflexivity|]. split; [exact Hev|]. split; [exact E1|]. split; [exact Hn1|].
  split; [exact Hb|]. split; [exact Ha|]. split; [exact Hm|]. split; [exact Hme|exact Hmd].
Defined.

(** ** build_network: the channel registries *)

(** [build_network] looks at its argument only to tell [degrade] from
    the rest. *)
Lemma add_link_fault_type (ft1 ft2 : string) l st :
  String.eqb ft1 "degrade" = String.eqb ft2 "degrade" ->
  Tokyo.add_link ft1 l st = Tokyo.add_link ft2 l st.
Proof.
  intros H. destruct l as [[a b] d]. destruct st as [ns lps].
  unfold Tokyo.add_link. by rewrite H.
Qed.

Lemma for_each_ext {A St : Type} (f g : A -> St -> result St) (l : list A) (s : St) :
  (forall x s, f x s = g x s) -> for_each f l s = for_each g l s.
Proof.
  intros H. revert s. induction l as [|x l IH]; intros s; simpl; [reflexivity|].
  rewrite H. destruct (g x s) as [e|s']; simpl; [reflexivity|apply IH].
Qed.

Lemma build_network_fault_type (ft : string) :
  Tokyo.build_network ft
  = Tokyo.build_network (if String.eqb ft "degrade" then "degrade" else "normal").
Proof.
  unfold Tokyo.build_network.
  destruct (for_each _ Tokyo.NODE_NAMES _) as [e|ns]; [reflexivity|].
  cbn [mbind result_bind].
  rewrite (for_each_ext (Tokyo.add_link ft)
             (Tokyo.add_link (if String.eqb ft "degrade" then "degrade" else "normal"))).
  - reflexivity.
  - intros l st. apply add_link_fault_type. by destruct (String.eqb ft "degrade").
Qed.

Lemma link_registered_sound (nodes : gmap string Tokyo.Node.t) (lp : Tokyo.LinkPair) :
  link_registered nodes lp = true ->
  exists node1 node2 cc_fwd cc_bwd,
    nodes !! Tokyo.n1 lp = Some node1
    /\ nodes !! Tokyo.n2 lp = Some node2
    /\ Tokyo.Node.qchannels node1 !! Tokyo.n2 lp = Some (Tokyo.qc lp)
    /\ Tokyo.QuantumChannel.sender (Tokyo.qc lp) = Some (Tokyo.n1 lp)
    /\ Tokyo.QuantumChannel.receiver (Tokyo.qc lp) = Some (Tokyo.n2 lp)
    /\ Tokyo.Node.cchannels node1 !! Tokyo.n2 lp = Some cc_fwd
    /\ Tokyo.ClassicalChannel.sender cc_fwd = Some (Tokyo.n1 lp)
    /\ Tokyo.ClassicalChannel.receiver cc_fwd = Some (Tokyo.n2 lp)
    /\ Tokyo.Node.cchannels node2 !! Tokyo.n1 lp = Some cc_bwd
    /\ Tokyo.ClassicalChannel.sender cc_bwd = Some (Tokyo.n2 lp)
    /\ Tokyo.ClassicalChannel.receiver cc_bwd = Some (Tokyo.n1 lp)
    /\ Tokyo.Node.qchannels node2 !! Tokyo.n1 lp = None.
Proof.
  unfold link_registered.
  destruct (nodes !! Tokyo.n1 lp) as [node1|]; [|discriminate].
  destruct (nodes !! Tokyo.n2 lp) as [node2|]; [|discriminate].
  destruct (Tokyo.Node.cchannels node1 !! Tokyo.n2 lp) as [cc_fwd|] eqn:Ef;
    [|by rewrite !andb_false_r].
  destruct (Tokyo.Node.cchannels node2 !! Tokyo.n1 lp) as [cc_bwd|] eqn:Eb;
    [|by rewrite !andb_false_r].
  rewrite !andb_true_iff, !bool_decide_eq_true.
  intros (((((? & ?) & ?) & ? & ?) & ? & ?) & ?).
  exists node1, node2, cc_fwd, cc_bwd. repeat split; first [assumption|reflexivity].
Qed.

Lemma network_checked_true (degrade : bool) :
  network_checked (if degrade then "degrade" else "normal") = true.
Proof. destruct degrade; vm_compute; reflexivity. Qed.

(** C9 as stated fails at the receiving end of a link: the first declared
    link is Koganei_A -> Koganei_B, and the quantum-channel registry of
    Koganei_B has no entry under Koganei_A. *)
Lemma receiver_has_no_quantum_entry :
  exists nodes lps lp,
    Tokyo.build_network "normal" = inr (nodes, lps)
    /\ In lp lps
    /\ (Tokyo.n1 lp, Tokyo.n2 lp) = ("Koganei_A", "Koganei_B")
    /\ ~ (exists node2 q,
            nodes !! Tokyo.n2 lp = Some node2
            /\ Tokyo.Node.qchannels node2 !! Tokyo.n1 lp = Some q).
Proof.
  pose proof (network_checked_true false) as H. unfold network_checked in H.
  destruct (Tokyo.build_network "normal") as [e|[nodes lps]] eqn:E; [discriminate|].
  assert (Hh : match Tokyo.build_network "normal" with
               | inr (_, lp :: _) => (Tokyo.n1 lp, Tokyo.n2 lp) = ("Koganei_A", "Koganei_B")
               | _ => False
               end) by (by vm_compute).
  rewrite E in Hh. destruct lps as [|lp lps]; [done|].
  exists nodes, (lp :: lps), lp. split; [reflexivity|]. split; [by left|]. split; [done|].
  apply andb_true_iff in H as [_ H]. simpl in H. apply andb_true_iff in H as [H _].
  apply link_registered_sound in H as (n1' & n2' & cf & cb & _ & Hn2 & _ & _ & _ & _ & _ & _ & _ & _ & _ & Hq).
  intros (node2 & q & Hn & Hq'). rewrite Hn2 in Hn. injection Hn as Hn.
  rewrite <- Hn, Hq in Hq'. discriminate.
Qed.

(** C9, amended.  [build_network] returns, with one entry of
    [link_pairs] per declared link, in order, and as many quantum-channel
    registry entries over all nodes as there are links.  For every link
    (n1, n2): the registry of n1 holds the link's quantum channel under
    n2, and the forward classical channel under n2; the registry of n2
    holds the backward classical channel under n1.  The quantum channel
    is filed at its sender only: n2 has no quantum-channel entry under
    n1. *)
Theorem build_network_registries (fault_type : string) :
  exists nodes lps,
    Tokyo.build_network fault_type = inr (nodes, lps)
    /\ List.map (fun lp => (Tokyo.n1 lp, Tokyo.n2 lp,
                            Tokyo.QuantumChannel.distance (Tokyo.qc lp))) lps
       = Tokyo.LINKS
    /\ map_fold (fun _ n acc => (size (Tokyo.Node.qchannels n) + acc)%nat) O nodes
       = List.length Tokyo.LINKS
    /\ forall lp, In lp lps ->
         exists node1 node2 cc_fwd cc_bwd,
           nodes !! Tokyo.n1 lp = Some node1
           /\ nodes !! Tokyo.n2 lp = Some node2
           /\ Tokyo.Node.qchannels node1 !! Tokyo.n2 lp = Some (Tokyo.qc lp)
           /\ Tokyo.QuantumChannel.sender (Tokyo.qc lp) = Some (Tokyo.n1 lp)
           /\ Tokyo.QuantumChannel.receiver (Tokyo.qc lp) = Some (Tokyo.n2 lp)
           /\ Tokyo.Node.cchannels node1 !! Tokyo.n2 lp = Some cc_fwd
           /\ Tokyo.ClassicalChannel.sender cc_fwd = Some (Tokyo.n1 lp)
           /\ Tokyo.ClassicalChannel.receiver cc_fwd = Some (Tokyo.n2 lp)
           /\ Tokyo.Node.cchannels node2 !! Tokyo.n1 lp = Some cc_bwd
           /\ Tokyo.ClassicalChannel.sender cc_bwd = Some (Tokyo.n2 lp)
           /\ Tokyo.ClassicalChannel.receiver cc_bwd = Some (Tokyo.n1 lp)
           /\ Tokyo.Node.qchannels node2 !! Tokyo.n1 lp = None.
Proof.
  rewrite build_network_fault_type.
  pose proof (network_checked_true (String.eqb fault_type "degrade")) as H.
  unfold network_checked in H.
  destruct (Tokyo.build_network _) as [e|[nodes lps]]; [discriminate|].
  apply andb_true_iff in H as [H Hl]. apply andb_true_iff in H as [Hm Hs].
  apply bool_decide_eq_true in Hm, Hs.
  exists nodes, lps. split; [reflexivity|]. split; [done|]. split; [done|].
  intros lp Hin. apply link_registered_sound.
  rewrite forallb_forall in Hl. by apply Hl.
Qed.

(** ** The sampler: labels *)

Lemma for_each_inr {A St : Type} (body : A -> St -> result St) (P : St -> St -> Prop)
    (l : list A) (s s' : St) :
  (forall s, P s s) ->
  (forall s1 s2 s3, P s1 s2 -> P s2 s3 -> P s1 s3) ->
  (forall x s1 s2, body x s1 = inr s2 -> P s1 s2) ->
  for_each body l s = inr s' -> P s s'.
Proof.
  intros Hrefl Htrans Hstep. revert s.
  induction l as [|x l IH]; intros s H; simpl in H.
  - injection H as <-. apply Hrefl.
  - apply bind_inr in H as (s1 & H1 & H). eapply Htrans; eauto.
Qed.

Lemma sample_link_batch (s : Tokyo.MetricsSampler) (w : Tokyo.World) (t : Z)
    (lp : Tokyo.LinkPair) (rs rs' : list Tokyo.Row.t) :
  Tokyo.sample_link s w t lp rs = inr rs' -> batch_of s t rs rs'.
Proof.
  unfold Tokyo.sample_link. intros H.
  apply bind_inr in H as ([alice bob] & _ & H).
  apply bind_inr in H as (node & _ & H).
  apply bind_inr in H as (a & _ & H). apply bind_inr in H as (b & _ & H).
  apply bind_inr in H as (m & _ & H). injection H as <-.
  unfold Tokyo.record. eexists. split; [reflexivity|].
  constructor; [|constructor]. by split.
Qed.

Lemma sample_batch (s : Tokyo.MetricsSampler) (w : Tokyo.World) (t : Z)
    (rs rs' : list Tokyo.Row.t) (next : option Z) :
  Tokyo.sample s w t rs = inr (rs', next) ->
  batch_of s t rs rs' /\ next = Tokyo._schedule_next s (t + Tokyo.interval s).
Proof.
  unfold Tokyo.sample. intros H. apply bind_inr in H as (rs1 & H1 & H).
  injection H as <- <-. split; [|reflexivity].
  revert H1. apply for_each_inr.
  - intros r. exists []. by rewrite app_nil_r.
  - intros r1 r2 r3 (n1 & -> & F1) (n2 & -> & F2). exists (n1 ++ n2)%list.
    split; [by rewrite app_assoc|]. by apply Forall_app.
  - intros lp r1 r2. apply sample_link_batch.
Qed.

Lemma dispatch_None (env : Z -> Tokyo.World) (s : Tokyo.MetricsSampler) (n : nat)
    (rs : list Tokyo.Row.t) :
  Tokyo.dispatch env s n None rs = inr rs.
Proof. by destruct n. Qed.

Lemma sorted_batch_app (t : Z) (batch new : list Tokyo.Row.t) :
  Forall (fun r => Tokyo.Row.timestamp_ps r = t) batch ->
  Forall (fun r => t <= Tokyo.Row.timestamp_ps r) new ->
  StronglySorted (fun a b => Tokyo.Row.timestamp_ps a <= Tokyo.Row.timestamp_ps b) new ->
  StronglySorted (fun a b => Tokyo.Row.timestamp_ps a <= Tokyo.Row.timestamp_ps b)
    (batch ++ new)%list.
Proof.
  intros Hb Hnew Hs. induction Hb as [|r batch Hr Hb IHb]; simpl; [done|].
  constructor; [exact IHb|]. apply Forall_app. split.
  - eapply Forall_impl; [exact Hb|]. simpl. intros r' ->. lia.
  - eapply Forall_impl; [exact Hnew|]. simpl. intros r' Hr'. lia.
Qed.

(** The rows a chain of dispatches adds: labelled by time, not earlier
    than the pending event, in time order. *)
Lemma dispatch_rows (env : Z -> Tokyo.World) (s : Tokyo.MetricsSampler) (n : nat)
    (next : option Z) (rs out : list Tokyo.Row.t) :
  0 <= Tokyo.interval s ->
  Tokyo.dispatch env s n next rs = inr out ->
  exists new,
    out = (rs ++ new)%list
    /\ Forall (fun r => Tokyo.Row.label r
                        = Tokyo.sampler_label_fn s (Tokyo.Row.timestamp_ps r)) new
    /\ (forall t0, next = Some t0 -> Forall (fun r => t0 <= Tokyo.Row.timestamp_ps r) new)
    /\ StronglySorted (fun a b => Tokyo.Row.timestamp_ps a <= Tokyo.Row.timestamp_ps b) new.
Proof.
  intros Hi. revert next rs. induction n as [|n IH]; intros next rs H.
  - simpl in H. injection H as <-. exists []. rewrite app_nil_r.
    repeat split; constructor.
  - destruct next as [t|]; simpl in H.
    2:{ injection H as <-. exists []. rewrite app_nil_r. repeat split; constructor. }
    apply bind_inr in H as ([rs1 next1] & Hs & H).
    apply sample_batch in Hs as [(batch & -> & Hb) ->].
    pose proof H as H'.
    apply IH in H as (new & -> & Hl & Hge & Hsorted).
    exists (batch ++ new)%list. split; [by rewrite app_assoc|].
    assert (Hnew : Forall (fun r => t <= Tokyo.Row.timestamp_ps r) new).
    { unfold Tokyo._schedule_next in *.
      destruct (t + Tokyo.interval s <=? Tokyo.duration s) eqn:E.
      - eapply Forall_impl; [exact (Hge _ eq_refl)|]. simpl. intros r Hr. lia.
      - rewrite dispatch_None in H'. injection H' as H'. destruct new; [constructor|].
        apply (f_equal (@List.length _)) in H'. rewrite !length_app in H'.
        simpl in H'. lia. }
    split; [|split].
    + apply Forall_app. split; [|done].
      eapply Forall_impl; [exact Hb|]. simpl. by intros r [-> ->].
    + intros t0 [= <-]. apply Forall_app. split; [|done].
      eapply Forall_impl; [exact Hb|]. simpl. intros r [-> _]. lia.
    + eapply sorted_batch_app; eauto.
      eapply Forall_impl; [exact Hb|]. simpl. by intros r [-> _].
Qed.

Lemma setup_sampler (fault_type : string) (w : Tokyo.World) (s : Tokyo.MetricsSampler)
    (ev : list Tokyo.Event) :
  Tokyo.setup fault_type = inr (w, s, ev) ->
  exists lps bmap, s = Tokyo.make_sampler fault_type lps bmap.
Proof.
  unfold Tokyo.setup. intros H.
  apply bind_inr in H as ([ns lps] & _ & H).
  apply bind_inr in H as ([w' bmap] & _ & H).
  apply bind_inr in H as (evs & _ & H). injection H as _ <- _. eauto.
Qed.

(** C1. In a run for any fault scenario, after any number of sampler
    events dispatched by the timeline and whatever the network does
    meanwhile, every recorded sample carries the label the labelling
    function gives its timestamp: [normal] strictly before the trigger
    time, the scenario's name at or after it.  The samples are recorded
    in time order, so once a sample at or after the trigger time is
    recorded every later sample carries the scenario's name. *)
Theorem sampler_labels_by_time (fault_type : string) (env : Z -> Tokyo.World)
    (lps : list Tokyo.LinkPair) (bmap : gmap string (string * string))
    (n : nat) (out : list Tokyo.Row.t) :
  Tokyo.dispatch env (Tokyo.make_sampler fault_type lps bmap) n
    (Tokyo.init (Tokyo.make_sampler fault_type lps bmap)) [] = inr out ->
  (forall r, In r out ->
     Tokyo.Row.label r = Tokyo.label_fn fault_type (Tokyo.Row.timestamp_ps r)
     /\ (Tokyo.Row.timestamp_ps r < Tokyo.FAULT_START_PS -> Tokyo.Row.label r = "normal")
     /\ (Tokyo.FAULT_START_PS <= Tokyo.Row.timestamp_ps r -> Tokyo.Row.label r = fault_type))
  /\ (forall i j ri rj, (i <= j)%nat -> out !! i = Some ri -> out !! j = Some rj ->
        Tokyo.Row.timestamp_ps ri <= Tokyo.Row.timestamp_ps rj
        /\ (Tokyo.FAULT_START_PS <= Tokyo.Row.timestamp_ps ri ->
            Tokyo.Row.label rj = fault_type)).
Proof.
  intros H. apply dispatch_rows in H as (new & Hout & Hl & _ & Hs); [|done].
  simpl in Hout. subst new.
  assert (Hlab : forall r, In r out ->
            Tokyo.Row.label r = Tokyo.label_fn fault_type (Tokyo.Row.timestamp_ps r)).
  { intros r Hr. rewrite Forall_forall in Hl. apply Hl. by apply list_elem_of_In. }
  assert (Hcases : forall r, In r out ->
            (Tokyo.Row.timestamp_ps r < Tokyo.FAULT_START_PS -> Tokyo.Row.label r = "normal")
            /\ (Tokyo.FAULT_START_PS <= Tokyo.Row.timestamp_ps r ->
                Tokyo.Row.label r = fault_type)).
  { intros r Hr. rewrite (Hlab r Hr). unfold Tokyo.label_fn.
    destruct (Tokyo.FAULT_START_PS <=? Tokyo.Row.timestamp_ps r) eqn:E.
    - apply Z.leb_le in E. split; [lia|done].
    - apply Z.leb_gt in E. split; [done|lia]. }
  split.
  - intros r Hr. split; [by apply Hlab|by apply Hcases].
  - intros i j ri rj Hij Hi Hj.
    assert (Hle : Tokyo.Row.timestamp_ps ri <= Tokyo.Row.timestamp_ps rj).
    { destruct (decide (i = j)) as [->|Hne].
      - rewrite Hi in Hj. injection Hj as ->. lia.
      - apply (StronglySorted_lookup
                 (fun a b => Tokyo.Row.timestamp_ps a <= Tokyo.Row.timestamp_ps b)
                 out i j ri rj Hs); [lia|done|done]. }
    split; [done|]. intros Ht.
    apply Hcases; [|lia]. apply list_elem_of_In. by eapply list_elem_of_lookup_2.
Qed.

Lemma sampler_labels_by_time_witness :
  exists w lps bmap ev out before after,
    Tokyo.setup "qber" = inr (w, Tokyo.make_sampler "qber" lps bmap, ev)
    /\ Tokyo.dispatch (fun _ => w) (Tokyo.make_sampler "qber" lps bmap) 200
         (Tokyo.init (Tokyo.make_sampler "qber" lps bmap)) [] = inr out
    /\ List.length out = 400%nat
    /\ out !! 195%nat = Some before
    /\ out !! 196%nat = Some after
    /\ Tokyo.Row.timestamp_ps before = 490000000000
    /\ Tokyo.Row.label before = "normal"
    /\ Tokyo.Row.timestamp_ps after = Tokyo.FAULT_START_PS
    /\ Tokyo.Row.label after = "qber".
Proof.
  assert (H : match Tokyo.setup "qber" with
              | inr (w, s, _) =>
                  match Tokyo.dispatch (fun _ => w) s 200 (Tokyo.init s) [] with
                  | inr out =>
                      List.length out = 400%nat
                      /\ match out !! 195%nat, out !! 196%nat with
                         | Some before, Some after =>
                             Tokyo.Row.timestamp_ps before = 490000000000
                             /\ Tokyo.Row.timestamp_ps after = Tokyo.FAULT_START_PS
                         | _, _ => False
                         end
                  | inl _ => False
                  end
              | inl _ => False
              end).
  { vm_compute. split; [reflexivity|]. split; reflexivity. }
  destruct (Tokyo.setup "qber") as [e|[[w s] ev]] eqn:Es; [destruct H|].
  destruct (setup_sampler _ _ _ _ Es) as (lps & bmap & ->).
  destruct (Tokyo.dispatch _ _ _ _ _) as [e|out] eqn:Ed; [destruct H|].
  destruct H as [Hlen H].
  destruct (out !! 195%nat) as [before|] eqn:Eb; [|destruct H].
  destruct (out !! 196%nat) as [after|] eqn:Ea; [|destruct H].
  destruct H as [Hb Ha].
  destruct (sampler_labels_by_time "qber" (fun _ => w) lps bmap 200 out Ed) as [Hl _].
  exists w, lps, bmap, ev, out, before, after.
  split; [reflexivity|]. split; [exact Ed|]. split; [exact Hlen|].
  split; [exact Eb|]. split; [exact Ea|]. split; [exact Hb|].
  split.
  { apply (Hl before).
    - apply list_elem_of_In. by eapply list_elem_of_lookup_2.
    - rewrite Hb. reflexivity. }
  split; [exact Ha|].
  apply (Hl after).
  - apply list_elem_of_In. by eapply list_elem_of_lookup_2.
  - rewrite Ha. apply Z.le_refl.
Defined.

(** * Further properties of the code *)

(** ** generate_dataset.py *)

Lemma main_row_counts_witness :
  let row := mkSample 10000000000 "Koganei_A_Koganei_B" "Koganei_A"
               0 0 0 256 0 100 (8 # 10) 0 0 "normal" 0 in
  let data_dir : Dir :=
    [ ("dataset_trojan.csv", [row; row; row]); ("dataset_normal.csv", [row]);
      ("dataset_qber.csv", [row; row]) ] in
  data_dir <> []
  /\ (forall c, In c data_dir -> fst c ∈ EXPECTED_FILES /\ snd c <> [])
  /\ List.NoDup (List.map fst data_dir)
  /\ exists out,
       written (main data_dir) = Some out
       /\ List.length out = 6%nat
       /\ count_label "trojan" out = 3%nat
       /\ count_label "qber" out = 2%nat.
Proof.
  intros row data_dir.
  assert (H1 : data_dir <> []) by discriminate.
  assert (H2 : forall c, In c data_dir -> fst c ∈ EXPECTED_FILES /\ snd c <> []).
  { intros c [<-|[<-|[<-|[]]]]; (split; [|discriminate]);
      apply expected_names; simpl; tauto. }
  assert (H3 : List.NoDup (List.map fst data_dir)).
  { repeat constructor; simpl; intros H;
      repeat destruct H as [H|H]; try discriminate H; destruct H. }
  split; [exact H1|]. split; [exact H2|]. split; [exact H3|].
  destruct (main_row_counts data_dir H1 H2 H3) as (out & Hw & _ & Hlen & Hc).
  exists out. split; [exact Hw|]. split; [exact Hlen|]. split.
  - apply (Hc "trojan" [row; row; row]); simpl; tauto.
  - apply (Hc "qber" [row; row]); simpl; tauto.
Defined.

(** X2. The consolidated rows are the input rows, each once, in the order of
    (fault label, link, timestamp). *)
Theorem engineer_features_sorted_rows (df : list Labelled) :
  Permutation (List.map base (engineer_features df)) df
  /\ StronglySorted (fun a b => row_leb a b = true) (List.map base (engineer_features df))
  /\ List.length (engineer_features df) = List.length df.
Proof.
  rewrite engineer_features_base. split; [apply isort_Permutation|].
  split; [|apply engineer_features_length].
  apply isort_StronglySorted; [apply row_leb_total|apply row_leb_trans].
Qed.

(** *** Groups do not see each other *)

Lemma same_group_iff (a b : Labelled) :
  same_group a b = true <->
  fault_name a = fault_name b /\ link (sample a) = link (sample b).
Proof. unfold same_group. by rewrite andb_true_iff, !String.eqb_eq. Qed.

Lemma same_group_shift (g r x : Labelled) :
  same_group g r = true -> same_group r x = same_group g x.
Proof.
  intros H. apply same_group_iff in H as [H1 H2].
  unfold same_group. by rewrite H1, H2.
Qed.

Lemma same_group_true_inv (g r x : Labelled) :
  same_group g r = true -> same_group r x = true -> same_group g x = true.
Proof. intros H. by rewrite (same_group_shift g r x H). Qed.

Section FilterSort.
Context {A : Type} (leb : A -> A -> bool) (P : A -> bool).
Hypothesis leb_total : forall a b, leb a b = false -> leb b a = true.
Hypothesis leb_trans : forall a b c, leb a b = true -> leb b c = true -> leb a c = true.

Lemma insert_sorted_head (x : A) (l : list A) :
  Forall (fun y => leb x y = true) l -> insert_sorted leb x l = x :: l.
Proof. intros H. destruct H as [|y l Hy _]; simpl; [reflexivity|]. by rewrite Hy. Qed.

Lemma filter_insert_sorted (x : A) (l : list A) :
  StronglySorted (fun a b => leb a b = true) l ->
  List.filter P (insert_sorted leb x l)
  = if P x then insert_sorted leb x (List.filter P l) else List.filter P l.
Proof.
  induction 1 as [|y l Hs IH Hall]; simpl.
  - by destruct (P x).
  - destruct (leb x y) eqn:E; simpl.
    + destruct (P x) eqn:Px; [|reflexivity].
      symmetry. apply insert_sorted_head.
      assert (Hx : Forall (fun z => leb x z = true) (y :: l)).
      { constructor; [done|]. eapply Forall_impl; [exact Hall|].
        intros z Hz. by eapply leb_trans. }
      change (Forall (fun z => leb x z = true) (List.filter P (y :: l))).
      rewrite Forall_forall in Hx. apply Forall_forall. intros z Hz.
      apply Hx. apply list_elem_of_In in Hz. apply filter_In in Hz as [Hz _].
      by apply list_elem_of_In.
    + rewrite IH. destruct (P y) eqn:Py, (P x) eqn:Px; simpl; rewrite ?E; reflexivity.
Qed.

Lemma filter_isort (l : list A) :
  List.filter P (isort leb l) = isort leb (List.filter P l).
Proof.
  induction l as [|x l IH]; simpl; [reflexivity|].
  rewrite filter_insert_sorted by (by apply isort_StronglySorted).
  destruct (P x); simpl; by rewrite IH.
Qed.
End FilterSort.

Lemma derive_all_filter (g : Labelled) (above rows : list Labelled) :
  List.filter (fun r => same_group g (base r)) (derive_all above rows)
  = derive_all (List.filter (same_group g) above) (List.filter (same_group g) rows).
Proof.
  revert above. induction rows as [|r rows IH]; intros above; simpl; [reflexivity|].
  destruct (same_group g r) eqn:Hg; simpl.
  - rewrite IH. simpl. rewrite Hg. f_equal. f_equal.
    unfold group_history. 
    induction above as [|x above IHa]; simpl; [reflexivity|].
    rewrite (same_group_shift g r x Hg).
    destruct (same_group g x) eqn:Hx; simpl.
    + rewrite (same_group_shift g r x Hg), Hx. by rewrite IHa.
    + exact IHa.
  - rewrite IH. simpl. by rewrite Hg.
Qed.

(** X3. The derived columns of a group are computed from the rows of that
    group alone: keeping one (fault label, link) group of the
    consolidated table is the same as consolidating only the rows of that
    group.  No window or difference reaches across a group boundary. *)
Theorem engineer_features_group_local (g : Labelled) (df : list Labelled) :
  List.filter (fun r => same_group g (base r)) (engineer_features df)
  = engineer_features (List.filter (same_group g) df).
Proof.
  unfold engineer_features. rewrite derive_all_filter. simpl.
  unfold sort_values. f_equal.
  apply filter_isort; [apply row_leb_total|apply row_leb_trans].
Qed.

(** *** What [main] writes *)

Lemma load_frames_inr (cs : Dir) (out out' : list Msg) (frames frames' : list (list Labelled)) :
  load_frames cs out frames = inr (out', frames') ->
  frames' = (frames ++ List.map load cs)%list /\ forall c, In c cs -> snd c <> [].
Proof.
  revert out frames. induction cs as [|[c content] cs IH]; intros out frames H; simpl in H.
  - injection H as _ <-. split; [by rewrite app_nil_r|]. intros c [].
  - destruct (iloc0 (load_and_label c content)) as [e|lbl] eqn:E; [discriminate|].
    apply IH in H as [-> Hne]. split; [by rewrite <- app_assoc|].
    intros c' [<-|Hc']; [|by apply Hne]. simpl. intros ->.
    unfold iloc0, load_and_label, assign_label in E.
    destruct (match_stem _ _) as [[? ?]|]; discriminate.
Qed.

Lemma main_written (data_dir : Dir) (out : list Feature) :
  written (main data_dir) = Some out ->
  let valid := List.filter (fun c => expected (fst c)) data_dir in
  valid <> []
  /\ (forall c, In c valid -> snd c <> [])
  /\ out = engineer_features
             (List.concat (List.map load
                (isort (fun a b => String.leb (fst a) (fst b)) valid)))
  /\ raised (main data_dir) = None.
Proof.
  intros H valid. unfold main in *. rewrite valid_csvs_filter in *. fold valid in H |- *.
  destruct valid as [|c0 v0] eqn:Ev; [discriminate|]. rewrite <- Ev in *.
  rewrite load_frames_out in *.
  destruct (load_frames _ [] []) as [[e o]|[o fr]] eqn:El; [discriminate|].
  apply load_frames_inr in El as [-> Hne]. simpl in H. injection H as <-.
  split; [by rewrite Ev|]. split.
  { intros c Hc. apply Hne. by rewrite isort_Permutation. }
  split; reflexivity.
Qed.

(** X4. Every row [main] writes carries a canonical label with its own
    numeric id, and comes from an expected file named after that label:
    the [normal] fallback of [load_and_label] is never taken for a file
    that passes the filter. *)
Theorem main_output_labels (data_dir : Dir) (out : list Feature) (r : Feature) :
  written (main data_dir) = Some out -> In r out ->
  In (fault_name (base r), fault_id (sample (base r))) FAULT_LABELS
  /\ exists content s,
       In (dataset_file (fault_name (base r)), content) data_dir
       /\ In s content
       /\ sample (base r) = set_fault_id (fault_id (sample (base r))) s
       /\ match_stem (stem (dataset_file (fault_name (base r)))) FAULT_LABELS
          = Some (fault_name (base r), fault_id (sample (base r))).
Proof.
  intros Hw Hr. apply main_written in Hw as (_ & _ & -> & _).
  apply (in_map base) in Hr. rewrite engineer_features_base in Hr.
  unfold sort_values in Hr. rewrite isort_Permutation in Hr.
  apply in_concat in Hr as (frame & Hf & Hr).
  apply in_map_iff in Hf as ([name content] & <- & Hc).
  rewrite isort_Permutation in Hc. apply filter_In in Hc as [Hc He].
  simpl in He. apply expected_true, expected_names in He.
  unfold load, load_and_label in Hr. simpl fst in Hr. simpl snd in Hr.
  simpl in He.
  repeat destruct He as [<-|He]; try destruct He;
    vm_compute match_stem in Hr; unfold assign_label in Hr;
    apply in_map_iff in Hr as (s & <- & Hs); cbn [fault_name base sample fault_id set_fault_id];
    (split; [simpl; tauto|]); exists content, s;
    (split; [exact Hc|]); (split; [exact Hs|]); split; reflexivity.
Qed.

Lemma main_output_labels_witness :
  let row := mkSample 10000000000 "Koganei_A_Koganei_B" "Koganei_A"
               0 0 0 256 0 100 (8 # 10) 0 0 "normal" 0 in
  let data_dir : Dir := [("dataset_trojan.csv", [row]); ("dataset_other.csv", [row])] in
  exists out r,
    written (main data_dir) = Some out /\ In r out
    /\ In (fault_name (base r), fault_id (sample (base r))) FAULT_LABELS
    /\ fault_name (base r) = "trojan".
Proof.
  intros row data_dir.
  assert (H : match written (main data_dir) with
              | Some (r :: _) => fault_name (base r) = "trojan"
              | _ => False
              end) by (vm_compute; reflexivity).
  destruct (written (main data_dir)) as [[|r out]|] eqn:Ew; try destruct H.
  exists (r :: out), r.
  destruct (main_output_labels data_dir (r :: out) r Ew (or_introl eq_refl)) as [Hl _].
  split; [reflexivity|]. split; [by left|]. split; [exact Hl|reflexivity].
Defined.

Lemma load_frames_msgs (cs : Dir) (out out' : list Msg) (frames frames' : list (list Labelled)) :
  load_frames cs out frames = inr (out', frames') ->
  forall m, In m out' -> In m out \/ exists c n l, m = MsgFile c n l.
Proof.
  revert out frames. induction cs as [|[c content] cs IH]; intros out frames H m Hm; simpl in H.
  - injection H as <- _. by left.
  - destruct (iloc0 (load_and_label c content)) as [e|lbl]; [discriminate|].
    destruct (IH _ _ H m Hm) as [[<-|Hin]|Hex]; eauto.
Qed.

Lemma missing_names (data_dir : Dir) :
  EXPECTED_FILES ∖ list_to_set (List.map fst (List.filter (fun c => expected (fst c)) (glob data_dir)))
  = EXPECTED_FILES ∖ (list_to_set (List.map fst data_dir) : gset string).
Proof.
  rewrite valid_csvs_filter. apply set_eq. intros x.
  rewrite !elem_of_difference, !elem_of_list_to_set, !list_elem_of_In, !in_map_iff.
  split; intros [Hx Hn]; (split; [done|]); intros ([n c] & <- & Hc); apply Hn.
  - exists (n, c). split; [done|]. apply filter_In. split; [done|].
    by apply expected_true.
  - exists (n, c). split; [done|]. by apply filter_In in Hc as [? _].
Qed.

(** X5. A run that has at least one valid file and loads it goes through to
    [to_csv] even when expected files are absent: the absent ones are
    exactly what the "missing" line lists, the line is printed if and
    only if some are absent, and the run ends with the "saved" line. *)
Theorem main_reports_missing (data_dir : Dir) (out : list Feature) :
  written (main data_dir) = Some out ->
  let missing : gset string := EXPECTED_FILES ∖ list_to_set (List.map fst data_dir) in
  raised (main data_dir) = None
  /\ List.last (stdout (main data_dir)) MsgNoValid = MsgSaved
  /\ (missing <> ∅ ->
      In (MsgMissing (sorted_names (elements missing))) (stdout (main data_dir)))
  /\ (forall names, In (MsgMissing names) (stdout (main data_dir)) ->
      missing <> ∅ /\ names = sorted_names (elements missing)).
Proof.
  intros H missing. split; [by apply main_written in H as (_ & _ & _ & ?)|].
  unfold main in *. rewrite missing_names in *. fold missing in H |- *.
  destruct (List.filter (fun c => expected (fst c)) (glob data_dir)) as [|c0 v0];
    [discriminate|].
  rewrite load_frames_out in *.
  destruct (load_frames _ [] []) as [[e o]|[o fr]] eqn:El; [discriminate|].
  cbn [stdout]. split; [by rewrite last_last|]. split.
  - intros Hne. rewrite bool_decide_eq_false_2 by done.
    apply in_or_app. left. apply in_or_app. right. apply in_or_app. right.
    by left.
  - intros names Hin. apply in_app_or in Hin as [Hin|[Hin|[]]]; [|discriminate].
    apply in_app_or in Hin as [Hin|Hin].
    + exfalso. rewrite <- in_rev in Hin. apply in_app_or in Hin as [Hin|Hin].
      * destruct (load_frames_msgs _ _ _ _ _ El _ Hin) as [[]|(c & n & l & Hm)].
        discriminate.
      * destruct Hin as [Hin|Hin]; [discriminate|]. rewrite <- in_rev in Hin.
        destruct (List.map fst (List.filter _ _)); simpl in Hin; [done|].
        destruct Hin as [Hin|[]]. discriminate.
    + apply in_app_or in Hin as [Hin|Hin].
      { simpl in Hin. repeat destruct Hin as [Hin|Hin]; try discriminate. destruct Hin. }
      destruct (bool_decide (missing = ∅)) eqn:Eb; [destruct Hin|].
      apply bool_decide_eq_false in Eb. split; [done|].
      destruct Hin as [[= <-]|[Hin|[]]]; [done|discriminate].
Qed.

Lemma main_reports_missing_witness :
  let row := mkSample 10000000000 "Koganei_A_Koganei_B" "Koganei_A"
               0 0 0 256 0 100 (8 # 10) 0 0 "normal" 0 in
  let data_dir : Dir := [("dataset_trojan.csv", [row]); ("dataset_normal.csv", [row])] in
  exists out,
    written (main data_dir) = Some out
    /\ In (MsgMissing ["dataset_blinding.csv"; "dataset_degrade.csv";
                       "dataset_node_fail.csv"; "dataset_qber.csv"])
         (stdout (main data_dir)).
Proof.
  intros row data_dir.
  assert (H : match written (main data_dir) with
              | Some _ =>
                  sorted_names (elements (EXPECTED_FILES ∖ list_to_set (List.map fst data_dir)))
                  = ["dataset_blinding.csv"; "dataset_degrade.csv";
                     "dataset_node_fail.csv"; "dataset_qber.csv"]
              | None => False
              end) by (vm_compute; reflexivity).
  destruct (written (main data_dir)) as [out|] eqn:Ew; [|destruct H].
  exists out. split; [reflexivity|].
  destruct (main_reports_missing data_dir out Ew) as (_ & _ & Hm & _).
  rewrite <- H. apply Hm. intros He. rewrite He in H. vm_compute in H. discriminate H.
Defined.

(** ** tokyo_qkd_simulation.py: the extractor *)

Lemma py_min_max_range (q : Q) :
  (0 <= Tokyo.py_max 0 (Tokyo.py_min 1 q))%Q /\ (Tokyo.py_max 0 (Tokyo.py_min 1 q) <= 1)%Q.
Proof.
  unfold Tokyo.py_max, Tokyo.py_min.
  destruct (Qle_bool 1 q) eqn:E1.
  - simpl. split; discriminate.
  - destruct (Qle_bool q 0) eqn:E2.
    + split; [apply Qle_refl|discriminate].
    + split.
      * apply Qnot_lt_le. intros Hlt. apply Qlt_le_weak, Qle_bool_iff in Hlt. congruence.
      * apply Qnot_lt_le. intros Hlt. apply Qlt_le_weak, Qle_bool_iff in Hlt. congruence.
Qed.

Lemma py_min_max_id (q : Q) :
  (0 <= q)%Q -> (q <= 1)%Q -> (Tokyo.py_max 0 (Tokyo.py_min 1 q) == q)%Q.
Proof.
  intros H0 H1. unfold Tokyo.py_max, Tokyo.py_min.
  destruct (Qle_bool 1 q) eqn:E1.
  - simpl. apply Qle_bool_iff in E1. by apply Qle_antisym.
  - destruct (Qle_bool q 0) eqn:E2; [|reflexivity].
    apply Qle_bool_iff in E2. by apply Qle_antisym.
Qed.

(** Rounding to the nearest integer stays within integer bounds. *)
Lemma py_round_bounds (x : Q) (lo hi : Z) :
  (inject_Z lo <= x)%Q -> (x <= inject_Z hi)%Q -> lo <= py_round x <= hi.
Proof.
  intros Hlo Hhi. unfold py_round.
  pose proof (Qfloor_le x) as Hf. pose proof (Qlt_floor x) as Hc.
  assert (Hfl : lo <= Qfloor x).
  { apply Qfloor_resp_le in Hlo. by rewrite Qfloor_Z in Hlo. }
  assert (Hfh : Qfloor x <= hi).
  { apply Qfloor_resp_le in Hhi. by rewrite Qfloor_Z in Hhi. }
  assert (Hup : ~ (x - inject_Z (Qfloor x) == 0)%Q -> Qfloor x + 1 <= hi).
  { intros Hnz. destruct (Z.eq_dec (Qfloor x) hi) as [E|]; [|lia].
    exfalso. apply Hnz. rewrite E in *.
    assert (x == inject_Z hi)%Q by (by apply Qle_antisym). rewrite H. ring. }
  destruct (Qcompare _ _) eqn:E.
  - apply Qeq_alt in E. destruct (Z.even (Qfloor x)); [lia|].
    split; [lia|]. apply Hup. rewrite E. discriminate.
  - lia.
  - apply Qgt_alt in E. split; [lia|]. apply Hup. intros H0. rewrite H0 in E.
    discriminate E.
Qed.

Lemma detection_count_cases (mx : Z) :
  let k := inject_Z mx in
  let d := if Qle_bool k 0 then Tokyo.KEY_LENGTH else Tokyo.py_int k in
  (mx <= 0 /\ d = 256) \/ (0 < mx /\ d = mx).
Proof.
  simpl. destruct (Qle_bool (inject_Z mx) 0) eqn:E.
  - left. apply Qle_bool_iff in E. change 0%Q with (inject_Z 0) in E.
    rewrite <- (Zle_Qle mx 0) in E. by split.
  - right. assert (0 < mx).
    { destruct (Z_lt_le_dec 0 mx) as [|Hle]; [done|].
      rewrite (Zle_Qle mx 0) in Hle. apply Qle_bool_iff in Hle.
      change (inject_Z 0) with 0%Q in Hle. congruence. }
    split; [done|]. unfold Tokyo.py_int.
    assert (Qle_bool 0 (inject_Z mx) = true) as ->.
    { apply Qle_bool_iff. change 0%Q with (inject_Z 0). rewrite <- (Zle_Qle 0 mx). lia. }
    apply Qfloor_Z.
Qed.

(** X6. [extract_metrics] raises only on a node whose detector key holds
    something else than a detector array.  Otherwise it returns, with a
    QBER within [0, 1], a detection count that is never zero (the larger
    in-progress key length, or 256 when there is none), and phase-error
    rate 0 whatever the protocols hold.  When the latest error rate of
    the history is itself within [0, 1] it is reported as it is, and the
    error count lies between 0 and the detection count. *)
Theorem extract_metrics_ranges (node : Tokyo.Node.t) (link_name : string)
    (qc : Tokyo.QuantumChannel.t) (a b : option Tokyo.BB84.t) :
  let key := Tokyo.Node.name node +:+ ".qsdetector" in
  let raw := Tokyo.last_or_zero
               (match a with Some p => Tokyo.BB84.error_rates p | None => [] end) in
  let mx := Z.max (Tokyo.key_bits_len a) (Tokyo.key_bits_len b) in
  ((exists m0, Tokyo.Node.components node !! key = Some (Tokyo.LightSource m0)) ->
   Tokyo.extract_metrics node link_name qc a b = inl AttributeError)
  /\ ((forall m0, Tokyo.Node.components node !! key <> Some (Tokyo.LightSource m0)) ->
      exists m,
        Tokyo.extract_metrics node link_name qc a b = inr m
        /\ (0 <= Tokyo.Metrics.qber m)%Q /\ (Tokyo.Metrics.qber m <= 1)%Q
        /\ 1 <= Tokyo.Metrics.detection_count m
        /\ Tokyo.Metrics.detection_count m = (if 0 <? mx then mx else 256)
        /\ Tokyo.Metrics.key_rate_sifted m = inject_Z mx
        /\ Tokyo.Metrics.phase_error_rate m = 0%Q
        /\ ((0 <= raw)%Q -> (raw <= 1)%Q ->
            (Tokyo.Metrics.qber m == raw)%Q
            /\ 0 <= Tokyo.Metrics.error_count m <= Tokyo.Metrics.detection_count m)).
Proof.
  intros key raw mx. split.
  - intros [m0 H]. unfold Tokyo.extract_metrics. fold key. by rewrite H.
  - intros H. unfold Tokyo.extract_metrics. fold key.
    assert (Hdet : exists det,
              match Tokyo.Node.components node !! key with
              | Some (Tokyo.LightSource _) => raise AttributeError
              | Some (Tokyo.QSDetector []) => ret (Tokyo.DARK_COUNT_RATE, Tokyo.DETECTOR_EFFICIENCY)
              | Some (Tokyo.QSDetector (d :: _)) =>
                  ret (Tokyo.Detector.dark_count_rate d, Tokyo.Detector.efficiency d)
              | None => ret (Tokyo.DARK_COUNT_RATE, Tokyo.DETECTOR_EFFICIENCY)
              end = inr det).
    { destruct (Tokyo.Node.components node !! key) as [[m0|[|d ds]]|] eqn:E; eauto.
      by destruct (H m0). }
    destruct Hdet as [det ->]. cbn [mbind result_bind].
    eexists. split; [reflexivity|]. cbn [Tokyo.Metrics.qber Tokyo.Metrics.detection_count
      Tokyo.Metrics.key_rate_sifted Tokyo.Metrics.phase_error_rate Tokyo.Metrics.error_count].
    fold mx. fold raw.
    destruct (detection_count_cases mx) as [[Hmx Hd]|[Hmx Hd]]; cbv zeta in Hd; rewrite Hd.
    + assert ((0 <? mx) = false) as -> by (apply Z.ltb_ge; lia).
      split; [apply py_min_max_range|]. split; [apply py_min_max_range|].
      split; [lia|]. split; [reflexivity|]. split; [reflexivity|]. split; [reflexivity|].
      intros H0 H1. split; [by apply py_min_max_id|].
      apply py_round_bounds.
      * change (inject_Z 0) with 0%Q. apply Qmult_le_0_compat; [done|discriminate].
      * rewrite <- (Qmult_1_l (inject_Z 256)) at 2.
        apply Qmult_le_compat_r; [done|discriminate].
    + assert ((0 <? mx) = true) as -> by (apply Z.ltb_lt; lia).
      split; [apply py_min_max_range|]. split; [apply py_min_max_range|].
      split; [lia|]. split; [reflexivity|]. split; [reflexivity|]. split; [reflexivity|].
      intros H0 H1. split; [by apply py_min_max_id|].
      assert (Hpos : (0 <= inject_Z mx)%Q).
      { change 0%Q with (inject_Z 0). rewrite <- Zle_Qle. lia. }
      apply py_round_bounds.
      * change (inject_Z 0) with 0%Q. by apply Qmult_le_0_compat.
      * rewrite <- (Qmult_1_l (inject_Z mx)) at 2.
        by apply Qmult_le_compat_r.
Qed.

Lemma extract_metrics_ranges_witness :
  let node := Tokyo.QKDNode "Otemachi" in
  let alice := Tokyo.BB84.mk "a" "Otemachi" "Otemachi.lightsource" "Otemachi.qsdetector"
                 [2 # 100; 25 # 100] [1000%Q] (Some [1; 0; 1]) None None false in
  let qc := Tokyo.QuantumChannel.mk "qc" Tokyo.ATTENUATION 6000 None None in
  (forall m0, Tokyo.Node.components node !! (Tokyo.Node.name node +:+ ".qsdetector")
              <> Some (Tokyo.LightSource m0))
  /\ exists m,
       Tokyo.extract_metrics node "l" qc (Some alice) None = inr m
       /\ Tokyo.Metrics.detection_count m = 3
       /\ 0 <= Tokyo.Metrics.error_count m <= 3.
Proof.
  intros node alice qc.
  assert (H : forall m0, Tokyo.Node.components node !! (Tokyo.Node.name node +:+ ".qsdetector")
              <> Some (Tokyo.LightSource m0)).
  { intros m0. vm_compute. discriminate. }
  split; [exact H|].
  destruct (proj2 (extract_metrics_ranges node "l" qc (Some alice) None) H)
    as (m & Hm & _ & _ & _ & Hd & _ & _ & He).
  assert (Hd3 : Tokyo.Metrics.detection_count m = 3) by (rewrite Hd; reflexivity).
  exists m. split; [exact Hm|]. split; [exact Hd3|].
  rewrite <- Hd3. apply He; vm_compute; discriminate.
Defined.

(** ** tokyo_qkd_simulation.py: the network as built *)

Lemma baseline_checked_true (degrade : bool) : baseline_checked degrade = true.
Proof. destruct degrade; vm_compute; reflexivity. Qed.

Lemma node_baseline_sound (k : string) (node : Tokyo.Node.t) :
  node_baseline (k, node) = true ->
  Tokyo.Node.name node = k
  /\ Tokyo.Node.components node !! (k +:+ ".lightsource")
     = Some (Tokyo.LightSource Tokyo.MEAN_PHOTON_NUM)
  /\ (exists d dets,
        Tokyo.Node.components node !! (k +:+ ".qsdetector")
        = Some (Tokyo.QSDetector (d :: dets))
        /\ Forall (fun d => Tokyo.Detector.dark_count_rate d = Tokyo.DARK_COUNT_RATE
                            /\ Tokyo.Detector.efficiency d = Tokyo.DETECTOR_EFFICIENCY)
             (d :: dets))
  /\ Tokyo.Node._dark_count_rate node = None
  /\ Tokyo.Node._detector_efficiency node = None
  /\ Tokyo.Node._back_reflection_power node = None
  /\ Tokyo.Node.is_offline node = None.
Proof.
  unfold node_baseline. rewrite !andb_true_iff, !bool_decide_eq_true.
  intros ((((((Hn & Hc) & Hl) & H1) & H2) & H3) & H4).
  rewrite Hn in *. repeat split; try done.
  destruct (Tokyo.Node.components node !! (k +:+ ".qsdetector")) as [[|[|d dets]]|];
    try discriminate.
  exists d, dets. split; [done|]. apply andb_true_iff in Hc as [_ Hc].
  apply Forall_forall. intros x Hx. apply list_elem_of_In in Hx.
  rewrite forallb_forall in Hc. specialize (Hc x Hx).
  by rewrite andb_true_iff, !bool_decide_eq_true in Hc.
Qed.

(** X7. Whatever the fault type, [build_network] returns the five nodes of
    the topology, each with its light source at the baseline mean photon
    number, every detector at the baseline efficiency and dark-count
    rate, and no fault attribute; on each of them [extract_metrics]
    reports the baseline detector values and back-reflection power 0.
    Every link's quantum channel has the baseline attenuation, except
    that a [degrade] run builds the link that starts at Koganei_A with
    three times that. *)
Theorem build_network_baseline (fault_type : string) :
  exists nodes lps,
    Tokyo.build_network fault_type = inr (nodes, lps)
    /\ dom nodes = list_to_set Tokyo.NODE_NAMES
    /\ (forall k node, nodes !! k = Some node ->
          Tokyo.Node.name node = k
          /\ Tokyo.Node.components node !! (k +:+ ".lightsource")
             = Some (Tokyo.LightSource Tokyo.MEAN_PHOTON_NUM)
          /\ (exists d dets,
                Tokyo.Node.components node !! (k +:+ ".qsdetector")
                = Some (Tokyo.QSDetector (d :: dets))
                /\ Forall (fun d =>
                     Tokyo.Detector.dark_count_rate d = Tokyo.DARK_COUNT_RATE
                     /\ Tokyo.Detector.efficiency d = Tokyo.DETECTOR_EFFICIENCY)
                     (d :: dets))
          /\ forall l qc a b, exists m,
               Tokyo.extract_metrics node l qc a b = inr m
               /\ Tokyo.Metrics.dark_count_rate m = Tokyo.DARK_COUNT_RATE
               /\ Tokyo.Metrics.detector_efficiency m = Tokyo.DETECTOR_EFFICIENCY
               /\ Tokyo.Metrics.back_reflection_power m = 0%Q)
    /\ (forall lp, In lp lps ->
          Tokyo.QuantumChannel.attenuation (Tokyo.qc lp)
          = if String.eqb fault_type "degrade" && String.eqb (Tokyo.n1 lp) "Koganei_A"
            then (Tokyo.ATTENUATION * 3)%Q else Tokyo.ATTENUATION).
Proof.
  rewrite build_network_fault_type.
  pose proof (baseline_checked_true (String.eqb fault_type "degrade")) as H.
  unfold baseline_checked in H.
  destruct (Tokyo.build_network _) as [e|[nodes lps]]; [discriminate|].
  apply andb_true_iff in H as [H Ha]. apply andb_true_iff in H as [Hn Hd].
  apply bool_decide_eq_true in Hd.
  exists nodes, lps. split; [reflexivity|]. split; [exact Hd|]. split.
  - intros k node Hk. rewrite forallb_forall in Hn.
    assert (Hin : In (k, node) (map_to_list nodes)).
    { apply list_elem_of_In. by apply elem_of_map_to_list. }
    apply Hn, node_baseline_sound in Hin
      as (Hname & Hls & (d & dets & Hq & Hf) & H1 & H2 & H3 & _).
    split; [done|]. split; [done|]. split; [by exists d, dets|].
    intros l qc a b. unfold Tokyo.extract_metrics. rewrite Hname, Hq, H1, H2, H3.
    cbn [mbind result_bind ret mret result_ret]. eexists. split; [reflexivity|].
    apply Forall_cons in Hf as [[Hf1 Hf2] _]. simpl. by rewrite Hf1, Hf2.
  - intros lp Hin. rewrite forallb_forall in Ha. specialize (Ha lp Hin).
    unfold link_attenuation in Ha. by apply bool_decide_eq_true in Ha.
Qed.

(** ** tokyo_qkd_simulation.py: what each fault shows in the metrics *)

Lemma last_snoc (l : list Q) (q : Q) : Tokyo.last_or_zero (l ++ [q]) = q.
Proof. unfold Tokyo.last_or_zero. apply last_last. Qed.

Lemma append_error_rate_inr (ref : string) (q : Q) (ps ps1 : gmap string Tokyo.BB84.t) :
  Tokyo.append_error_rate ref q ps = inr ps1 ->
  exists p,
    ps !! ref = Some p
    /\ ps1 = <[ref := Tokyo.set_error_rates (Tokyo.BB84.error_rates p ++ [q])%list p]> ps.
Proof.
  unfold Tokyo.append_error_rate. intros H.
  apply bind_inr in H as (p & Hp & H). injection H as <-.
  apply getitem_inr in Hp. eauto.
Qed.

Lemma extract_metrics_qber (node : Tokyo.Node.t) (l : string) (qc : Tokyo.QuantumChannel.t)
    (p : Tokyo.BB84.t) (b : option Tokyo.BB84.t) (m : Tokyo.Metrics.t) :
  Tokyo.extract_metrics node l qc (Some p) b = inr m ->
  Tokyo.Metrics.qber m
  = Tokyo.py_max 0 (Tokyo.py_min 1 (Tokyo.last_or_zero (Tokyo.BB84.error_rates p)))
  /\ Tokyo.Metrics.error_count m
     = py_round (Tokyo.last_or_zero (Tokyo.BB84.error_rates p)
                 * inject_Z (Tokyo.Metrics.detection_count m))%Q.
Proof.
  unfold Tokyo.extract_metrics. intros H.
  apply bind_inr in H as (det & _ & H). injection H as <-. by split.
Qed.

(** X8. After the intercept-resend callback the protocol in slot 0 of the
    target and its paired peer both end their error-rate history with
    0.25, and the extractor, reading either as the link's Alice, reports
    QBER 0.25 with an error count of a quarter of the detection count,
    rounded. *)
Theorem attack_sets_qber (t : string) (w w1 : Tokyo.World) (n : Tokyo.Node.t)
    (ref : string) (rest : list (option string)) :
  Tokyo._attack t w = inr w1 ->
  Tokyo.nodes w !! t = Some n ->
  Tokyo.Node.protocol_stack n = Some ref :: rest ->
  exists p,
    Tokyo.protos w !! ref = Some p
    /\ forall r, r = ref \/ Tokyo.BB84.another p = Some r ->
         exists p1,
           Tokyo.protos w1 !! r = Some p1
           /\ Tokyo.last_or_zero (Tokyo.BB84.error_rates p1) = (25 # 100)%Q
           /\ forall node l qc b m,
                Tokyo.extract_metrics node l qc (Some p1) b = inr m ->
                Tokyo.Metrics.qber m = (25 # 100)%Q
                /\ Tokyo.Metrics.error_count m
                   = py_round ((25 # 100) * inject_Z (Tokyo.Metrics.detection_count m))%Q.
Proof.
  unfold Tokyo._attack. intros H Hn Hs.
  rewrite (proj2 (getitem_inr _ _ n) Hn) in H. cbn [mbind result_bind] in H.
  rewrite Hs in H.
  apply bind_inr in H as (p & Hp & H). apply getitem_inr in Hp.
  apply bind_inr in H as (ps & Hps & H).
  apply append_error_rate_inr in Hps as (p' & Hp' & ->).
  rewrite Hp in Hp'. injection Hp' as <-.
  exists p. split; [done|].
  assert (Hfin : forall p1,
            Tokyo.last_or_zero (Tokyo.BB84.error_rates p1) = (25 # 100)%Q ->
            forall node l qc b m,
              Tokyo.extract_metrics node l qc (Some p1) b = inr m ->
              Tokyo.Metrics.qber m = (25 # 100)%Q
              /\ Tokyo.Metrics.error_count m
                 = py_round ((25 # 100) * inject_Z (Tokyo.Metrics.detection_count m))%Q).
  { intros p1 Hl node l qc b m Hm. apply extract_metrics_qber in Hm as [-> ->].
    by rewrite Hl. }
  destruct (Tokyo.BB84.another p) as [other|] eqn:Ea.
  - apply bind_inr in H as (ps' & Hps' & H). injection H as <-.
    apply append_error_rate_inr in Hps' as (po & Hpo & ->). cbn [Tokyo.protos].
    intros r Hr. destruct (decide (r = other)) as [->|Hne].
    + rewrite lookup_insert_eq. eexists. split; [reflexivity|].
      split; [apply last_snoc|]. apply Hfin, last_snoc.
    + destruct Hr as [->|[= ->]]; [|done].
      rewrite lookup_insert_ne by done. rewrite lookup_insert_eq.
      eexists. split; [reflexivity|]. split; [apply last_snoc|]. apply Hfin, last_snoc.
  - injection H as <-. cbn [Tokyo.protos]. intros r [->|Hr]; [|discriminate].
    rewrite lookup_insert_eq. eexists. split; [reflexivity|].
    split; [apply last_snoc|]. apply Hfin, last_snoc.
Qed.

Lemma attack_sets_qber_witness :
  exists w s ev w1 n rest p p1,
    Tokyo.setup "qber" = inr (w, s, ev)
    /\ Tokyo._attack "Otemachi" w = inr w1
    /\ Tokyo.nodes w !! "Otemachi" = Some n
    /\ Tokyo.Node.protocol_stack n = Some "bb84_Otemachi_Hakusan_alice" :: rest
    /\ Tokyo.protos w !! "bb84_Otemachi_Hakusan_alice" = Some p
    /\ Tokyo.BB84.another p = Some "bb84_Otemachi_Hakusan_bob"
    /\ Tokyo.protos w1 !! "bb84_Otemachi_Hakusan_bob" = Some p1
    /\ Tokyo.last_or_zero (Tokyo.BB84.error_rates p1) = (25 # 100)%Q.
Proof.
  assert (H : match Tokyo.setup "qber" with
              | inr (w, _, _) =>
                  match Tokyo._attack "Otemachi" w, Tokyo.nodes w !! "Otemachi",
                        Tokyo.protos w !! "bb84_Otemachi_Hakusan_alice" with
                  | inr _, Some n, Some p =>
                      (exists rest, Tokyo.Node.protocol_stack n
                                    = Some "bb84_Otemachi_Hakusan_alice" :: rest)
                      /\ Tokyo.BB84.another p = Some "bb84_Otemachi_Hakusan_bob"
                  | _, _, _ => False
                  end
              | inl _ => False
              end).
  { vm_compute. split; [eexists|]; reflexivity. }
  destruct (Tokyo.setup "qber") as [e|[[w s] ev]] eqn:Es; [destruct H|].
  destruct (Tokyo._attack "Otemachi" w) as [e|w1] eqn:E1; [destruct H|].
  destruct (Tokyo.nodes w !! "Otemachi") as [n|] eqn:En; [|destruct H].
  destruct (Tokyo.protos w !! "bb84_Otemachi_Hakusan_alice") as [p|] eqn:Ep; [|destruct H].
  destruct H as [[rest Hs] Ha].
  destruct (attack_sets_qber "Otemachi" w w1 n _ rest E1 En Hs) as (p' & Hp' & Hall).
  rewrite Ep in Hp'. injection Hp' as <-.
  destruct (Hall "bb84_Otemachi_Hakusan_bob" (or_intror Ha)) as (p1 & Hp1 & Hl & _).
  exists w, s, ev, w1, n, rest, p, p1.
  split; [reflexivity|]. split; [exact E1|]. split; [exact En|]. split; [exact Hs|].
  split; [exact Ep|]. split; [exact Ha|]. split; [exact Hp1|exact Hl].
Defined.

Lemma extract_metrics_key (node node' : Tokyo.Node.t) (l l' : string)
    (qc qc' : Tokyo.QuantumChannel.t) (a b : option Tokyo.BB84.t) (m m' : Tokyo.Metrics.t) :
  Tokyo.extract_metrics node l qc a b = inr m ->
  Tokyo.extract_metrics node' l' qc' a b = inr m' ->
  key_metrics m' = key_metrics m.
Proof.
  unfold Tokyo.extract_metrics. intros H H'.
  apply bind_inr in H as (det & _ & H). injection H as <-.
  apply bind_inr in H' as (det' & _ & H'). injection H' as <-.
  reflexivity.
Qed.

(** X9. The blinding callback is invisible outside the detector columns: it
    leaves every protocol object and every other node as they are, and
    on the target the extractor reports the same QBER, key rates,
    detection and error counts, phase-error rate and back-reflection
    power as before, next to the saturated detector values. *)
Theorem blind_frame (t : string) (w w1 : Tokyo.World) :
  Tokyo._blind t w = inr w1 ->
  Tokyo.protos w1 = Tokyo.protos w
  /\ (forall k, k <> t -> Tokyo.nodes w1 !! k = Tokyo.nodes w !! k)
  /\ exists n n1,
       Tokyo.nodes w !! t = Some n /\ Tokyo.nodes w1 !! t = Some n1
       /\ Tokyo.Node.name n1 = Tokyo.Node.name n
       /\ Tokyo.Node.cchannels n1 = Tokyo.Node.cchannels n
       /\ Tokyo.Node.qchannels n1 = Tokyo.Node.qchannels n
       /\ Tokyo.Node.protocol_stack n1 = Tokyo.Node.protocol_stack n
       /\ Tokyo.Node.is_offline n1 = Tokyo.Node.is_offline n
       /\ forall l qc a b m,
            Tokyo.extract_metrics n l qc a b = inr m ->
            exists m1,
              Tokyo.extract_metrics n1 l qc a b = inr m1
              /\ key_metrics m1 = key_metrics m
              /\ Tokyo.Metrics.back_reflection_power m1 = Tokyo.Metrics.back_reflection_power m
              /\ Tokyo.Metrics.dark_count_rate m1 = 5000000%Q
              /\ Tokyo.Metrics.detector_efficiency m1 = 1%Q.
Proof.
  intros H. pose proof H as H'. unfold Tokyo._blind in H'.
  apply bind_inr in H' as (n & Hn & H'). apply bind_inr in H' as (n1 & Hn1 & H').
  injection H' as <-. apply getitem_inr in Hn. cbn [Tokyo.protos Tokyo.nodes].
  split; [reflexivity|]. split; [by intros k Hk; rewrite lookup_insert_ne|].
  exists n, n1. rewrite lookup_insert_eq. split; [done|]. split; [done|].
  destruct (blind_node_inr _ _ Hn1) as (Hname & _ & _ & _ & E).
  split; [done|]. rewrite E. cbn. repeat (split; [reflexivity|]).
  rewrite <- E. intros l qc a b m Hm.
  destruct (blind_node_blinded _ _ Hn1) as [Hb _].
  destruct (extract_metrics_blinded n1 l qc a b Hb) as (m1 & Hm1 & He & Hd).
  exists m1. split; [done|]. split; [by eapply extract_metrics_key|].
  split; [|by split].
  unfold Tokyo.extract_metrics in Hm, Hm1.
  apply bind_inr in Hm as (det & _ & Hm). injection Hm as <-.
  apply bind_inr in Hm1 as (det1 & _ & Hm1). injection Hm1 as <-.
  cbn. rewrite E. reflexivity.
Qed.

Lemma blind_frame_witness :
  exists w s ev w1,
    Tokyo.setup "blinding" = inr (w, s, ev)
    /\ Tokyo._blind "Otemachi" w = inr w1
    /\ Tokyo.protos w1 = Tokyo.protos w
    /\ Tokyo.nodes w1 !! "Hakusan" = Tokyo.nodes w !! "Hakusan".
Proof.
  assert (H : match Tokyo.setup "blinding" with
              | inr (w, _, _) =>
                  match Tokyo._blind "Otemachi" w with
                  | inr _ => True
                  | inl _ => False
                  end
              | inl _ => False
              end) by (vm_compute; exact I).
  destruct (Tokyo.setup "blinding") as [e|[[w s] ev]] eqn:Es; [destruct H|].
  destruct (Tokyo._blind "Otemachi" w) as [e|w1] eqn:E1; [destruct H|].
  destruct (blind_frame "Otemachi" w w1 E1) as (Hp & Hk & _).
  exists w, s, ev, w1. split; [reflexivity|]. split; [exact E1|]. split; [exact Hp|].
  apply Hk. discriminate.
Defined.

Lemma for_protocols_history (f : Tokyo.BB84.t -> Tokyo.BB84.t) (refs : list string)
    (ps ps1 : gmap string Tokyo.BB84.t) :
  (forall p, same_history p (f p)) ->
  Tokyo.for_protocols f refs ps = inr ps1 ->
  forall k p, ps !! k = Some p -> exists p1, ps1 !! k = Some p1 /\ same_history p p1.
Proof.
  intros Hf. revert ps. induction refs as [|ref refs IH]; intros ps H k p Hk.
  - injection H as <-. exists p. by repeat split.
  - unfold Tokyo.for_protocols in H. simpl in H.
    apply bind_inr in H as (ps' & Hstep & H).
    apply bind_inr in Hstep as (p0 & Hp0 & Hstep). injection Hstep as <-.
    apply getitem_inr in Hp0.
    destruct (decide (ref = k)) as [->|Hne].
    + rewrite Hp0 in Hk. injection Hk as ->.
      destruct (IH _ H k (f p) (lookup_insert_eq _ _ _)) as (p1 & Hp1 & Hh).
      exists p1. split; [done|]. destruct (Hf p) as (A & B & C & D).
      destruct Hh as (A' & B' & C' & D'). repeat split; congruence.
    + apply (IH _ H k p). by rewrite lookup_insert_ne.
Qed.

Lemma extract_metrics_same_history (node : Tokyo.Node.t) (l : string)
    (qc : Tokyo.QuantumChannel.t) (a b a1 b1 : Tokyo.BB84.t) :
  same_history a a1 -> same_history b b1 ->
  Tokyo.extract_metrics node l qc (Some a1) (Some b1)
  = Tokyo.extract_metrics node l qc (Some a) (Some b).
Proof.
  intros (A & B & C & _) (_ & _ & C' & _). unfold Tokyo.extract_metrics, Tokyo.key_bits_len.
  by rewrite A, B, C, C'.
Qed.

(** X10. The Trojan-horse callback touches nothing the extractor reads except
    the back-reflection power: other nodes are untouched, every protocol
    keeps its histories, and on the target the extractor reports 0.001 W
    of back-reflection -- above the consolidator's 1e-6 alert threshold --
    with every other metric as before.  The phase-error rate it reports
    stays 0: the attribute the callback sets on the protocols is not
    read. *)
Theorem trojan_frame (t : string) (w w1 : Tokyo.World) :
  Tokyo._trojan t w = inr w1 ->
  (forall k, k <> t -> Tokyo.nodes w1 !! k = Tokyo.nodes w !! k)
  /\ (forall ref p, Tokyo.protos w !! ref = Some p ->
        exists p1, Tokyo.protos w1 !! ref = Some p1 /\ same_history p p1)
  /\ exists n,
       Tokyo.nodes w !! t = Some n
       /\ Tokyo.nodes w1 !! t = Some (Tokyo.set_back_reflection_power (1 # 1000) n)
       /\ forall l qc a b a1 b1 m,
            same_history a a1 -> same_history b b1 ->
            Tokyo.extract_metrics n l qc (Some a) (Some b) = inr m ->
            exists m1,
              Tokyo.extract_metrics (Tokyo.set_back_reflection_power (1 # 1000) n)
                l qc (Some a1) (Some b1) = inr m1
              /\ key_metrics m1 = key_metrics m
              /\ Tokyo.Metrics.phase_error_rate m1 = 0%Q
              /\ Tokyo.Metrics.dark_count_rate m1 = Tokyo.Metrics.dark_count_rate m
              /\ Tokyo.Metrics.detector_efficiency m1 = Tokyo.Metrics.detector_efficiency m
              /\ Tokyo.Metrics.back_reflection_power m1 = (1 # 1000)%Q
              /\ (1 # 1000000 < Tokyo.Metrics.back_reflection_power m1)%Q.
Proof.
  unfold Tokyo._trojan. intros H.
  apply bind_inr in H as (n & Hn & H). apply bind_inr in H as (ps & Hps & H).
  injection H as <-. apply getitem_inr in Hn. cbn [Tokyo.protos Tokyo.nodes].
  split; [by intros k Hk; rewrite lookup_insert_ne|]. split.
  - intros ref p Hp. eapply for_protocols_history; [|exact Hps|exact Hp].
    intros q. unfold same_history. destruct (Tokyo.BB84.phase_error_rate q); repeat split; reflexivity.
  - exists n. rewrite lookup_insert_eq. split; [done|]. split; [done|].
    intros l qc a b a1 b1 m Ha Hb Hm.
    rewrite (extract_metrics_same_history _ l qc a b a1 b1 Ha Hb).
    unfold Tokyo.extract_metrics in *.
    apply bind_inr in Hm as (det & Hdet & Hm). injection Hm as <-.
    cbn [Tokyo.Node.name Tokyo.Node.components Tokyo.set_back_reflection_power].
    rewrite Hdet. cbn [mbind result_bind]. eexists. split; [reflexivity|].
    cbn. repeat split.
Qed.

Lemma trojan_frame_witness :
  exists w s ev w1 n,
    Tokyo.setup "trojan" = inr (w, s, ev)
    /\ Tokyo._trojan "Koganei_B" w = inr w1
    /\ Tokyo.nodes w !! "Koganei_B" = Some n
    /\ Tokyo.nodes w1 !! "Koganei_B" = Some (Tokyo.set_back_reflection_power (1 # 1000) n).
Proof.
  assert (H : match Tokyo.setup "trojan" with
              | inr (w, _, _) =>
                  match Tokyo._trojan "Koganei_B" w with
                  | inr _ => True
                  | inl _ => False
                  end
              | inl _ => False
              end) by (vm_compute; exact I).
  destruct (Tokyo.setup "trojan") as [e|[[w s] ev]] eqn:Es; [destruct H|].
  destruct (Tokyo._trojan "Koganei_B" w) as [e|w1] eqn:E1; [destruct H|].
  destruct (trojan_frame "Koganei_B" w w1 E1) as (_ & _ & n & Hn & Hn1 & _).
  exists w, s, ev, w1, n. split; [reflexivity|]. split; [exact E1|].
  split; [exact Hn|exact Hn1].
Defined.

(** ** tokyo_qkd_simulation.py: the sampler's chain *)







(** ** run_dataset_one_link.py: periodic scheduling and consumption *)

Lemma periods_step (start_ps interval_ps end_ps : Z) :
  0 < interval_ps -> start_ps <= end_ps ->
  periods start_ps interval_ps end_ps
  = Datatypes.S (periods (start_ps + interval_ps) interval_ps end_ps).
Proof.
  intros Hi Hs. unfold periods.
  assert ((start_ps <=? end_ps) = true) as -> by (apply Z.leb_le; lia).
  destruct (start_ps + interval_ps <=? end_ps) eqn:E.
  - apply Z.leb_le in E.
    replace (end_ps - start_ps) with ((end_ps - (start_ps + interval_ps)) + 1 * interval_ps) by lia.
    rewrite Z.div_add by lia.
    assert (0 <= (end_ps - (start_ps + interval_ps)) / interval_ps) by (apply Z.div_pos; lia).
    lia.
  - apply Z.leb_gt in E. rewrite Z.div_small by lia. reflexivity.
Qed.

Lemma schedule_every_events (fuel : nat) (start_ps interval_ps end_ps : Z)
    (m : string) (events : list (Z * string)) :
  0 < interval_ps ->
  (periods start_ps interval_ps end_ps <= fuel)%nat ->
  OneLink.schedule_every fuel start_ps interval_ps end_ps m events
  = Some (events ++ List.map (fun k => (start_ps + Z.of_nat k * interval_ps, m))
                      (seq 0 (periods start_ps interval_ps end_ps)))%list.
Proof.
  intros Hi. revert start_ps events.
  induction fuel as [|fuel IH]; intros start_ps events Hf.
  - cbn [OneLink.schedule_every]. destruct (start_ps <=? end_ps) eqn:E.
    + apply Z.leb_le in E. rewrite periods_step in Hf by done. lia.
    + unfold periods. rewrite E. simpl. by rewrite app_nil_r.
  - cbn [OneLink.schedule_every]. destruct (start_ps <=? end_ps) eqn:E.
    + apply Z.leb_le in E. rewrite periods_step in * by done.
      rewrite IH by lia. unfold OneLink.schedule_at. rewrite <- app_assoc. do 2 f_equal.
      cbn [seq List.map app]. f_equal; [f_equal; lia|].
      rewrite <- seq_shift, List.map_map. apply List.map_ext. intros k. f_equal. lia.
    + unfold periods. rewrite E. simpl. by rewrite app_nil_r.
Qed.

(** X12. With a positive interval [schedule_every] ends and schedules the
    method at [start], [start + interval], ... up to and including
    [end_ps] when the interval divides the span: [(end - start) /
    interval + 1] events, none before [start_ps], none after [end_ps],
    and none at all when [start_ps] is already past [end_ps].  With an
    interval of zero or less and [start_ps <= end_ps] the loop never
    ends, whatever the number of iterations allowed. *)
Theorem schedule_every_periodic (start_ps interval_ps end_ps : Z) (m : string)
    (events : list (Z * string)) :
  (0 < interval_ps ->
   forall fuel, (periods start_ps interval_ps end_ps <= fuel)%nat ->
     exists new,
       OneLink.schedule_every fuel start_ps interval_ps end_ps m events
       = Some (events ++ new)%list
       /\ List.length new = periods start_ps interval_ps end_ps
       /\ (forall k, (k < List.length new)%nat ->
             new !! k = Some (start_ps + Z.of_nat k * interval_ps, m))
       /\ (forall t m', In (t, m') new -> start_ps <= t <= end_ps /\ m' = m)
       /\ (start_ps <= end_ps -> (end_ps - start_ps) mod interval_ps = 0 ->
           In (end_ps, m) new))
  /\ (interval_ps <= 0 -> start_ps <= end_ps ->
      forall fuel, OneLink.schedule_every fuel start_ps interval_ps end_ps m events = None).
Proof.
  split.
  - intros Hi fuel Hf. eexists. split; [by apply schedule_every_events|].
    set (n := periods start_ps interval_ps end_ps).
    assert (Hn : forall k, (k < n)%nat -> start_ps + Z.of_nat k * interval_ps <= end_ps).
    { intros k Hk. unfold n, periods in Hk. destruct (start_ps <=? end_ps) eqn:E; [|lia].
      apply Z.leb_le in E.
      assert (0 <= (end_ps - start_ps) / interval_ps) by (apply Z.div_pos; lia).
      assert (Z.of_nat k <= (end_ps - start_ps) / interval_ps) by lia.
      pose proof (Z.mul_div_le (end_ps - start_ps) interval_ps Hi). nia. }
    split; [by rewrite length_map, length_seq|]. split; [|split].
    + intros k Hk. rewrite length_map, length_seq in Hk.
      rewrite list_lookup_fmap, lookup_seq_lt by done. reflexivity.
    + intros t m' Hin. apply in_map_iff in Hin as (k & [= <- <-] & Hk).
      apply in_seq in Hk. split; [|done]. split; [nia|apply Hn; lia].
    + intros Hs Hmod. apply in_map_iff.
      exists (Z.to_nat ((end_ps - start_ps) / interval_ps)).
      assert (0 <= (end_ps - start_ps) / interval_ps) by (apply Z.div_pos; lia).
      split.
      * f_equal. rewrite Z2Nat.id by done.
        pose proof (Z.div_mod (end_ps - start_ps) interval_ps ltac:(lia)). lia.
      * apply in_seq. unfold n, periods.
        assert ((start_ps <=? end_ps) = true) as -> by (apply Z.leb_le; lia). lia.
  - intros Hi Hs fuel. revert start_ps events Hs.
    induction fuel as [|fuel IH]; intros start_ps events Hs; cbn [OneLink.schedule_every];
      (assert ((start_ps <=? end_ps) = true) as -> by (apply Z.leb_le; lia)); [done|].
    apply IH. lia.
Qed.

Lemma schedule_every_periodic_witness :
  0 < OneLink.CONSUME_EVERY
  /\ (periods 0 OneLink.CONSUME_EVERY OneLink.STOP_TIME <= 26)%nat
  /\ exists new,
       OneLink.schedule_every 26 0 OneLink.CONSUME_EVERY OneLink.STOP_TIME "consume" []
       = Some new
       /\ List.length new = 26%nat
       /\ In (OneLink.STOP_TIME, "consume") new.
Proof.
  assert (H1 : 0 < OneLink.CONSUME_EVERY) by reflexivity.
  assert (H2 : (periods 0 OneLink.CONSUME_EVERY OneLink.STOP_TIME <= 26)%nat)
    by (vm_compute; lia).
  split; [exact H1|]. split; [exact H2|].
  destruct (proj1 (schedule_every_periodic 0 OneLink.CONSUME_EVERY OneLink.STOP_TIME
                     "consume" []) H1 26%nat H2) as (new & Hs & Hl & _ & _ & He).
  exists new. split; [exact Hs|]. split; [by rewrite Hl|].
  apply He; [discriminate|reflexivity].
Defined.

(** X13. [k] consume events on a buffer of [n] keys that is not refilled:
    the first [n / 2] of them take two keys each from the front, in
    order, and every later one counts one starvation and takes nothing;
    a last odd key is never consumed.  Label, attenuation, detectors and
    phase error are not touched. *)
Theorem consume_times_drains (k : nat) (w : OneLink.World) (c : OneLink.Cascade) :
  OneLink.cascade w = Some c ->
  let served := Nat.min k (List.length (buffer w) / 2) in
  exists w',
    OneLink.consume_times k w = inr w'
    /\ buffer w' = drop (2 * served) (buffer w)
    /\ OneLink.starvation (OneLink.state w')
       = OneLink.starvation (OneLink.state w) + Z.of_nat (k - served)
    /\ OneLink.label (OneLink.state w') = OneLink.label (OneLink.state w)
    /\ OneLink.attenuation w' = OneLink.attenuation w
    /\ OneLink.qsdA w' = OneLink.qsdA w
    /\ OneLink.phase_error w' = OneLink.phase_error w.
Proof.
  revert w c. induction k as [|k IH]; intros w c Hc served.
  - exists w. subst served. simpl. rewrite Z.add_0_r. by repeat split.
  - cbn [OneLink.consume_times]. unfold OneLink.consume. rewrite Hc.
    assert (Hb : buffer w = default [] (OneLink.valid_keys c)) by (unfold buffer; by rewrite Hc).
    rewrite <- Hb.
    destruct (List.length (buffer w) <? OneLink.CONSUME_KEYS)%nat eqn:E.
    + apply Nat.ltb_lt in E. unfold OneLink.CONSUME_KEYS in E.
      cbn [mbind result_bind ret mret result_ret].
      set (w1 := OneLink.mkWorld _ _ _ _ _).
      destruct (IH w1 c eq_refl) as (w' & Hw' & Hbuf & Hst & Hl & Ha & Hq & Hp).
      assert (Hb1 : buffer w1 = buffer w) by (by rewrite Hb).
      rewrite Hb1 in *.
      assert (Hz : (List.length (buffer w) / 2 = 0)%nat) by (apply Nat.div_small; lia).
      exists w'. subst served. rewrite Hz in *. rewrite Nat.min_0_r in *.
      split; [exact Hw'|]. split; [exact Hbuf|]. split; [|by repeat split].
      rewrite Hst. unfold w1. simpl. lia.
    + apply Nat.ltb_ge in E. unfold OneLink.CONSUME_KEYS in E.
      rewrite (pop_front_drop OneLink.CONSUME_KEYS _ E).
      cbn [mbind result_bind ret mret result_ret].
      set (w1 := OneLink.mkWorld _ _ _ _ _).
      destruct (IH w1 (OneLink.mkCascade (Some (drop OneLink.CONSUME_KEYS (buffer w))))
                  eq_refl) as (w' & Hw' & Hbuf & Hst & Hl & Ha & Hq & Hp).
      assert (Hb1 : buffer w1 = drop 2 (buffer w)) by reflexivity.
      rewrite Hb1 in *. rewrite length_drop in *.
      assert (Hd : ((List.length (buffer w) - 2) / 2
                    = List.length (buffer w) / 2 - 1)%nat).
      { replace (List.length (buffer w)) with ((List.length (buffer w) - 2) + 1 * 2)%nat at 2 by lia.
        rewrite Nat.div_add by lia. lia. }
      assert (Hge : (1 <= List.length (buffer w) / 2)%nat).
      { replace (List.length (buffer w)) with ((List.length (buffer w) - 2) + 1 * 2)%nat by lia.
        rewrite Nat.div_add by lia. lia. }
      rewrite Hd in *.
      assert (Hs : served = Datatypes.S (Nat.min k (List.length (buffer w) / 2 - 1))).
      { subst served. lia. }
      exists w'. rewrite Hs. split; [exact Hw'|]. split.
      * rewrite Hbuf, drop_drop. f_equal. lia.
      * split; [|by repeat split]. rewrite Hst. unfold w1. simpl. lia.
Qed.

Lemma consume_times_drains_witness :
  let w := OneLink.mkWorld (OneLink.mkScenarioState "normal" 0)
             (Some (OneLink.mkCascade (Some [11; 12; 13; 14; 15]))) (2 # 10000) [] 0 in
  OneLink.cascade w = Some (OneLink.mkCascade (Some [11; 12; 13; 14; 15]))
  /\ exists w',
       OneLink.consume_times 4 w = inr w'
       /\ buffer w' = [15]
       /\ OneLink.starvation (OneLink.state w') = 2.
Proof.
  intros w. split; [reflexivity|].
  destruct (consume_times_drains 4 w _ eq_refl) as (w' & Hw' & Hb & Hs & _).
  exists w'. split; [exact Hw'|]. split; [exact Hb|exact Hs].
Defined.

(** ** tokyo_qkd_simulation.py: the wiring of a run *)

Lemma setup_checked_known :
  setup_checked "normal" false = true /\ setup_checked "degrade" false = true
  /\ setup_checked "qber" true = true /\ setup_checked "blinding" true = true
  /\ setup_checked "trojan" true = true /\ setup_checked "node_fail" true = true
  /\ setup_checked "other" false = true.
Proof. vm_compute. repeat split. Qed.

Lemma setup_unknown (ft : string) :
  String.eqb ft "normal" = false -> String.eqb ft "degrade" = false ->
  String.eqb ft "qber" = false -> String.eqb ft "blinding" = false ->
  String.eqb ft "trojan" = false -> String.eqb ft "node_fail" = false ->
  Tokyo.setup ft
  = match Tokyo.setup "other" with
    | inr (w, s, ev) =>
        inr (w, Tokyo.make_sampler ft (Tokyo.link_pairs s) (Tokyo.bb84_map s), ev)
    | inl e => inl e
    end.
Proof.
  intros E1 E2 E3 E4 E5 E6. unfold Tokyo.setup.
  rewrite (build_network_fault_type ft), (build_network_fault_type "other"), E2.
  change (String.eqb "other" "degrade") with false. cbv iota.
  destruct (Tokyo.build_network "normal") as [e|[nodes lps]]; [reflexivity|].
  cbn [mbind result_bind].
  destruct (for_each Tokyo.attach_protocols lps _) as [e|[w bmap]]; [reflexivity|].
  cbn [mbind result_bind]. rewrite E1.
  change (String.eqb "other" "normal") with false. cbv iota.
  unfold Tokyo.inject_fault. rewrite E3, E4, E5, E6.
  change (String.eqb "other" "qber") with false.
  change (String.eqb "other" "blinding") with false.
  change (String.eqb "other" "trojan") with false.
  change (String.eqb "other" "node_fail") with false. reflexivity.
Qed.

Lemma wiring_ok_sound (w : Tokyo.World) (s : Tokyo.MetricsSampler) (ev : list Tokyo.Event) :
  wiring_ok w s ev = true ->
  List.length (Tokyo.link_pairs s) = 4%nat
  /\ (List.length ev <= 1)%nat
  /\ (forall e, In e ev ->
        Tokyo.time_ps e = Tokyo.FAULT_START_PS
        /\ is_Some (Tokyo.nodes w !! Tokyo.target e)
        /\ exists lp, In lp (Tokyo.link_pairs s) /\ Tokyo.n1 lp = Tokyo.target e)
  /\ (forall lp, In lp (Tokyo.link_pairs s) ->
        exists alice bob node,
          Tokyo.bb84_map s !! Tokyo.link_name lp = Some (alice, bob)
          /\ Tokyo.nodes w !! Tokyo.n1 lp = Some node
          /\ hd_error (Tokyo.Node.protocol_stack node) = Some (Some alice)
          /\ is_Some (Tokyo.protos w !! bob)
          /\ exists p, Tokyo.protos w !! alice = Some p
                       /\ Tokyo.BB84.another p = Some bob).
Proof.
  unfold wiring_ok. rewrite !andb_true_iff. intros (((H1 & H2) & H3) & H4).
  apply Nat.eqb_eq in H1. apply Nat.leb_le in H2.
  rewrite forallb_forall in H3. rewrite forallb_forall in H4.
  split; [done|]. split; [done|]. split.
  - intros e He. specialize (H3 e He). rewrite !andb_true_iff in H3.
    destruct H3 as ((Ht & Hn) & Hl). apply Z.eqb_eq in Ht. apply bool_decide_eq_true in Hn.
    split; [done|]. split; [done|]. apply existsb_exists in Hl as (lp & Hlp & Heq).
    apply String.eqb_eq in Heq. eauto.
  - intros lp Hlp. specialize (H4 lp Hlp).
    destruct (Tokyo.bb84_map s !! Tokyo.link_name lp) as [[alice bob]|]; [|discriminate].
    destruct (Tokyo.nodes w !! Tokyo.n1 lp) as [node|]; [|discriminate].
    rewrite !andb_true_iff, !bool_decide_eq_true in H4.
    destruct H4 as (((Ha & Hb) & Han) & Hs).
    exists alice, bob, node. repeat split; try done.
    destruct (Tokyo.protos w !! alice) as [p|]; [|discriminate].
    exists p. split; [done|]. simpl in Han. congruence.
Qed.

(** X14. For every fault type, known or not, the wiring of a run goes through
    without an exception.  The sampler gets four links; the protocol in
    slot 0 of each link's transmitting node is the Alice the sampler
    reads for that link, paired with the link's Bob.  [normal], [degrade]
    and unknown fault types schedule nothing; each of the four other
    types schedules one callback, at the trigger time, on a node that is
    the transmitting end of a sampled link -- the node the extractor
    reads. *)
Theorem setup_wiring (fault_type : string) :
  exists w s ev,
    Tokyo.setup fault_type = inr (w, s, ev)
    /\ s = Tokyo.make_sampler fault_type (Tokyo.link_pairs s) (Tokyo.bb84_map s)
    /\ List.length (Tokyo.link_pairs s) = 4%nat
    /\ (List.length ev <= 1)%nat
    /\ (ev = [] <-> ~ In fault_type ["qber"; "blinding"; "trojan"; "node_fail"])
    /\ (forall e, In e ev ->
          Tokyo.time_ps e = Tokyo.FAULT_START_PS
          /\ is_Some (Tokyo.nodes w !! Tokyo.target e)
          /\ exists lp, In lp (Tokyo.link_pairs s) /\ Tokyo.n1 lp = Tokyo.target e)
    /\ (forall lp, In lp (Tokyo.link_pairs s) ->
          exists alice bob node,
            Tokyo.bb84_map s !! Tokyo.link_name lp = Some (alice, bob)
            /\ Tokyo.nodes w !! Tokyo.n1 lp = Some node
            /\ hd_error (Tokyo.Node.protocol_stack node) = Some (Some alice)
            /\ is_Some (Tokyo.protos w !! bob)
            /\ exists p, Tokyo.protos w !! alice = Some p
                         /\ Tokyo.BB84.another p = Some bob).
Proof.
  assert (Hgen : forall ft scheduled w s ev,
            Tokyo.setup ft = inr (w, s, ev) ->
            wiring_ok w s ev && Bool.eqb (negb (Nat.eqb (List.length ev) 0)) scheduled = true ->
            (scheduled = false <-> ~ In ft ["qber"; "blinding"; "trojan"; "node_fail"]) ->
            exists w s ev,
              Tokyo.setup ft = inr (w, s, ev)
              /\ s = Tokyo.make_sampler ft (Tokyo.link_pairs s) (Tokyo.bb84_map s)
              /\ List.length (Tokyo.link_pairs s) = 4%nat
              /\ (List.length ev <= 1)%nat
              /\ (ev = [] <-> ~ In ft ["qber"; "blinding"; "trojan"; "node_fail"])
              /\ (forall e, In e ev ->
                    Tokyo.time_ps e = Tokyo.FAULT_START_PS
                    /\ is_Some (Tokyo.nodes w !! Tokyo.target e)
                    /\ exists lp, In lp (Tokyo.link_pairs s) /\ Tokyo.n1 lp = Tokyo.target e)
              /\ (forall lp, In lp (Tokyo.link_pairs s) ->
                    exists alice bob node,
                      Tokyo.bb84_map s !! Tokyo.link_name lp = Some (alice, bob)
                      /\ Tokyo.nodes w !! Tokyo.n1 lp = Some node
                      /\ hd_error (Tokyo.Node.protocol_stack node) = Some (Some alice)
                      /\ is_Some (Tokyo.protos w !! bob)
                      /\ exists p, Tokyo.protos w !! alice = Some p
                                   /\ Tokyo.BB84.another p = Some bob)).
  { intros ft scheduled w s ev Hs Hok Hsch. apply andb_true_iff in Hok as [Hok Hev].
    apply wiring_ok_sound in Hok as (H1 & H2 & H3 & H4).
    destruct (setup_sampler _ _ _ _ Hs) as (lps & bmap & Es).
    exists w, s, ev. split; [done|]. split; [by rewrite Es|].
    split; [done|]. split; [done|]. split; [|by split].
    rewrite <- Hsch. apply Bool.eqb_prop in Hev. rewrite <- Hev.
    destruct ev; simpl; split; intros; congruence. }
  pose proof setup_checked_known as (K1 & K2 & K3 & K4 & K5 & K6 & K7).
  unfold setup_checked in *.
  destruct (String.eqb fault_type "normal") eqn:E1.
  { apply String.eqb_eq in E1. subst.
    pose proof (Hgen "normal" false) as G.
    destruct (Tokyo.setup "normal") as [e|[[w s] ev]]; [discriminate K1|].
    apply (G w s ev eq_refl K1). split; [|done]. intros _ H. simpl in H.
    repeat destruct H as [H|H]; try discriminate H. destruct H. }
  destruct (String.eqb fault_type "degrade") eqn:E2.
  { apply String.eqb_eq in E2. subst.
    pose proof (Hgen "degrade" false) as G.
    destruct (Tokyo.setup "degrade") as [e|[[w s] ev]]; [discriminate K2|].
    apply (G w s ev eq_refl K2). split; [|done]. intros _ H. simpl in H.
    repeat destruct H as [H|H]; try discriminate H. destruct H. }
  destruct (String.eqb fault_type "qber") eqn:E3.
  { apply String.eqb_eq in E3. subst.
    pose proof (Hgen "qber" true) as G.
    destruct (Tokyo.setup "qber") as [e|[[w s] ev]]; [discriminate K3|].
    apply (G w s ev eq_refl K3). split; [discriminate|]. intros H. exfalso.
    apply H. simpl. tauto. }
  destruct (String.eqb fault_type "blinding") eqn:E4.
  { apply String.eqb_eq in E4. subst.
    pose proof (Hgen "blinding" true) as G.
    destruct (Tokyo.setup "blinding") as [e|[[w s] ev]]; [discriminate K4|].
    apply (G w s ev eq_refl K4). split; [discriminate|]. intros H. exfalso.
    apply H. simpl. tauto. }
  destruct (String.eqb fault_type "trojan") eqn:E5.
  { apply String.eqb_eq in E5. subst.
    pose proof (Hgen "trojan" true) as G.
    destruct (Tokyo.setup "trojan") as [e|[[w s] ev]]; [discriminate K5|].
    apply (G w s ev eq_refl K5). split; [discriminate|]. intros H. exfalso.
    apply H. simpl. tauto. }
  destruct (String.eqb fault_type "node_fail") eqn:E6.
  { apply String.eqb_eq in E6. subst.
    pose proof (Hgen "node_fail" true) as G.
    destruct (Tokyo.setup "node_fail") as [e|[[w s] ev]]; [discriminate K6|].
    apply (G w s ev eq_refl K6). split; [discriminate|]. intros H. exfalso.
    apply H. simpl. tauto. }
  pose proof (setup_unknown fault_type E1 E2 E3 E4 E5 E6) as Hu.
  destruct (Tokyo.setup "other") as [e|[[w s] ev]] eqn:Es; [discriminate K7|].
  apply (Hgen _ false w _ ev Hu).
  - exact K7.
  - split; [|done]. intros _ H. simpl in H.
    apply String.eqb_neq in E3, E4, E5, E6.
    repeat destruct H as [H|H]; try congruence.
Qed.
